(** * Token masking and nearest-neighbour matching of [util/utils.py]

    A shallow embedding of the index utilities ([expand_index_like],
    [get_at_index], [set_at_index], [mask_at_index]), of the mask generator
    [random_token_mask] and of [nearest_neighbors], followed by the
    properties the specification states about them.

    Tensors are nested lists carrying their shape; indices are integers
    ([Z]), as an int64 tensor may hold negative entries; floating-point
    values are rationals ([Q]) where they are compared or rounded, and an
    arbitrary carrier where they are only moved around.  Calls into the
    tensor library that can raise return a [result].

    The second part of the definitions embeds more of the file:
    [repeat_token] and [prepend_class_token], the batch shuffles and their
    distributed forms, [get_params_groups], [generation_mask], [rand_bbox],
    [cosine_scheduler], [patchify] and [multicropwrapper]; their properties
    follow those of the specification. *)

From Stdlib Require Import ZArith QArith Qround Qminmax Qcanon Lia Lqa.
From Stdlib Require String.
Import String.StringSyntax.
Delimit Scope string_scope with string.
From stdpp Require Import base tactics option list sorting.

(** Lists are mapped over with stdpp's [fmap], whose lemmas the proofs
    use. *)
Abbreviation map := (@fmap list list_fmap _ _) (only parsing).

(** ** Errors *)

Inductive error : Type :=
| ShapeMismatch
| IndexOutOfRange
| InvalidParameter.

Inductive result (A : Type) : Type :=
| Ok (a : A)
| Err (e : error).

Arguments Ok {A} a.
Arguments Err {A} e.

#[global] Instance result_bind : MBind result := λ A B k m,
  match m with
  | Ok a => k a
  | Err e => Err e
  end.

(** [traverse f l] runs [f] on every element from left to right and stops
    at the first error. *)
Fixpoint traverse {A B : Type} (f : A → result B) (l : list A) : result (list B) :=
  match l with
  | [] => Ok []
  | a :: l' => b ← f a; bs ← traverse f l'; Ok (b :: bs)
  end.

(** [traverse2 f l1 l2] walks two lists in step; it stops with the shorter
    one. *)
Fixpoint traverse2 {A B C : Type} (f : A → B → result C)
    (l1 : list A) (l2 : list B) : result (list C) :=
  match l1, l2 with
  | a :: l1', b :: l2' => c ← f a b; cs ← traverse2 f l1' l2'; Ok (c :: cs)
  | _, _ => Ok []
  end.

(** ** Tensors *)

(** A rank-2 tensor of shape [(nrows, ncols)]. *)
Record tensor2 (A : Type) : Type := T2 {
  nrows : nat;
  ncols : nat;
  data2 : list (list A)
}.

Arguments T2 {A} nrows ncols data2.
Arguments nrows {A} t.
Arguments ncols {A} t.
Arguments data2 {A} t.

(** A rank-3 tensor of shape [(dimB, dimL, dimD)]: batch, position,
    feature. *)
Record tensor3 (A : Type) : Type := T3 {
  dimB : nat;
  dimL : nat;
  dimD : nat;
  data3 : list (list (list A))
}.

Arguments T3 {A} dimB dimL dimD data3.
Arguments dimB {A} t.
Arguments dimL {A} t.
Arguments dimD {A} t.
Arguments data3 {A} t.

Definition shaped2 {A : Type} (n m : nat) (x : list (list A)) : Prop :=
  length x = n ∧ Forall (λ r, length r = m) x.

Definition shaped3 {A : Type} (n m d : nat) (x : list (list (list A))) : Prop :=
  length x = n ∧ Forall (shaped2 m d) x.

(** [t] is a well-formed tensor of shape [(n, m)]. *)
Definition has_shape2 {A : Type} (t : tensor2 A) (n m : nat) : Prop :=
  nrows t = n ∧ ncols t = m ∧ shaped2 n m (data2 t).

(** [t] is a well-formed tensor of shape [(n, m, d)]. *)
Definition has_shape3 {A : Type} (t : tensor3 A) (n m d : nat) : Prop :=
  dimB t = n ∧ dimL t = m ∧ dimD t = d ∧ shaped3 n m d (data3 t).

(** Element access, [None] outside the tensor. *)
Definition at2 {A : Type} (t : tensor2 A) (b k : nat) : option A :=
  data2 t !! b ≫= (.!! k).

Definition row3 {A : Type} (t : tensor3 A) (b p : nat) : option (list A) :=
  data3 t !! b ≫= (.!! p).

Definition at3 {A : Type} (t : tensor3 A) (b p d : nat) : option A :=
  row3 t b p ≫= (.!! d).

(** ** Python slices and [int] *)

(** The position a slice bound [n] denotes in a sequence of length [len]:
    negative bounds count from the end, and the result is clipped to
    [0 .. len]. *)
Definition slice_bound (len : nat) (n : Z) : nat :=
  Z.to_nat (if (n <? 0)%Z then Z.max 0 (Z.of_nat len + n) else Z.min n (Z.of_nat len)).

(** [l[:n]] *)
Definition slice_to {A : Type} (n : Z) (l : list A) : list A :=
  take (slice_bound (length l) n) l.

(** [l[n:]] *)
Definition slice_from {A : Type} (n : Z) (l : list A) : list A :=
  drop (slice_bound (length l) n) l.

(** [int(x)] truncates towards zero. *)
Definition py_int (x : Q) : Z := (Qnum x ÷ Zpos (Qden x))%Z.

(** ** Sorting indices *)

Definition key_at (keys : list Q) (i : nat) : Q := nth i keys 0%Q.

(** [i] may stand before [j] when the keys are put in ascending order. *)
Definition ascending (keys : list Q) (i j : nat) : Prop :=
  (key_at keys i <= key_at keys j)%Q.

(** The contract of [torch.argsort] on one row: the result lists every
    position once and the keys read through it never decrease.  The order
    of positions with equal keys is left open, as it is by the library
    unless [stable=True] is passed. *)
Definition argsort_of (keys : list Q) (p : list nat) : Prop :=
  p ≡ₚ seq 0 (length keys) ∧ StronglySorted (ascending keys) p.

Definition argsort_contract (argsort : list Q → list nat) : Prop :=
  ∀ keys, argsort_of keys (argsort keys).

(** A sort that keeps positions with equal keys in their original order:
    [insert_by keys i p] puts [i] in front of the first position of [p]
    whose key is not smaller. *)
Fixpoint insert_by (keys : list Q) (i : nat) (p : list nat) : list nat :=
  match p with
  | [] => [i]
  | j :: p' =>
      if Qle_bool (key_at keys i) (key_at keys j) then i :: p
      else j :: insert_by keys i p'
  end.

Definition stable_argsort (keys : list Q) : list nat :=
  foldr (insert_by keys) [] (seq 0 (length keys)).

(** [i] stands before [j] in the stable ascending order: its key is
    smaller, or the keys are equal and [i] is the earlier position. *)
Definition first_before (keys : list Q) (i j : nat) : Prop :=
  (key_at keys i <= key_at keys j)%Q ∧
  ((key_at keys j <= key_at keys i)%Q → i < j).

(** ** [random_token_mask] *)

(** [noise[:, 0] = v] *)
Definition set_column0 {A : Type} (v : A) (t : tensor2 A) : tensor2 A :=
  T2 (nrows t) (ncols t) (map (λ row, <[0 := v]> row) (data2 t)).

(** [torch.argsort(noise, dim=1)] for an [argsort] of rows. *)
Definition torch_argsort (argsort : list Q → list nat) (t : tensor2 Q) : tensor2 Z :=
  T2 (nrows t) (ncols t) (map (λ row, map Z.of_nat (argsort row)) (data2 t)).

(** [t[:, :n]] *)
Definition columns_to {A : Type} (n : Z) (t : tensor2 A) : tensor2 A :=
  T2 (nrows t) (slice_bound (ncols t) n) (map (slice_to n) (data2 t)).

(** [t[:, n:]] *)
Definition columns_from {A : Type} (n : Z) (t : tensor2 A) : tensor2 A :=
  T2 (nrows t) (ncols t - slice_bound (ncols t) n) (map (slice_from n) (data2 t)).

(** [random_token_mask(size, mask_ratio, mask_class_token)].  The random
    source is explicit: [noise] is the tensor [torch.rand(batch_size,
    sequence_length)] draws, of that shape and with entries in [[0, 1)].
    [argsort] is the row sort behind [torch.argsort]. *)
Definition random_token_mask (argsort : list Q → list nat)
    (size : nat * nat) (mask_ratio : Q) (mask_class_token : bool)
    (noise : tensor2 Q) : tensor2 Z * tensor2 Z :=
  let '(batch_size, sequence_length) := size in
  let num_keep := py_int (inject_Z (Z.of_nat sequence_length) * (1 - mask_ratio)) in
  let '(noise, num_keep) :=
    if negb mask_class_token && (0 <? sequence_length)
    then (set_column0 (-1)%Q noise, Z.max 1 num_keep)
    else (noise, num_keep) in
  let indices := torch_argsort argsort noise in
  let idx_keep := columns_to num_keep indices in
  let idx_mask := columns_from num_keep indices in
  (idx_keep, idx_mask).

(** What [torch.rand(n, m)] may return. *)
Definition uniform_draw (n m : nat) (noise : tensor2 Q) : Prop :=
  has_shape2 noise n m ∧
  Forall (Forall (λ x, (0 <= x)%Q ∧ (x < 1)%Q)) (data2 noise).

(** ** Index utilities *)

(** [t.unsqueeze(-1)] *)
Definition unsqueeze_last {A : Type} (t : tensor2 A) : tensor3 A :=
  T3 (nrows t) (ncols t) 1 (map (map (λ x, [x])) (data2 t)).

(** [t.expand(-1, -1, dim)]: a last dimension of size one is repeated
    [dim] times; a last dimension that already has size [dim] is kept; any
    other size is refused. *)
Definition expand_vec {A : Type} (dim : nat) (v : list A) : result (list A) :=
  match v with
  | [x] => Ok (replicate dim x)
  | _ => if length v =? dim then Ok v else Err ShapeMismatch
  end.

Definition expand_last {A : Type} (dim : nat) (t : tensor3 A) : result (tensor3 A) :=
  if (dimD t =? 1) || (dimD t =? dim) then
    out ← traverse (traverse (expand_vec dim)) (data3 t);
    Ok (T3 (dimB t) (dimL t) dim out)
  else Err ShapeMismatch.

Definition expand_index_like {A : Type} (index : tensor2 Z) (tokens : tensor3 A)
    : result (tensor3 Z) :=
  let dim := dimD tokens in
  expand_last dim (unsqueeze_last index).

(** An index [i] addresses a dimension of size [len]. *)
Definition in_range (len : nat) (i : Z) : bool :=
  (0 <=? i)%Z && (i <? Z.of_nat len)%Z.

(** [torch.gather(input, 1, index)]:
    [out[b][k][d] = input[b][index[b][k][d]][d]].  The index may be smaller
    than the input in the batch and feature dimensions, not larger; an
    entry outside [[0, input.size(1))] raises. *)
Fixpoint gather_vec {A : Type} (len : nat) (rows : list (list A)) (d : nat)
    (idx : list Z) : result (list A) :=
  match idx with
  | [] => Ok []
  | i :: idx' =>
      x ← (if in_range len i then
             match rows !! Z.to_nat i ≫= (.!! d) with
             | Some x => Ok x
             | None => Err ShapeMismatch
             end
           else Err IndexOutOfRange);
      xs ← gather_vec len rows (S d) idx';
      Ok (x :: xs)
  end.

Definition gather {A : Type} (input : tensor3 A) (index : tensor3 Z)
    : result (tensor3 A) :=
  if (dimB index <=? dimB input) && (dimD index <=? dimD input) then
    out ← traverse2 (λ rows idxs, traverse (gather_vec (dimL input) rows 0) idxs)
                    (data3 input) (data3 index);
    Ok (T3 (dimB index) (dimL index) (dimD index) out)
  else Err ShapeMismatch.

Definition get_at_index {A : Type} (tokens : tensor3 A) (index : tensor2 Z)
    : result (tensor3 A) :=
  index ← expand_index_like index tokens;
  gather tokens index.

(** What [torch.scatter] writes: a tensor of values, or one scalar for
    every slot. *)
Inductive source (A : Type) : Type :=
| Values (t : tensor3 A)
| Fill (x : A).

Arguments Values {A} t.
Arguments Fill {A} x.

(** [rows[p][d] = x] *)
Definition write_at {A : Type} (p d : nat) (x : A) (rows : list (list A))
    : list (list A) :=
  alter (<[d := x]>) p rows.

(** [torch.scatter(input, 1, index, src)]: a copy of [input] in which
    [out[b][index[b][k][d]][d] = src[b][k][d]], the slots of [index] taken
    in row-major order.  The index may be smaller than the input in the
    batch and feature dimensions and than the source in all three. *)
Fixpoint scatter_vec {A : Type} (len : nat) (d : nat) (idx : list Z) (vals : list A)
    (rows : list (list A)) : result (list (list A)) :=
  match idx, vals with
  | [], _ => Ok rows
  | i :: idx', x :: vals' =>
      if in_range len i
      then scatter_vec len (S d) idx' vals' (write_at (Z.to_nat i) d x rows)
      else Err IndexOutOfRange
  | _ :: _, [] => Err ShapeMismatch
  end.

Fixpoint scatter_rows {A : Type} (len : nat) (idxs : list (list Z))
    (vals : list (list A)) (rows : list (list A)) : result (list (list A)) :=
  match idxs, vals with
  | [], _ => Ok rows
  | idx :: idxs', v :: vals' =>
      rows' ← scatter_vec len 0 idx v rows;
      scatter_rows len idxs' vals' rows'
  | _ :: _, [] => Err ShapeMismatch
  end.

Fixpoint scatter_batches {A : Type} (len : nat) (idxss : list (list (list Z)))
    (valss : list (list (list A))) (input : list (list (list A)))
    : result (list (list (list A))) :=
  match idxss, valss, input with
  | [], _, _ => Ok input
  | idxs :: idxss', vals :: valss', rows :: input' =>
      rows' ← scatter_rows len idxs vals rows;
      out ← scatter_batches len idxss' valss' input';
      Ok (rows' :: out)
  | _ :: _, _, _ => Err ShapeMismatch
  end.

(** The values a source provides for the slots of [index]. *)
Definition source_data {A : Type} (index : tensor3 Z) (src : source A)
    : list (list (list A)) :=
  match src with
  | Values t => data3 t
  | Fill x => map (map (map (λ _, x))) (data3 index)
  end.

Definition source_covers {A : Type} (index : tensor3 Z) (src : source A) : bool :=
  match src with
  | Values t =>
      (dimB index <=? dimB t) && (dimL index <=? dimL t) && (dimD index <=? dimD t)
  | Fill _ => true
  end.

Definition scatter {A : Type} (input : tensor3 A) (index : tensor3 Z)
    (src : source A) : result (tensor3 A) :=
  if (dimB index <=? dimB input) && (dimD index <=? dimD input)
     && source_covers index src then
    out ← scatter_batches (dimL input) (data3 index) (source_data index src)
                          (data3 input);
    Ok (T3 (dimB input) (dimL input) (dimD input) out)
  else Err ShapeMismatch.

Definition set_at_index {A : Type} (tokens : tensor3 A) (index : tensor2 Z)
    (value : source A) : result (tensor3 A) :=
  index ← expand_index_like index tokens;
  scatter tokens index value.

(** ** Arithmetic on tensors *)

(** The numbers a tensor holds, with the operations [mask_at_index] uses. *)
Class Number (R : Type) : Type := {
  num0 : R;
  num1 : R;
  nadd : R → R → R;
  nsub : R → R → R;
  nmul : R → R → R
}.

(** The laws of exact arithmetic the blend [(1 - m) * t + m * v] relies on
    when [m] is zero or one. *)
Class BlendLaws (R : Type) `{Number R} : Prop := {
  nsub_1_0 : nsub num1 num0 = num1;
  nsub_1_1 : nsub num1 num1 = num0;
  nmul_1_l : ∀ x, nmul num1 x = x;
  nmul_0_l : ∀ x, nmul num0 x = num0;
  nadd_0_l : ∀ x, nadd num0 x = x;
  nadd_0_r : ∀ x, nadd x num0 = x
}.

#[global] Instance Z_number : Number Z :=
  {| num0 := 0%Z; num1 := 1%Z; nadd := Z.add; nsub := Z.sub; nmul := Z.mul |}.

#[global] Instance Qc_number : Number Qc :=
  {| num0 := 0%Qc; num1 := 1%Qc; nadd := Qcplus; nsub := Qcminus; nmul := Qcmult |}.

(** [tokens.new_zeros(tokens.shape)] *)
Definition new_zeros {R : Type} `{Number R} (tokens : tensor3 R) : tensor3 R :=
  T3 (dimB tokens) (dimL tokens) (dimD tokens)
     (replicate (dimB tokens) (replicate (dimL tokens) (replicate (dimD tokens) num0))).

(** [x - t] for a scalar [x] *)
Definition scalar_sub {R : Type} `{Number R} (x : R) (t : tensor3 R) : tensor3 R :=
  T3 (dimB t) (dimL t) (dimD t) (map (map (map (nsub x))) (data3 t)).

(** Broadcasting: two sizes are compatible when they are equal or one of
    them is one, and the dimension of size one is read at position 0. *)
Definition broadcast_size (n m : nat) : result nat :=
  if n =? m then Ok n
  else if n =? 1 then Ok m
  else if m =? 1 then Ok n
  else Err ShapeMismatch.

Definition broadcast_pos (n i : nat) : nat := if n =? 1 then 0 else i.

Definition read3 {R : Type} `{Number R} (t : tensor3 R) (b p d : nat) : R :=
  default num0 (at3 t (broadcast_pos (dimB t) b) (broadcast_pos (dimL t) p)
                      (broadcast_pos (dimD t) d)).

(** The tensor of shape [(n, m, k)] whose entry [(b, p, d)] is [g b p d]. *)
Definition tabulate3 {R : Type} (n m k : nat) (g : nat → nat → nat → R)
    : list (list (list R)) :=
  (λ b, (λ p, (λ d, g b p d) <$> seq 0 k) <$> seq 0 m) <$> seq 0 n.

(** An elementwise binary operation with broadcasting, [x * y] or [x + y]. *)
Definition elementwise {R : Type} `{Number R} (f : R → R → R) (x y : tensor3 R)
    : result (tensor3 R) :=
  n ← broadcast_size (dimB x) (dimB y);
  m ← broadcast_size (dimL x) (dimL y);
  k ← broadcast_size (dimD x) (dimD y);
  Ok (T3 n m k (tabulate3 n m k (λ b p d, f (read3 x b p d) (read3 y b p d)))).

Definition mask_at_index {R : Type} `{Number R} (tokens : tensor3 R)
    (index : tensor2 Z) (mask_token : tensor3 R) : result (tensor3 R) :=
  let mask := new_zeros tokens in
  mask ← set_at_index mask index (Fill num1);
  kept ← elementwise nmul (scalar_sub num1 mask) tokens;
  masked ← elementwise nmul mask mask_token;
  elementwise nadd kept masked.

(** ** [nearest_neighbors] *)

(** The positions of the [k] smallest keys of a row, in ascending order of
    key.  The tensor library leaves the order of equal keys open; the model
    takes the earliest position first, which is the reference behaviour. *)
Definition smallest (k : nat) (keys : list Q) : list nat :=
  take k (stable_argsort keys).

(** [t.topk(k, dim=-1, largest=False)] for a tensor of rank 3 and of
    rank 2: values and indices.  [k] must lie in [[0, t.size(-1)]]. *)
Definition topk_last3 (k : Z) (t : tensor3 Q) : result (tensor3 Q * tensor3 Z) :=
  if (0 <=? k)%Z && (k <=? Z.of_nat (dimD t))%Z then
    let n := Z.to_nat k in
    Ok (T3 (dimB t) (dimL t) n
           (map (map (λ keys, map (key_at keys) (smallest n keys))) (data3 t)),
        T3 (dimB t) (dimL t) n
           (map (map (λ keys, map Z.of_nat (smallest n keys))) (data3 t)))
  else Err InvalidParameter.

Definition topk_last2 (k : Z) (t : tensor2 Q) : result (tensor2 Q * tensor2 Z) :=
  if (0 <=? k)%Z && (k <=? Z.of_nat (ncols t))%Z then
    let n := Z.to_nat k in
    Ok (T2 (nrows t) n (map (λ keys, map (key_at keys) (smallest n keys)) (data2 t)),
        T2 (nrows t) n (map (λ keys, map Z.of_nat (smallest n keys)) (data2 t)))
  else Err InvalidParameter.

(** [t.squeeze(-1)] of a tensor whose last dimension has size one.  (For
    another size the library returns [t] itself, which has no rank-2 shape;
    [nearest_neighbors] squeezes the result of a [topk] with [k=1] only.) *)
Definition squeeze_last {A : Type} (t : tensor3 A) : result (tensor2 A) :=
  if dimD t =? 1 then Ok (T2 (dimB t) (dimL t) (map (λ row, concat row) (data3 t)))
  else Err ShapeMismatch.

(** [num_matches] is [None], [-1] or larger than the number of inputs:
    all inputs are kept. *)
Definition normalize_matches (num_matches : option Z) (size1 : nat) : Z :=
  match num_matches with
  | None => Z.of_nat size1
  | Some n =>
      if (n =? -1)%Z || (n >? Z.of_nat size1)%Z then Z.of_nat size1 else n
  end.

Definition nearest_neighbors {A : Type} (input_maps candidate_maps : tensor3 A)
    (distances : tensor3 Q) (num_matches : option Z)
    : result (tensor3 A * tensor3 A) :=
  let num_matches := normalize_matches num_matches (dimL input_maps) in
  '(topk_values, topk_indices) ← topk_last3 1 distances;
  topk_values ← squeeze_last topk_values;
  '(_, min_indices) ← topk_last2 num_matches topk_values;
  let feature_dimension := dimD input_maps in
  index ← expand_last feature_dimension (unsqueeze_last min_indices);
  filtered_input_maps ← gather input_maps index;
  index ← expand_last feature_dimension topk_indices;
  selected_candidate_maps ← gather candidate_maps index;
  index ← expand_last feature_dimension (unsqueeze_last min_indices);
  filtered_candidate_maps ← gather selected_candidate_maps index;
  Ok (filtered_input_maps, filtered_candidate_maps).

(** The smallest entry of a row of distances, [min_j distances[b, i, j]]
    (0 for an empty row, which has no minimum). *)
Definition min_of (keys : list Q) : Q :=
  match keys with
  | [] => 0%Q
  | x :: keys' => foldr Qmin x keys'
  end.

(** ** Tensors in memory *)

(** The functions above compute with values.  To say which arrays a call
    writes, the same code is run over a heap of tensors: an address is a
    position in the heap, an out-of-place library call allocates its
    result, and an in-place call overwrites its first argument. *)
Module Heap.

Definition loc : Type := nat.

Definition heap (R : Type) : Type := list (tensor3 R).

Definition M (R A : Type) : Type := heap R → result (A * heap R).

Definition ret {R A : Type} (a : A) : M R A := λ h, Ok (a, h).

Definition bind {R A B : Type} (m : M R A) (k : A → M R B) : M R B :=
  λ h, match m h with
       | Ok (a, h') => k a h'
       | Err e => Err e
       end.

Notation "'let*' x := m 'in' k" := (bind m (λ x, k))
  (at level 10, x name, m at level 100, k at level 200, only parsing).

Definition lift {R A : Type} (r : result A) : M R A :=
  λ h, match r with
       | Ok a => Ok (a, h)
       | Err e => Err e
       end.

Definition alloc {R : Type} (t : tensor3 R) : M R loc :=
  λ h, Ok (length h, h ++ [t]).

Definition load {R : Type} (l : loc) : M R (tensor3 R) :=
  λ h, match h !! l with
       | Some t => Ok (t, h)
       | None => Err InvalidParameter
       end.

Definition store {R : Type} (l : loc) (t : tensor3 R) : M R () :=
  λ h, Ok ((), <[l := t]> h).

(** The source of a scatter: a tensor in the heap or a scalar. *)
Inductive source_at (R : Type) : Type :=
| ValuesAt (l : loc)
| FillWith (x : R).

Arguments ValuesAt {R} l.
Arguments FillWith {R} x.

(** The source a heap holds for a scatter. *)
Definition source_value {R : Type} (h : heap R) (src : source_at R)
    : option (source R) :=
  match src with
  | ValuesAt l => Values <$> h !! l
  | FillWith x => Some (Fill x)
  end.

Definition load_source {R : Type} (src : source_at R) : M R (source R) :=
  match src with
  | ValuesAt l => let* v := load l in ret (Values v)
  | FillWith x => ret (Fill x)
  end.

(** [input.scatter_(1, index, src)] writes into [input] and returns it. *)
Definition scatter_ {R : Type} (input : loc) (index : tensor3 Z)
    (src : source_at R) : M R loc :=
  let* t := load input in
  let* s := load_source src in
  let* r := lift (scatter t index s) in
  let* _ := store input r in
  ret input.

(** [torch.scatter(input, 1, index, src)] returns a new tensor. *)
Definition scatter {R : Type} (input : loc) (index : tensor3 Z)
    (src : source_at R) : M R loc :=
  let* t := load input in
  let* s := load_source src in
  let* r := lift (scatter t index s) in
  alloc r.

Definition expand_index_like {R : Type} (index : tensor2 Z) (tokens : loc)
    : M R (tensor3 Z) :=
  let* t := load tokens in
  lift (expand_index_like index t).

Definition new_zeros {R : Type} `{Number R} (tokens : loc) : M R loc :=
  let* t := load tokens in
  alloc (new_zeros t).

Definition scalar_sub {R : Type} `{Number R} (x : R) (t : loc) : M R loc :=
  let* v := load t in
  alloc (scalar_sub x v).

Definition elementwise {R : Type} `{Number R} (f : R → R → R) (x y : loc)
    : M R loc :=
  let* u := load x in
  let* v := load y in
  let* r := lift (elementwise f u v) in
  alloc r.

Definition set_at_index {R : Type} (tokens : loc) (index : tensor2 Z)
    (value : source_at R) : M R loc :=
  let* index := expand_index_like index tokens in
  scatter tokens index value.

Definition mask_at_index {R : Type} `{Number R} (tokens : loc)
    (index : tensor2 Z) (mask_token : loc) : M R loc :=
  let* mask := new_zeros tokens in
  let* mask := set_at_index mask index (FillWith num1) in
  let* one_minus := scalar_sub num1 mask in
  let* kept := elementwise nmul one_minus tokens in
  let* masked := elementwise nmul mask mask_token in
  elementwise nadd kept masked.

(** The heap [h'] holds everything [h] held, at the same addresses. *)
Definition extends {R : Type} (h h' : heap R) : Prop :=
  ∀ l, l < length h → h' !! l = h !! l.

End Heap.

(** ** Vocabulary of the statements *)

(** The number of positions [random_token_mask] asks to keep, and the noise
    it sorts, once the class token has been taken care of. *)
Definition requested_keep (sequence_length : nat) (mask_ratio : Q)
    (mask_class_token : bool) : Z :=
  let num_keep := py_int (inject_Z (Z.of_nat sequence_length) * (1 - mask_ratio)) in
  if negb mask_class_token && (0 <? sequence_length) then Z.max 1 num_keep
  else num_keep.

Definition sorted_noise (sequence_length : nat) (mask_class_token : bool)
    (noise : tensor2 Q) : tensor2 Q :=
  if negb mask_class_token && (0 <? sequence_length)
  then set_column0 (-1)%Q noise else noise.

(** Every entry of an index tensor addresses a dimension of size [len];
    some entry does not. *)
Definition all_in_range (len : nat) (index : tensor2 Z) : Prop :=
  Forall (Forall (λ i, (0 ≤ i < Z.of_nat len)%Z)) (data2 index).

Definition entry_out_of_range (len : nat) (index : tensor2 Z) : Prop :=
  ∃ b k i, at2 index b k = Some i ∧ (i < 0 ∨ Z.of_nat len ≤ i)%Z.

(** The rows of [rows] an index row selects. *)
Definition select_rows {A : Type} (rows : list (list A)) (idx : list Z)
    : list (list A) :=
  map (λ i, default [] (rows !! Z.to_nat i)) idx.

(** The position of the smallest key of a row, the first one if several
    are smallest. *)
Definition argmin (keys : list Q) : nat := hd 0 (stable_argsort keys).

(** For every input of every batch element: its nearest candidate, and the
    distance to it. *)
Definition nearest_candidates (distances : tensor3 Q) : list (list Z) :=
  map (map (λ keys, Z.of_nat (argmin keys))) (data3 distances).

Definition nearest_distances (distances : tensor3 Q) : list (list Q) :=
  map (map (λ keys, key_at keys (argmin keys))) (data3 distances).

(** For every batch element: the [n] inputs that are closest to their
    nearest candidate. *)
Definition selected_inputs (distances : tensor3 Q) (n : nat) : list (list Z) :=
  map (λ keys, map Z.of_nat (smallest n keys)) (nearest_distances distances).

(** The distances of the worked example: one batch element, two inputs,
    two candidates. *)
Definition example_distances : tensor3 Q :=
  T3 1 2 2 [[[1 # 10; 9 # 10]; [1 # 2; 1 # 20]]]%Q.

(** A draw for the worked example of the mask generator: two rows of four
    values, with a tie in the second row. *)
Definition example_noise : tensor2 Q :=
  T2 2 4 [[1 # 2; 1 # 3; 1 # 4; 1 # 5]; [1 # 5; 1 # 5; 1 # 10; 9 # 10]]%Q.

(** The values a scatter source provides have the shape [(n, m, d)] of the
    expanded index. *)
Definition source_shaped {A : Type} (src : source A) (n m d : nat) : Prop :=
  match src with
  | Values t => has_shape3 t n m d
  | Fill _ => True
  end.

(** [out] lists the entries of [l] at the positions [q], in the order of
    [q]. *)
Definition rows_at {A : Type} (l : list A) (q : list nat) (out : list A) : Prop :=
  Forall2 (λ i x, l !! i = Some x) q out.

(** ** [repeat_token] and [prepend_class_token] *)

(** [n] copies of a list, one after the other. *)
Definition tile {A : Type} (n : nat) (l : list A) : list A :=
  concat (replicate n l).

(** [t.repeat(r0, r1, r2)]: the tensor laid out [r0], [r1] and [r2] times
    along its three dimensions. *)
Definition repeat3 {A : Type} (r0 r1 r2 : nat) (t : tensor3 A) : tensor3 A :=
  T3 (dimB t * r0) (dimL t * r1) (dimD t * r2)
     (tile r0 (map (λ rows, tile r1 (map (tile r2) rows)) (data3 t))).

Definition repeat_token {A : Type} (token : tensor3 A) (size : nat * nat)
    : tensor3 A :=
  let '(batch_size, sequence_length) := size in
  repeat3 batch_size sequence_length 1 token.

(** [t.expand(n, -1, -1)]: a first dimension of size [n] is kept, one of
    size one is repeated [n] times, any other size is refused. *)
Definition expand_first {A : Type} (n : nat) (t : tensor3 A) : result (tensor3 A) :=
  if dimB t =? n then Ok t
  else if dimB t =? 1 then
    Ok (T3 n (dimL t) (dimD t) (concat (map (replicate n) (data3 t))))
  else Err ShapeMismatch.

(** [torch.cat([x, y], dim=1)]: the tensors must agree in the other two
    dimensions. *)
Definition cat1 {A : Type} (x y : tensor3 A) : result (tensor3 A) :=
  if (dimB x =? dimB y) && (dimD x =? dimD y) then
    Ok (T3 (dimB x) (dimL x + dimL y) (dimD x) (zip_with app (data3 x) (data3 y)))
  else Err ShapeMismatch.

Definition prepend_class_token {A : Type} (tokens class_token : tensor3 A)
    : result (tensor3 A) :=
  let batch_size := dimB tokens in
  batch_class_token ← expand_first batch_size class_token;
  cat1 batch_class_token tokens.

(** Every position of [[0, len)] occurs in every row of an index. *)
Definition covers_all (len : nat) (index : tensor2 Z) : Prop :=
  Forall (λ row, ∀ p, p < len → Z.of_nat p ∈ row) (data2 index).

(** ** Batch shuffling *)

(** A batch is the list of its rows, the slices along its first dimension.

    [batch[index]] for an index tensor of rank one: the rows at the listed
    positions.  An entry in [[-len, 0)] counts from the end; any other
    entry outside [[0, len)] raises. *)
Definition take_row {A : Type} (batch : list A) (i : Z) : result A :=
  let len := Z.of_nat (length batch) in
  if (- len <=? i)%Z && (i <? len)%Z then
    match batch !! Z.to_nat (if (i <? 0)%Z then i + len else i) with
    | Some x => Ok x
    | None => Err IndexOutOfRange
    end
  else Err IndexOutOfRange.

Definition take_rows {A : Type} (batch : list A) (index : list Z) : result (list A) :=
  traverse (take_row batch) index.

(** [torch.argsort] of a tensor of integers of rank one. *)
Definition argsort_ints (argsort : list Q → list nat) (l : list Z) : list Z :=
  map Z.of_nat (argsort (map inject_Z l)).

(** What [torch.randperm(n)] may return. *)
Definition randperm_draw (n : nat) (perm : list Z) : Prop :=
  perm ≡ₚ map Z.of_nat (seq 0 n).

(** [a // b] on sizes; division by zero raises. *)
Definition floor_div (a b : nat) : result nat :=
  if b =? 0 then Err InvalidParameter else Ok (a / b).

(** [n] consecutive pieces of [size] entries each. *)
Fixpoint chunks {A : Type} (n size : nat) (l : list A) : list (list A) :=
  match n with
  | 0 => []
  | S n' => take size l :: chunks n' size (drop size l)
  end.

(** [t.view(n, -1)] of a tensor of rank one: [n] rows; [n] must not be 0
    and must divide the number of entries. *)
Definition view_rows {A : Type} (n : nat) (l : list A) : result (list (list A)) :=
  if n =? 0 then Err ShapeMismatch
  else if length l `mod` n =? 0 then Ok (chunks n (length l / n) l)
  else Err ShapeMismatch.

(** [t[i]] for a Python integer [i] that is not negative. *)
Definition row_at {A : Type} (t : list A) (i : nat) : result A :=
  match t !! i with
  | Some x => Ok x
  | None => Err IndexOutOfRange
  end.

(** The process group as one of its members sees it: [rank] is its own
    rank and [world] holds what every member passes to the collective that
    is running, in rank order (the entry at [rank] is overridden by what
    the member passes itself).

    [concat_all_gather(x)]: the tensors of all members, which must have the
    shape of [x], one after the other. *)
Definition concat_all_gather {A : Type} (rank : nat) (world : list (list A))
    (x : list A) : result (list A) :=
  let output := <[rank := x]> world in
  if forallb (λ y, length y =? length x) output then Ok (concat output)
  else Err ShapeMismatch.

(** [batch_shuffle_distributed(batch)]; [idx_shuffle] is the permutation
    [torch.randperm(batch_size_all)] that member 0 drew, which the
    broadcast hands to every member. *)
Definition batch_shuffle_distributed {A : Type} (argsort : list Q → list nat)
    (rank : nat) (world : list (list A)) (idx_shuffle : list Z) (batch : list A)
    : result (list A * list Z) :=
  let batch_size_this := length batch in
  batch_gather ← concat_all_gather rank world batch;
  let batch_size_all := length batch_gather in
  num_gpus ← floor_div batch_size_all batch_size_this;
  let shuffle := argsort_ints argsort idx_shuffle in
  let gpu_idx := rank in
  rows ← view_rows num_gpus idx_shuffle;
  idx_this ← row_at rows gpu_idx;
  shuffled ← take_rows batch_gather idx_this;
  Ok (shuffled, shuffle).

Definition batch_unshuffle_distributed {A : Type} (rank : nat)
    (world : list (list A)) (batch : list A) (shuffle : list Z)
    : result (list A) :=
  let batch_size_this := length batch in
  batch_gather ← concat_all_gather rank world batch;
  let batch_size_all := length batch_gather in
  num_gpus ← floor_div batch_size_all batch_size_this;
  let gpu_idx := rank in
  rows ← view_rows num_gpus shuffle;
  idx_this ← row_at rows gpu_idx;
  take_rows batch_gather idx_this.

(** [batch_shuffle(batch, distributed)]; [perm] is the permutation
    [torch.randperm] draws, of the local batch or of the gathered one. *)
Definition batch_shuffle {A : Type} (argsort : list Q → list nat)
    (rank : nat) (world : list (list A)) (perm : list Z)
    (batch : list A) (distributed : bool) : result (list A * list Z) :=
  if distributed then batch_shuffle_distributed argsort rank world perm batch
  else
    let batch_size := length batch in
    let shuffle := perm in
    shuffled ← take_rows batch shuffle;
    Ok (shuffled, shuffle).

Definition batch_unshuffle {A : Type} (argsort : list Q → list nat)
    (rank : nat) (world : list (list A))
    (batch : list A) (shuffle : list Z) (distributed : bool) : result (list A) :=
  if distributed then batch_unshuffle_distributed rank world batch shuffle
  else
    let unshuffle := argsort_ints argsort shuffle in
    take_rows batch unshuffle.

(** ** Parameter groups *)

(** [s.endswith(suffix)] *)
Definition ends_with (suffix s : String.string) : bool :=
  let n := String.length s in
  let m := String.length suffix in
  (m <=? n) && String.eqb (String.substring (n - m) m s) suffix.

(** What the grouping looks at in a parameter: whether it is trained, and
    its shape.  [ident] tells parameters apart. *)
Record parameter : Type := MkParameter {
  ident : nat;
  requires_grad : bool;
  shape : list nat
}.

(** An entry of the list an optimizer takes: [{'params': ...}], with
    [weight_decay] when the entry sets it. *)
Record group : Type := Group {
  params : list parameter;
  weight_decay : option Q
}.

(** One turn of the loops of [get_params_groups]: a parameter that is not
    trained is skipped, a bias or a parameter of rank one is appended to
    [not_regularized], any other one to [regularized]. *)
Definition group_step (lists : list parameter * list parameter)
    (named : String.string * parameter) : list parameter * list parameter :=
  let '(regularized, not_regularized) := lists in
  let '(name, param) := named in
  if negb (requires_grad param) then lists
  else if ends_with ".bias"%string name || (length (shape param) =? 1)
  then (regularized, not_regularized ++ [param])
  else (regularized ++ [param], not_regularized).

(** [get_params_groups(net, head)], on the lists
    [net.named_parameters()] and [head.named_parameters()]. *)
Definition get_params_groups (net head : list (String.string * parameter))
    : list group :=
  let lists := foldl group_step ([], []) net in
  let '(regularized, not_regularized) := foldl group_step lists head in
  [Group regularized None; Group not_regularized (Some 0%Q)].

(** A parameter the weight decay is switched off for. *)
Definition unregularized (named : String.string * parameter) : bool :=
  ends_with ".bias"%string named.1 || (length (shape named.2) =? 1).

(** ** Pseudo labels *)

(** A dense tensor of any rank: its shape and its entries in row-major
    order. *)
Record dense (A : Type) : Type := Dense {
  sizes : list nat;
  entries : list A
}.

Arguments Dense {A} sizes entries.
Arguments sizes {A} d.
Arguments entries {A} d.

Definition numel (shape : list nat) : nat := foldr Nat.mul 1 shape.

(** The place in row-major order of the entry at [index] in a tensor of
    the given shape; none when the index is out of bounds or of another
    rank. *)
Fixpoint offset (shape index : list nat) (above : nat) : option nat :=
  match shape, index with
  | [], [] => Some above
  | s :: shape, i :: index =>
      if i <? s then offset shape index (above * s + i) else None
  | _, _ => None
  end.

(** [t[i0, i1, ...]] for an index within bounds. *)
Definition entry {A : Type} (t : dense A) (index : list nat) : option A :=
  o ← offset (sizes t) index 0; entries t !! o.

(** [torch.eye(n)]; a negative [n] raises. *)
Definition eye (n : Z) : result (dense Q) :=
  if (n <? 0)%Z then Err InvalidParameter
  else
    let n := Z.to_nat n in
    Ok (Dense [n; n] (i ← seq 0 n; j ← seq 0 n; [if i =? j then 1%Q else 0%Q])).

(** [t.repeat(k, 1)] for a tensor of rank two: [k] copies of [t], one
    below the other; a negative [k] raises. *)
Definition repeat_rows {A : Type} (k : Z) (t : dense A) : result (dense A) :=
  match sizes t with
  | [r; c] =>
      if (k <? 0)%Z then Err InvalidParameter
      else Ok (Dense [Z.to_nat k * r; c] (tile (Z.to_nat k) (entries t)))
  | _ => Err ShapeMismatch
  end.

(** The shape [reshape] gives a tensor of [n] entries for the requested
    [shape], in which one size may be [-1]: that size is inferred from the
    others, which must multiply to a divisor of [n] that is not 0. *)
Definition infer_size (shape : list Z) (n : nat) : result (list nat) :=
  if existsb (λ s, s <? -1)%Z shape then Err InvalidParameter
  else
    let known := numel (map Z.to_nat (filter (λ s, s ≠ (-1)%Z) shape)) in
    match length (filter (λ s, s = (-1)%Z) shape) with
    | 0 => if known =? n then Ok (map Z.to_nat shape) else Err ShapeMismatch
    | 1 =>
        if (0 <? known) && (n `mod` known =? 0) then
          Ok (map (λ s, if (s =? -1)%Z then n / known else Z.to_nat s) shape)
        else Err ShapeMismatch
    | _ => Err InvalidParameter
    end.

(** [t.reshape(shape)]: the entries keep their row-major order. *)
Definition reshape {A : Type} (shape : list Z) (t : dense A) : result (dense A) :=
  new_sizes ← infer_size shape (length (entries t));
  Ok (Dense new_sizes (entries t)).

(** [t.permute(2, 1, 0)] for a tensor of rank three: the entry at
    [(x, y, z)] is the one [t] has at [(z, y, x)]. *)
Definition permute_2_1_0 (t : dense Q) : result (dense Q) :=
  match sizes t with
  | [a; b; c] =>
      Ok (Dense [c; b; a]
            (x ← seq 0 c; y ← seq 0 b; z ← seq 0 a;
             [nth ((z * b + y) * c + x) (entries t) 0%Q]))
  | _ => Err ShapeMismatch
  end.

Definition generation_mask (topk batch : Z) : result (dense Q) :=
  mask_ ← eye batch;
  repeated ← repeat_rows topk mask_;
  stacked ← reshape [topk; batch; -1]%Z repeated;
  permuted ← permute_2_1_0 stacked;
  reshape [batch; topk * batch]%Z permuted.

(** ** CutMix boxes *)

(** [np.clip(x, low, high)] *)
Definition clip (x low high : Z) : Z := Z.min (Z.max x low) high.

(** What [np.random.randint(high)] may return. *)
Definition randint_draw (high x : Z) : Prop := (0 ≤ x < high)%Z.

(** [rand_bbox(size, lam)]; [cx] and [cy] are the two draws of
    [np.random.randint], which raises when its bound is not positive.
    [sqrt] stands for [np.sqrt], which gives the number [nan] for a
    negative argument; [np.int], the built-in [int], refuses it. *)
Definition rand_bbox (sqrt : Q → Q) (size : list Z) (lam : Q) (cx cy : Z)
    : result (Z * Z * Z * Z) :=
  W ← row_at size 2;
  H ← row_at size 3;
  if Qlt_le_dec 1 lam then Err InvalidParameter
  else
    let cut_rat := sqrt (1 - lam)%Q in
    let cut_w := py_int (inject_Z W * cut_rat) in
    let cut_h := py_int (inject_Z H * cut_rat) in
    if (W <=? 0)%Z || (H <=? 0)%Z then Err InvalidParameter
    else
      let bbx1 := clip (cx - cut_w `div` 2) 0 W in
      let bby1 := clip (cy - cut_h `div` 2) 0 H in
      let bbx2 := clip (cx + cut_w `div` 2) 0 W in
      let bby2 := clip (cy + cut_h `div` 2) 0 H in
      Ok (bbx1, bby1, bbx2, bby2).

(** A square root to run [rand_bbox] with: the root of [x] rounded down to
    a multiple of [2 ^ -26]. *)
Definition binary_sqrt (x : Q) : Q :=
  (Z.sqrt (Qnum x * Zpos (Qden x) * 2 ^ 52) # (Qden x * 2 ^ 26))%Q.

(** ** Schedules *)

(** [np.linspace(start, stop, num)]: [num] values at equal distances, the
    first [start], and for [num > 1] the last [stop]; a negative [num]
    raises. *)
Definition linspace (start stop : Q) (num : Z) : result (list Q) :=
  if (num <? 0)%Z then Err InvalidParameter
  else
    let div := (num - 1)%Z in
    let delta := (stop - start)%Q in
    let step := (delta / inject_Z div)%Q in
    let y := map (λ i, (inject_Z (Z.of_nat i)
                          * (if (0 <? div)%Z then step else delta) + start)%Q)
                 (seq 0 (Z.to_nat num)) in
    Ok (if (1 <? num)%Z then <[Z.to_nat div := stop]> y else y).

(** [np.arange(n)] *)
Definition arange (n : Z) : list Z := map Z.of_nat (seq 0 (Z.to_nat n)).

(** [cosine_scheduler]; [cos] and [pi] stand for [np.cos] and [np.pi].  The
    assertion that fails is reported as [InvalidParameter]. *)
Definition cosine_scheduler (cos : Q → Q) (pi : Q) (base_value final_value : Q)
    (epochs niter_per_ep warmup_epochs : Z) (start_warmup_value : Q)
    : result (list Q) :=
  let warmup_iters := (warmup_epochs * niter_per_ep)%Z in
  warmup_schedule ←
    (if (0 <? warmup_epochs)%Z
     then linspace start_warmup_value base_value warmup_iters
     else Ok []);
  let iters := arange (epochs * niter_per_ep - warmup_iters) in
  let schedule :=
    map (λ i, (final_value + (1 # 2) * (base_value - final_value)
                 * (1 + cos (pi * inject_Z i
                             / inject_Z (Z.of_nat (length iters)))))%Q)
        iters in
  let schedule := warmup_schedule ++ schedule in
  if (Z.of_nat (length schedule) =? epochs * niter_per_ep)%Z then Ok schedule
  else Err InvalidParameter.

(** A cosine to run [cosine_scheduler] with: the Taylor polynomial of
    degree six, cut off at [-1] and [1]. *)
Definition taylor_cos (x : Q) : Q :=
  let x2 := (x * x)%Q in
  Qmax (-1) (Qmin 1 (1 - x2 / 2 + x2 * x2 / 24 - x2 * x2 * x2 / 720))%Q.

(** ** Patches *)

(** [torch.einsum("nchpwq->nhwpqc", t)]: the entry at [(n, h, w, p, q, c)]
    is the one [t] has at [(n, c, h, p, w, q)]. *)
Definition einsum_nchpwq_nhwpqc (t : dense Q) : result (dense Q) :=
  match sizes t with
  | [sn; sc; sh; sp; sw; sq] =>
      Ok (Dense [sn; sh; sw; sp; sq; sc]
            (n ← seq 0 sn; h ← seq 0 sh; w ← seq 0 sw;
             p ← seq 0 sp; q ← seq 0 sq; c ← seq 0 sc;
             [nth (((((n * sc + c) * sh + h) * sp + p) * sw + w) * sq + q)
                  (entries t) 0%Q]))
  | _ => Err ShapeMismatch
  end.

(** [patchify(images, patch_size)]; a [patch_size] of 0 raises at the
    remainder, and the assertion that fails is reported as
    [InvalidParameter]. *)
Definition patchify (images : dense Q) (patch_size : Z) : result (dense Q) :=
  match sizes images with
  | [N; C; H; W] =>
      let N := Z.of_nat N in
      let C := Z.of_nat C in
      let H := Z.of_nat H in
      let W := Z.of_nat W in
      if (patch_size =? 0)%Z then Err InvalidParameter
      else if negb ((H =? W)%Z && (H `mod` patch_size =? 0)%Z)
      then Err InvalidParameter
      else
        let patch_h := (H `div` patch_size)%Z in
        let patch_w := patch_h in
        let num_patches := (patch_h * patch_w)%Z in
        patches ←
          reshape [N; C; patch_h; patch_size; patch_w; patch_size] images;
        patches ← einsum_nchpwq_nhwpqc patches;
        reshape [N; num_patches; patch_size ^ 2 * C]%Z patches
  | _ => Err ShapeMismatch
  end.

(** The shape of a tensor and the number of its entries agree. *)
Definition well_formed {A : Type} (t : dense A) : Prop :=
  length (entries t) = numel (sizes t).

(** One image of two channels and four by four pixels, numbered in
    row-major order. *)
Definition example_images : dense Q :=
  Dense [1; 2; 4; 4] (map (λ i, inject_Z (Z.of_nat i)) (seq 0 32)).

(** ** Multi-crop forward pass *)

(** A tensor as the list of its slices along the first dimension, with the
    sizes of the other dimensions. *)
Record batch (A : Type) : Type := Batch {
  inner : list nat;
  slices : list A
}.

Arguments Batch {A} inner slices.
Arguments inner {A} b.
Arguments slices {A} b.

(** [t.shape[-1]] *)
Definition last_dim {A : Type} (t : batch A) : nat :=
  default 0 (last (length (slices t) :: inner t)).

(** [torch.empty(0)], of shape [(0,)]. *)
Definition empty0 {A : Type} : batch A := Batch [] [].

Definition is_empty0 {A : Type} (t : batch A) : bool :=
  match inner t, slices t with
  | [], [] => true
  | _, _ => false
  end.

(** [torch.cat(ts)]: tensors of shape [(0,)] are passed over, the others
    must agree in every size but the first; no tensor at all raises. *)
Definition cat {A : Type} (ts : list (batch A)) : result (batch A) :=
  match ts with
  | [] => Err InvalidParameter
  | _ :: _ =>
      match filter (λ t, is_empty0 t = false) ts with
      | [] => Ok empty0
      | t :: rest =>
          if forallb (λ t', bool_decide (inner t' = inner t)) rest
          then Ok (Batch (inner t) (concat (map slices (t :: rest))))
          else Err ShapeMismatch
      end
  end.

(** [torch.unique_consecutive(l, return_counts=True)[1]]: the lengths of
    the runs of equal entries. *)
Fixpoint unique_consecutive_counts (l : list nat) : list nat :=
  match l with
  | [] => []
  | a :: l' =>
      match head l', unique_consecutive_counts l' with
      | Some b, n :: counts =>
          if a =? b then S n :: counts else 1 :: n :: counts
      | _, _ => [1]
      end
  end.

(** [torch.cumsum(l, 0)], on top of [above]. *)
Fixpoint cumsum (above : nat) (l : list nat) : list nat :=
  match l with
  | [] => []
  | n :: l' => (above + n) :: cumsum (above + n) l'
  end.

(** [l[i:j]] for [i] and [j] that are not negative. *)
Definition slice {A : Type} (l : list A) (i j : nat) : list A :=
  take (j - i) (drop i l).

(** A loop whose body may raise. *)
Fixpoint for_each {A St : Type} (body : St → A → result St) (st : St)
    (l : list A) : result St :=
  match l with
  | [] => Ok st
  | a :: l' => st' ← body st a; for_each body st' l'
  end.

(** What a backbone returns: a tensor, or a tuple of tensors. *)
Inductive forwarded (F : Type) : Type :=
| Tensor (t : batch F)
| Tuple (ts : list (batch F)).

Arguments Tensor {F} t.
Arguments Tuple {F} ts.

(** The argument [x] of [multicropwrapper]: a tensor, or a list of
    them. *)
Inductive crops (Im : Type) : Type :=
| One (t : batch Im)
| Several (l : list (batch Im)).

Arguments One {Im} t.
Arguments Several {Im} l.

(** The tensor a forward pass of the backbone is kept for. *)
Definition first_output {F : Type} (out : forwarded F) : result (batch F) :=
  match out with
  | Tensor t => Ok t
  | Tuple ts => row_at ts 0
  end.

(** The body of the loop of [multicropwrapper]. *)
Definition forward_crops {Im F : Type} (backbone : batch Im → forwarded F)
    (x : list (batch Im)) (state : nat * batch F) (end_idx : nat)
    : result (nat * batch F) :=
  let '(start_idx, output) := state in
  input ← cat (slice x start_idx end_idx);
  _out ← first_output (backbone input);
  output ← cat [output; _out];
  Ok (end_idx, output).

Definition multicropwrapper {Im F R : Type} (backbone : batch Im → forwarded F)
    (head : batch F → R) (x : crops Im) (prediction : option (R → R))
    : result R :=
  let x := match x with One t => [t] | Several l => l end in
  let idx_crops := cumsum 0 (unique_consecutive_counts (map last_dim x)) in
  _ ← row_at x 0;
  '(_, output) ← for_each (forward_crops backbone x) (0, empty0) idx_crops;
  match prediction with
  | Some prediction => Ok (prediction (head output))
  | None => Ok (head output)
  end.

(** The maximal runs of consecutive entries with the same key. *)
Fixpoint runs {A : Type} (key : A → nat) (l : list A) : list (list A) :=
  match l with
  | [] => []
  | a :: l' =>
      match head l', runs key l' with
      | Some b, g :: gs =>
          if key a =? key b then (a :: g) :: gs else [a] :: g :: gs
      | _, _ => [[a]]
      end
  end.

(** Two crops of three by two and one of three by one, with a backbone
    that gives every image four features. *)
Definition example_crops : list (batch nat) :=
  [Batch [3; 2] [1; 2]; Batch [3; 2] [3]; Batch [3; 1] [4; 5]].

Definition example_features (input : batch nat) : batch nat :=
  Batch [4] (slices input).

Definition example_backbone (input : batch nat) : forwarded nat :=
  Tuple [example_features input].

(** * Properties *)

(** ** The stable sort of positions *)

Lemma insert_by_perm keys i p : insert_by keys i p ≡ₚ i :: p.
Proof.
  induction p as [|j p IH]; simpl; [done|].
  destruct (Qle_bool _ _); [done|].
  rewrite IH. apply Permutation_swap.
Qed.

Lemma sort_from_perm keys a n :
  foldr (insert_by keys) [] (seq a n) ≡ₚ seq a n.
Proof.
  revert a. induction n as [|n IH]; intros a; simpl; [done|].
  rewrite insert_by_perm. by rewrite IH.
Qed.

Lemma stable_argsort_perm keys : stable_argsort keys ≡ₚ seq 0 (length keys).
Proof. apply sort_from_perm. Qed.

Lemma first_before_trans keys i j k :
  first_before keys i j → first_before keys j k → first_before keys i k.
Proof.
  intros [Hij Hlt1] [Hjk Hlt2]. split.
  - by eapply Qle_trans.
  - intros Hki.
    assert (i < j) by (apply Hlt1; by eapply Qle_trans).
    assert (j < k) by (apply Hlt2; by eapply Qle_trans).
    lia.
Qed.

Lemma insert_by_sorted keys i p :
  Forall (λ j, i < j) p →
  StronglySorted (first_before keys) p →
  StronglySorted (first_before keys) (insert_by keys i p).
Proof.
  intros Hlt Hs. induction Hs as [|j p Hs IH Hj]; simpl.
  - repeat constructor.
  - apply Forall_cons in Hlt as [Hij Hlt].
    destruct (Qle_bool _ _) eqn:Hle.
    + apply Qle_bool_iff in Hle.
      assert (first_before keys i j) by (split; [done | intros; done]).
      constructor; [by constructor|].
      constructor; [done|].
      eapply Forall_impl; [exact Hj|].
      intros k Hk. by eapply first_before_trans.
    + assert (¬ (key_at keys i <= key_at keys j)%Q) as Hn.
      { intros H. apply Qle_bool_iff in H. congruence. }
      apply Qnot_le_lt in Hn.
      constructor; [by apply IH|].
      rewrite insert_by_perm. constructor; [|done].
      split; [by apply Qlt_le_weak|].
      intros H. exfalso. by eapply Qlt_not_le.
Qed.

Lemma sort_from_sorted keys a n :
  StronglySorted (first_before keys) (foldr (insert_by keys) [] (seq a n)).
Proof.
  revert a. induction n as [|n IH]; intros a; simpl; [constructor|].
  apply insert_by_sorted; [|apply IH].
  rewrite sort_from_perm. apply Forall_forall. intros j Hj.
  apply elem_of_seq in Hj. lia.
Qed.

Lemma stable_argsort_sorted keys :
  StronglySorted (first_before keys) (stable_argsort keys).
Proof. apply sort_from_sorted. Qed.

Lemma StronglySorted_impl {A : Type} (R1 R2 : relation A) (l : list A) :
  (∀ x y, R1 x y → R2 x y) → StronglySorted R1 l → StronglySorted R2 l.
Proof.
  intros HR Hs. induction Hs as [|x l Hs IH Hx]; constructor; [done|].
  eapply Forall_impl; [exact Hx|]. intros y. apply HR.
Qed.

Lemma stable_argsort_contract : argsort_contract stable_argsort.
Proof.
  intros keys. split; [apply stable_argsort_perm|].
  eapply StronglySorted_impl; [|apply stable_argsort_sorted].
  by intros i j [H _].
Qed.

(** ** Slices and truncation *)

Lemma slice_bound_le len n : slice_bound len n ≤ len.
Proof. unfold slice_bound. destruct (n <? 0)%Z eqn:E; lia. Qed.

Lemma slice_bound_nonneg len n :
  (0 ≤ n ≤ Z.of_nat len)%Z → slice_bound len n = Z.to_nat n.
Proof.
  intros Hn. unfold slice_bound.
  destruct (n <? 0)%Z eqn:E; [lia|]. f_equal. lia.
Qed.

Lemma slice_to_from {A : Type} n (l : list A) : slice_to n l ++ slice_from n l = l.
Proof. apply take_drop. Qed.

Lemma length_slice_to {A : Type} n (l : list A) :
  length (slice_to n l) = slice_bound (length l) n.
Proof.
  unfold slice_to. rewrite length_take.
  pose proof (slice_bound_le (length l) n). lia.
Qed.

Lemma length_slice_from {A : Type} n (l : list A) :
  length (slice_from n l) = length l - slice_bound (length l) n.
Proof. unfold slice_from. by rewrite length_drop. Qed.

Lemma py_int_floor x : (0 <= x)%Q → py_int x = Qfloor x.
Proof.
  destruct x as [n d]. unfold Qle, py_int, Qfloor. simpl. intros Hn.
  apply Z.quot_div_nonneg; lia.
Qed.

Lemma kept_fraction_bounds (L : nat) r :
  (0 <= r)%Q → (r <= 1)%Q →
  (0 <= inject_Z (Z.of_nat L) * (1 - r))%Q ∧
  (inject_Z (Z.of_nat L) * (1 - r) <= inject_Z (Z.of_nat L))%Q.
Proof.
  intros H0 H1.
  assert (0 <= inject_Z (Z.of_nat L))%Q as HL.
  { change 0%Q with (inject_Z 0). rewrite <- Zle_Qle. lia. }
  generalize dependent (inject_Z (Z.of_nat L)). intros x Hx. split; nra.
Qed.

Lemma floor_kept_bounds (L : nat) r :
  (0 <= r)%Q → (r <= 1)%Q →
  (0 ≤ Qfloor (inject_Z (Z.of_nat L) * (1 - r)) ≤ Z.of_nat L)%Z.
Proof.
  intros H0 H1. destruct (kept_fraction_bounds L r H0 H1) as [Ha Hb]. split.
  - apply (Qfloor_resp_le 0) in Ha. exact Ha.
  - apply Qfloor_resp_le in Hb. by rewrite Qfloor_Z in Hb.
Qed.

(** ** [random_token_mask] *)

Lemma random_token_mask_eq argsort B L r mct noise :
  random_token_mask argsort (B, L) r mct noise =
  (columns_to (requested_keep L r mct)
     (torch_argsort argsort (sorted_noise L mct noise)),
   columns_from (requested_keep L r mct)
     (torch_argsort argsort (sorted_noise L mct noise))).
Proof.
  unfold random_token_mask, requested_keep, sorted_noise.
  by destruct (negb mct && (0 <? L)).
Qed.

Lemma sorted_noise_shape B L mct (noise : tensor2 Q) :
  has_shape2 noise B L → has_shape2 (sorted_noise L mct noise) B L.
Proof.
  intros (Hr & Hc & Hlen & Hrows). unfold sorted_noise.
  destruct (negb mct && (0 <? L)); [|done].
  repeat split; simpl; [done | done | by rewrite length_fmap |].
  apply Forall_fmap. eapply Forall_impl; [exact Hrows|].
  intros row Hrow. simpl. by rewrite length_insert.
Qed.

(** Row [b] of the two results is a row of sorted positions, cut at the
    requested bound. *)
Lemma random_token_mask_row argsort B L r mct noise b :
  argsort_contract argsort → has_shape2 noise B L → b < B →
  ∃ keys p,
    data2 (sorted_noise L mct noise) !! b = Some keys ∧
    length keys = L ∧ argsort_of keys p ∧
    data2 (random_token_mask argsort (B, L) r mct noise).1 !! b
      = Some (slice_to (requested_keep L r mct) (map Z.of_nat p)) ∧
    data2 (random_token_mask argsort (B, L) r mct noise).2 !! b
      = Some (slice_from (requested_keep L r mct) (map Z.of_nat p)).
Proof.
  intros Hsort Hshape Hb.
  apply (sorted_noise_shape B L mct) in Hshape as (_ & _ & Hlen & Hrows).
  destruct (lookup_lt_is_Some_2 (data2 (sorted_noise L mct noise)) b) as [keys Hkeys];
    [lia|].
  exists keys, (argsort keys). rewrite random_token_mask_eq. simpl.
  rewrite !list_lookup_fmap, Hkeys. simpl.
  repeat split; try done.
  - eapply Forall_lookup_1 in Hrows; [|exact Hkeys]. done.
  - apply Hsort.
  - apply Hsort.
Qed.

Lemma random_token_mask_shapes argsort B L r mct noise :
  argsort_contract argsort → has_shape2 noise B L →
  has_shape2 (random_token_mask argsort (B, L) r mct noise).1
             B (slice_bound L (requested_keep L r mct)) ∧
  has_shape2 (random_token_mask argsort (B, L) r mct noise).2
             B (L - slice_bound L (requested_keep L r mct)).
Proof.
  intros Hsort Hshape.
  pose proof (sorted_noise_shape B L mct noise Hshape) as (Hr & Hc & Hlen & Hrows).
  rewrite random_token_mask_eq. simpl.
  split; (repeat split; simpl; [done | by rewrite Hc | by rewrite !length_fmap |]).
  - rewrite <- list_fmap_compose. apply Forall_fmap.
    eapply Forall_impl; [exact Hrows|]. intros keys Hk. simpl.
    rewrite length_slice_to, length_fmap.
    destruct (Hsort keys) as [Hp _]. by rewrite Hp, length_seq, Hk.
  - rewrite <- list_fmap_compose. apply Forall_fmap.
    eapply Forall_impl; [exact Hrows|]. intros keys Hk. simpl.
    rewrite length_slice_from, length_fmap.
    destruct (Hsort keys) as [Hp _]. by rewrite Hp, length_seq, Hk.
Qed.

(** C1: for every shape [(B, L)] and every mask ratio, whatever the random
    draw and whichever way the sort orders equal keys, [index_keep] has the
    same number [num_keep] of columns in every row, [index_mask] has the
    other [L - num_keep], and in every batch row the two together hold each
    position of [[0, L)] exactly once: no position is in both and none is
    missing.  (The bounds [B >= 1], [L >= 1] and [0 <= mask_ratio <= 1]
    are not needed.) *)
Theorem random_token_mask_partition argsort (B L : nat) (mask_ratio : Q)
    (mask_class_token : bool) (noise : tensor2 Q) (index_keep index_mask : tensor2 Z) :
  argsort_contract argsort →
  has_shape2 noise B L →
  random_token_mask argsort (B, L) mask_ratio mask_class_token noise
    = (index_keep, index_mask) →
  ∃ num_keep,
    num_keep ≤ L ∧
    has_shape2 index_keep B num_keep ∧
    has_shape2 index_mask B (L - num_keep) ∧
    ∀ b, b < B →
      ∃ keep mask,
        data2 index_keep !! b = Some keep ∧
        data2 index_mask !! b = Some mask ∧
        keep ++ mask ≡ₚ map Z.of_nat (seq 0 L) ∧
        (∀ p, p ∈ keep → p ∉ mask).
Proof.
  intros Hsort Hshape Heq.
  exists (slice_bound L (requested_keep L mask_ratio mask_class_token)).
  pose proof (random_token_mask_shapes argsort B L mask_ratio mask_class_token
                noise Hsort Hshape) as [Hk Hm].
  rewrite Heq in Hk, Hm. simpl in Hk, Hm.
  split; [apply slice_bound_le|]. split; [done|]. split; [done|].
  intros b Hb.
  destruct (random_token_mask_row argsort B L mask_ratio mask_class_token noise b
              Hsort Hshape Hb) as (keys & p & _ & Hlen & [Hp _] & Hkeep & Hmask).
  rewrite Heq in Hkeep, Hmask. simpl in Hkeep, Hmask.
  eexists _, _. split; [exact Hkeep|]. split; [exact Hmask|].
  rewrite Hlen in Hp.
  assert (slice_to (requested_keep L mask_ratio mask_class_token) (map Z.of_nat p)
          ++ slice_from (requested_keep L mask_ratio mask_class_token) (map Z.of_nat p)
          ≡ₚ map Z.of_nat (seq 0 L)) as Hperm.
  { rewrite slice_to_from. by apply fmap_Permutation. }
  split; [exact Hperm|].
  assert (NoDup (map Z.of_nat (seq 0 L))) as Hnd.
  { apply NoDup_fmap; [apply _ | apply NoDup_seq]. }
  rewrite <- Hperm in Hnd. apply NoDup_app in Hnd as (_ & Hdisj & _).
  exact Hdisj.
Qed.

Lemma example_noise_draw : uniform_draw 2 4 example_noise.
Proof.
  split; [repeat (split || constructor)|].
  repeat constructor; unfold Qle, Qlt; simpl; lia.
Qed.

(** C1 on the example draw, half of the positions masked. *)
Lemma random_token_mask_partition_witness :
  ∃ num_keep,
    num_keep ≤ 4 ∧
    has_shape2 (T2 2 2 [[0; 3]; [0; 2]]%Z) 2 num_keep ∧
    has_shape2 (T2 2 2 [[2; 1]; [1; 3]]%Z) 2 (4 - num_keep) ∧
    ∀ b, b < 2 →
      ∃ keep mask,
        data2 (T2 2 2 [[0; 3]; [0; 2]]%Z) !! b = Some keep ∧
        data2 (T2 2 2 [[2; 1]; [1; 3]]%Z) !! b = Some mask ∧
        keep ++ mask ≡ₚ map Z.of_nat (seq 0 4) ∧
        (∀ p, p ∈ keep → p ∉ mask).
Proof.
  apply (random_token_mask_partition stable_argsort 2 4 (1 # 2) false example_noise
           (T2 2 2 [[0; 3]; [0; 2]]%Z) (T2 2 2 [[2; 1]; [1; 3]]%Z)
           stable_argsort_contract (proj1 example_noise_draw)).
  reflexivity.
Defined.


Lemma set_column0_row {A : Type} (v : A) (t : tensor2 A) b keys :
  data2 (set_column0 v t) !! b = Some keys →
  ∃ row, data2 t !! b = Some row ∧ keys = <[0 := v]> row.
Proof.
  simpl. rewrite list_lookup_fmap. destruct (data2 t !! b) as [row|]; [|done].
  simpl. intros [= <-]. by exists row.
Qed.

(** The first position of the sort is 0 once its key lies below all the
    others. *)
Lemma argsort_protected_first row p :
  row ≠ [] → Forall (λ x, (0 <= x)%Q) row →
  argsort_of (<[0 := (-1)%Q]> row) p →
  ∃ p', p = 0 :: p'.
Proof.
  intros Hne Hpos [Hperm Hs]. rewrite length_insert in Hperm.
  destruct row as [|x0 row]; [done|]. simpl in *.
  destruct p as [|i p'].
  { apply Permutation_nil_l in Hperm. done. }
  exists p'. f_equal.
  destruct (decide (i = 0)) as [|Hi]; [done|]. exfalso.
  assert (i ∈ 0 :: seq 1 (length row)) as Hin by (rewrite <- Hperm; left).
  assert (0 ∈ i :: p') as H0 by (rewrite Hperm; left).
  apply elem_of_cons in H0 as [?|H0]; [lia|].
  apply StronglySorted_inv in Hs as [_ Hall].
  rewrite Forall_forall in Hall. specialize (Hall 0 H0).
  unfold ascending, key_at in Hall. simpl in Hall.
  destruct i as [|i]; [done|]. simpl in Hall.
  apply elem_of_cons in Hin as [?|Hin]; [lia|].
  apply elem_of_seq in Hin.
  apply Forall_cons in Hpos as [_ Hpos].
  assert (0 <= nth i row 0)%Q as Hge.
  { destruct (nth_in_or_default i row 0%Q) as [Hnth | ->]; [|lra].
    rewrite Forall_forall in Hpos. apply Hpos. by apply list_elem_of_In. }
  lra.
Qed.

(** C4: when [mask_class_token] is [False] and the sequence is not empty,
    position 0 is in [index_keep] in every batch row, for every mask ratio
    ([1.0] included), whatever the random draw. *)
Theorem class_token_always_kept argsort (B L : nat) (mask_ratio : Q)
    (noise : tensor2 Q) (index_keep index_mask : tensor2 Z) :
  argsort_contract argsort →
  1 ≤ L →
  uniform_draw B L noise →
  random_token_mask argsort (B, L) mask_ratio false noise
    = (index_keep, index_mask) →
  ∀ b, b < B →
    ∃ keep, data2 index_keep !! b = Some keep ∧ 0%Z ∈ keep.
Proof.
  intros Hsort HL [Hshape Hrange] Heq b Hb.
  destruct (random_token_mask_row argsort B L mask_ratio false noise b
              Hsort Hshape Hb) as (keys & p & Hkeys & Hlen & Hp & Hkeep & _).
  rewrite Heq in Hkeep. simpl in Hkeep.
  eexists. split; [exact Hkeep|].
  unfold sorted_noise in Hkeys. simpl in Hkeys.
  destruct (Nat.ltb_spec 0 L) as [_|]; [|lia].
  apply set_column0_row in Hkeys as (row & Hrow & ->).
  rewrite length_insert in Hlen.
  destruct (argsort_protected_first row p) as [p' ->]; [| |done|].
  { intros ->. simpl in Hlen. lia. }
  { eapply Forall_lookup_1 in Hrange; [|exact Hrow].
    eapply Forall_impl; [exact Hrange|]. by intros x [? _]. }
  unfold slice_to, slice_bound, requested_keep. simpl.
  destruct (Nat.ltb_spec 0 L) as [_|]; [|lia].
  destruct (Z.ltb_spec (Z.max 1 (py_int (inject_Z (Z.of_nat L) * (1 - mask_ratio)))) 0);
    [lia|].
  destruct (Z.to_nat _) as [|n] eqn:Hn; [lia|]. simpl. left.
Qed.

(** C4 on the example draw with everything but the class token masked. *)
Lemma class_token_always_kept_witness :
  uniform_draw 2 4 example_noise ∧
  ∀ b, b < 2 →
    ∃ keep, data2 (T2 2 1 [[0]; [0]]%Z) !! b = Some keep ∧ 0%Z ∈ keep.
Proof.
  split; [exact example_noise_draw|].
  apply (class_token_always_kept stable_argsort 2 4 1 example_noise
           (T2 2 1 [[0]; [0]]%Z) (T2 2 3 [[3; 2; 1]; [2; 1; 3]]%Z)
           stable_argsort_contract ltac:(lia) example_noise_draw).
  reflexivity.
Defined.

Lemma requested_keep_floor (L : nat) r mct :
  1 ≤ L → (0 <= r)%Q → (r <= 1)%Q →
  requested_keep L r mct =
    (if mct then Qfloor (inject_Z (Z.of_nat L) * (1 - r))
     else Z.max 1 (Qfloor (inject_Z (Z.of_nat L) * (1 - r)))) ∧
  (0 ≤ requested_keep L r mct ≤ Z.of_nat L)%Z.
Proof.
  intros HL H0 H1. unfold requested_keep.
  destruct (kept_fraction_bounds L r H0 H1) as [Hq _].
  pose proof (floor_kept_bounds L r H0 H1) as Hf.
  rewrite (py_int_floor _ Hq).
  destruct (Nat.ltb_spec 0 L) as [_|]; [|lia].
  destruct mct; cbn [negb andb]; split; (done || lia).
Qed.




Lemma requested_keep_all_masked (L : nat) r :
  (r == 1)%Q → requested_keep L r true = 0%Z.
Proof.
  intros Hr. unfold requested_keep. simpl.
  assert (inject_Z (Z.of_nat L) * (1 - r) == 0)%Q as Hq by (rewrite Hr; ring).
  destruct (inject_Z (Z.of_nat L) * (1 - r))%Q as [n d].
  unfold Qeq in Hq. simpl in Hq. unfold py_int. simpl.
  assert (n = 0%Z) as -> by lia. done.
Qed.

(** C10: with [mask_class_token=True] and [mask_ratio=1.0] nothing is
    kept: the requested number of kept positions is 0 and is not clamped,
    [index_keep] has shape [(B, 0)], and every row of [index_mask] holds
    all [L] positions, position 0 among them. *)
Theorem mask_all_with_class_token argsort (B L : nat) (mask_ratio : Q)
    (noise : tensor2 Q) (index_keep index_mask : tensor2 Z) :
  argsort_contract argsort →
  1 ≤ B → 1 ≤ L → (mask_ratio == 1)%Q →
  has_shape2 noise B L →
  random_token_mask argsort (B, L) mask_ratio true noise
    = (index_keep, index_mask) →
  requested_keep L mask_ratio true = 0%Z ∧
  has_shape2 index_keep B 0 ∧
  has_shape2 index_mask B L ∧
  ∀ b, b < B →
    data2 index_keep !! b = Some [] ∧
    ∃ mask, data2 index_mask !! b = Some mask ∧
            mask ≡ₚ map Z.of_nat (seq 0 L) ∧ 0%Z ∈ mask.
Proof.
  intros Hsort HB HL Hr Hshape Heq.
  pose proof (requested_keep_all_masked L mask_ratio Hr) as Hk.
  pose proof (random_token_mask_shapes argsort B L mask_ratio true
                noise Hsort Hshape) as [Hkeep Hmask].
  rewrite Heq, Hk in Hkeep, Hmask. simpl in Hkeep, Hmask.
  assert (∀ len, slice_bound len 0 = 0) as Hz by (intros; unfold slice_bound; simpl; lia).
  rewrite Hz in Hkeep, Hmask. rewrite Nat.sub_0_r in Hmask.
  split; [done|]. split; [done|]. split; [done|].
  intros b Hb.
  destruct (random_token_mask_row argsort B L mask_ratio true noise b
              Hsort Hshape Hb) as (keys & p & _ & Hlen & [Hp _] & Hkb & Hmb).
  rewrite Heq, Hk in Hkb, Hmb. simpl in Hkb, Hmb.
  unfold slice_to in Hkb. rewrite Hz in Hkb.
  split; [done|]. eexists. split; [exact Hmb|].
  rewrite Hlen in Hp.
  assert (slice_from 0 (map Z.of_nat p) ≡ₚ map Z.of_nat (seq 0 L)) as Hperm.
  { unfold slice_from. rewrite Hz. simpl.
    by apply fmap_Permutation. }
  split; [exact Hperm|].
  rewrite Hperm. destruct L as [|L]; [lia|]. simpl. left.
Qed.

(** C10 on the example draw. *)
Lemma mask_all_with_class_token_witness :
  requested_keep 4 1 true = 0%Z ∧
  has_shape2 (T2 2 0 [[]; []] : tensor2 Z) 2 0 ∧
  has_shape2 (T2 2 4 [[3; 2; 1; 0]; [2; 0; 1; 3]]%Z) 2 4 ∧
  ∀ b, b < 2 →
    data2 (T2 2 0 [[]; []] : tensor2 Z) !! b = Some [] ∧
    ∃ mask, data2 (T2 2 4 [[3; 2; 1; 0]; [2; 0; 1; 3]]%Z) !! b = Some mask ∧
            mask ≡ₚ map Z.of_nat (seq 0 4) ∧ 0%Z ∈ mask.
Proof.
  apply (mask_all_with_class_token stable_argsort 2 4 1 example_noise
           (T2 2 0 [[]; []]) (T2 2 4 [[3; 2; 1; 0]; [2; 0; 1; 3]]%Z)
           stable_argsort_contract ltac:(lia) ltac:(lia) ltac:(reflexivity)
           (proj1 example_noise_draw)).
  reflexivity.
Defined.

(** ** The error monad *)

Lemma bind_Ok {A B : Type} (a : A) (k : A → result B) : (Ok a ≫= k) = k a.
Proof. done. Qed.

Lemma bind_Err {A B : Type} (e : error) (k : A → result B) : (Err e ≫= k) = Err e.
Proof. done. Qed.

Lemma traverse_fmap_Ok {A B C : Type} (f : B → result C) (g : A → B) (h : A → C)
    (l : list A) :
  Forall (λ a, f (g a) = Ok (h a)) l → traverse f (map g l) = Ok (map h l).
Proof.
  induction 1 as [|a l Ha _ IH]; csimpl; [done|].
  by rewrite Ha, bind_Ok, IH.
Qed.

(** ** Ranges *)

Lemma in_range_true len i : in_range len i = true ↔ (0 ≤ i < Z.of_nat len)%Z.
Proof. unfold in_range. rewrite andb_true_iff, Z.leb_le, Z.ltb_lt. done. Qed.

Lemma in_range_false len i :
  in_range len i = false ↔ (i < 0 ∨ Z.of_nat len ≤ i)%Z.
Proof.
  rewrite <- not_true_iff_false, in_range_true. lia.
Qed.

Lemma row_in_or_out len (row : list Z) :
  Forall (λ i, (0 ≤ i < Z.of_nat len)%Z) row ∨
  Exists (λ i, (i < 0 ∨ Z.of_nat len ≤ i)%Z) row.
Proof.
  induction row as [|i row [IH|IH]].
  - left. constructor.
  - destruct (in_range len i) eqn:Hi.
    + left. constructor; [by apply in_range_true | done].
    + right. left. by apply in_range_false.
  - right. by right.
Qed.

Lemma rows_in_or_out len (rows : list (list Z)) :
  Forall (Forall (λ i, (0 ≤ i < Z.of_nat len)%Z)) rows ∨
  Exists (Exists (λ i, (i < 0 ∨ Z.of_nat len ≤ i)%Z)) rows.
Proof.
  induction rows as [|row rows [IH|IH]].
  - left. constructor.
  - destruct (row_in_or_out len row) as [H|H].
    + left. by constructor.
    + right. by left.
  - right. by right.
Qed.

Lemma entry_out_of_range_Exists len index :
  entry_out_of_range len index ↔
  Exists (Exists (λ i, (i < 0 ∨ Z.of_nat len ≤ i)%Z)) (data2 index).
Proof.
  unfold entry_out_of_range, at2. split.
  - intros (b & k & i & Hi & Hout).
    destruct (data2 index !! b) as [row|] eqn:Hrow; [|done]. simpl in Hi.
    apply Exists_exists. exists row. split; [by eapply list_elem_of_lookup_2|].
    apply Exists_exists. exists i. split; [by eapply list_elem_of_lookup_2|done].
  - intros H. apply Exists_exists in H as (row & Hrow & H).
    apply Exists_exists in H as (i & Hi & Hout).
    apply list_elem_of_lookup in Hrow as [b Hb].
    apply list_elem_of_lookup in Hi as [k Hk].
    exists b, k, i. by rewrite Hb.
Qed.

Lemma all_in_range_not_out len index :
  all_in_range len index → ¬ entry_out_of_range len index.
Proof.
  intros Hall (b & k & i & Hi & Hout). unfold at2 in Hi.
  destruct (data2 index !! b) as [row|] eqn:Hrow; [|done]. simpl in Hi.
  eapply Forall_lookup_1 in Hall; [|exact Hrow].
  eapply Forall_lookup_1 in Hall; [|exact Hi]. lia.
Qed.

Lemma in_or_out_of_range len index :
  all_in_range len index ∨ entry_out_of_range len index.
Proof.
  rewrite entry_out_of_range_Exists. apply rows_in_or_out.
Qed.

(** ** [expand_index_like] *)

Lemma expand_unsqueeze {A : Type} dim (t : tensor2 A) :
  expand_last dim (unsqueeze_last t)
  = Ok (T3 (nrows t) (ncols t) dim (map (map (replicate dim)) (data2 t))).
Proof.
  unfold expand_last, unsqueeze_last. simpl.
  rewrite (traverse_fmap_Ok _ _ (map (replicate dim))); [done|].
  apply Forall_forall. intros row _.
  apply traverse_fmap_Ok. by apply Forall_forall.
Qed.

Lemma expand_index_like_Ok {A : Type} (index : tensor2 Z) (tokens : tensor3 A) :
  expand_index_like index tokens =
  Ok (T3 (nrows index) (ncols index) (dimD tokens)
         (map (map (replicate (dimD tokens))) (data2 index))).
Proof. apply expand_unsqueeze. Qed.

(** ** [gather] along an expanded index *)

Lemma gather_vec_replicate {A : Type} len (rows : list (list A)) i v n d :
  in_range len i = true → rows !! Z.to_nat i = Some v → d + n ≤ length v →
  gather_vec len rows d (replicate n i) = Ok (take n (drop d v)).
Proof.
  intros Hi Hv. revert d. induction n as [|n IH]; intros d Hd; simpl; [done|].
  rewrite Hi, Hv. simpl.
  destruct (lookup_lt_is_Some_2 v d) as [x Hx]; [lia|].
  rewrite Hx, bind_Ok, IH, bind_Ok by lia.
  by rewrite (drop_S _ _ _ Hx).
Qed.

Lemma gather_vec_out_of_range {A : Type} len (rows : list (list A)) i n d :
  in_range len i = false →
  gather_vec len rows d (replicate (S n) i) = Err IndexOutOfRange.
Proof. intros Hi. simpl. by rewrite Hi. Qed.

Lemma gather_row_Ok {A : Type} L D (rows : list (list A)) (idx : list Z) :
  shaped2 L D rows →
  Forall (λ i, (0 ≤ i < Z.of_nat L)%Z) idx →
  traverse (gather_vec L rows 0) (map (replicate D) idx) = Ok (select_rows rows idx).
Proof.
  intros [Hlen Hrows] Hidx. apply traverse_fmap_Ok.
  eapply Forall_impl; [exact Hidx|]. intros i Hi. simpl in *.
  destruct (lookup_lt_is_Some_2 rows (Z.to_nat i)) as [v Hv]; [lia|].
  rewrite Hv. simpl.
  assert (length v = D) as Hl by (by eapply Forall_lookup_1 in Hrows).
  rewrite (gather_vec_replicate L rows i v D 0); [| by apply in_range_true | done | lia].
  by rewrite drop_0, <- Hl, firstn_all.
Qed.

Lemma gather_row_empty {A : Type} L (rows : list (list A)) (idx : list Z) :
  traverse (gather_vec L rows 0) (map (replicate 0) idx) = Ok (map (λ _, []) idx).
Proof. apply traverse_fmap_Ok. by apply Forall_forall. Qed.

Lemma traverse_cons {A B : Type} (f : A → result B) a l :
  traverse f (a :: l) = (b ← f a; bs ← traverse f l; Ok (b :: bs)).
Proof. done. Qed.

Lemma gather_row_out_of_range {A : Type} L D (rows : list (list A)) (idx : list Z) :
  shaped2 L D rows → 1 ≤ D →
  Exists (λ i, (i < 0 ∨ Z.of_nat L ≤ i)%Z) idx →
  traverse (gather_vec L rows 0) (map (replicate D) idx) = Err IndexOutOfRange.
Proof.
  intros [Hlen Hrows] HD.
  induction idx as [|i idx IH]; intros Hex; [by apply Exists_nil in Hex|].
  rewrite fmap_cons, traverse_cons. destruct (in_range L i) eqn:Hi.
  - apply Exists_cons in Hex as [Hex|Hex].
    { apply in_range_false in Hex. congruence. }
    apply in_range_true in Hi as Hi'.
    destruct (lookup_lt_is_Some_2 rows (Z.to_nat i)) as [v Hv]; [lia|].
    assert (length v = D) as Hl by (by eapply Forall_lookup_1 in Hrows).
    rewrite (gather_vec_replicate L rows i v D 0), bind_Ok by (done || lia).
    by rewrite (IH Hex).
  - destruct D as [|D]; [lia|]. by rewrite gather_vec_out_of_range.
Qed.

Lemma traverse2_fmap_Ok {A B B' C : Type} (f : A → B' → result C) (g : B → B')
    (h : A → B → C) (l1 : list A) (l2 : list B) :
  Forall2 (λ a b, f a (g b) = Ok (h a b)) l1 l2 →
  traverse2 f l1 (map g l2) = Ok (zip_with h l1 l2).
Proof.
  induction 1 as [|a b l1 l2 Hab _ IH]; csimpl; [done|].
  by rewrite Hab, bind_Ok, IH.
Qed.

Lemma traverse2_cons {A B C : Type} (f : A → B → result C) a b l1 l2 :
  traverse2 f (a :: l1) (b :: l2) =
  (c ← f a b; cs ← traverse2 f l1 l2; Ok (c :: cs)).
Proof. done. Qed.

Lemma Forall2_of_Forall {A B : Type} (P : A → Prop) (Q : B → Prop)
    (l1 : list A) (l2 : list B) :
  length l1 = length l2 → Forall P l1 → Forall Q l2 →
  Forall2 (λ a b, P a ∧ Q b) l1 l2.
Proof.
  intros Hlen H1 H2. apply Forall2_same_length_lookup_2; [done|].
  intros i a b Ha Hb. split.
  - by eapply Forall_lookup_1 in H1.
  - by eapply Forall_lookup_1 in H2.
Qed.

Lemma gather_batches_Ok {A : Type} L D (toks : list (list (list A)))
    (idxs : list (list Z)) :
  length toks = length idxs → Forall (shaped2 L D) toks →
  Forall (Forall (λ i, (0 ≤ i < Z.of_nat L)%Z)) idxs →
  traverse2 (λ rows idx, traverse (gather_vec L rows 0) idx) toks
            (map (map (replicate D)) idxs)
  = Ok (zip_with select_rows toks idxs).
Proof.
  intros Hlen Htoks Hidx. apply traverse2_fmap_Ok.
  eapply Forall2_impl; [by apply Forall2_of_Forall|].
  intros rows idx [Hr Hi]. by apply gather_row_Ok.
Qed.

Lemma gather_batches_empty {A : Type} L (toks : list (list (list A)))
    (idxs : list (list Z)) :
  length toks = length idxs →
  traverse2 (λ rows idx, traverse (gather_vec L rows 0) idx) toks
            (map (map (replicate 0)) idxs)
  = Ok (zip_with (λ _ idx, map (λ _, []) idx) toks idxs).
Proof.
  intros Hlen. apply traverse2_fmap_Ok.
  apply Forall2_same_length_lookup_2; [done|].
  intros i rows idx _ _. apply gather_row_empty.
Qed.

Lemma gather_batches_out_of_range {A : Type} L D (toks : list (list (list A)))
    (idxs : list (list Z)) :
  length toks = length idxs → Forall (shaped2 L D) toks → 1 ≤ D →
  Exists (Exists (λ i, (i < 0 ∨ Z.of_nat L ≤ i)%Z)) idxs →
  traverse2 (λ rows idx, traverse (gather_vec L rows 0) idx) toks
            (map (map (replicate D)) idxs)
  = Err IndexOutOfRange.
Proof.
  intros Hlen Htoks HD. revert toks Hlen Htoks.
  induction idxs as [|idx idxs IH]; intros toks Hlen Htoks Hex;
    [by apply Exists_nil in Hex|].
  destruct toks as [|rows toks]; [done|].
  apply Forall_cons in Htoks as [Hrows Htoks].
  rewrite fmap_cons, traverse2_cons.
  destruct (row_in_or_out L idx) as [Hin|Hout].
  - rewrite (gather_row_Ok L D rows idx Hrows Hin), bind_Ok.
    apply Exists_cons in Hex as [Hex|Hex].
    { exfalso. apply Exists_exists in Hex as (i & Hi & Ho).
      rewrite Forall_forall in Hin. specialize (Hin i Hi). lia. }
    rewrite IH; [done | | done | done]. simpl in Hlen. lia.
  - by rewrite (gather_row_out_of_range L D rows idx Hrows HD Hout).
Qed.

Lemma select_rows_shape {A : Type} L D (rows : list (list A)) (idx : list Z) :
  shaped2 L D rows → Forall (λ i, (0 ≤ i < Z.of_nat L)%Z) idx →
  shaped2 (length idx) D (select_rows rows idx).
Proof.
  intros [Hlen Hrows] Hidx. split; [by unfold select_rows; rewrite length_fmap|].
  apply Forall_fmap. eapply Forall_impl; [exact Hidx|]. intros i Hi. simpl in *.
  destruct (lookup_lt_is_Some_2 rows (Z.to_nat i)) as [v Hv]; [lia|].
  rewrite Hv. simpl. by eapply Forall_lookup_1 in Hrows.
Qed.

Lemma gather_expanded {A : Type} (tokens : tensor3 A) (idx : list (list Z))
    B L D K :
  has_shape3 tokens B L D → length idx = B →
  Forall (Forall (λ i, (0 ≤ i < Z.of_nat L)%Z)) idx →
  gather tokens (T3 B K D (map (map (replicate D)) idx))
  = Ok (T3 B K D (zip_with select_rows (data3 tokens) idx)).
Proof.
  intros (HB & HL & HD & Hlen & Hrows) Hilen Hin.
  unfold gather. simpl. rewrite HB, HL, HD, !Nat.leb_refl. simpl.
  rewrite (gather_batches_Ok L D), bind_Ok; (done || lia).
Qed.

Lemma selected_shape {A : Type} (tokens : tensor3 A) (idx : list (list Z))
    B L D K :
  has_shape3 tokens B L D → shaped2 B K idx →
  Forall (Forall (λ i, (0 ≤ i < Z.of_nat L)%Z)) idx →
  has_shape3 (T3 B K D (zip_with select_rows (data3 tokens) idx)) B K D.
Proof.
  intros (HB & HL & HD & Hlen & Hrows) [Hilen Hirows] Hin.
  repeat split; simpl; try done.
  - rewrite length_zip_with. lia.
  - apply Forall_forall. intros x Hx.
    apply elem_of_lookup_zip_with in Hx as (b & rows & row & -> & Hr & Hi).
    eapply Forall_lookup_1 in Hrows; [|exact Hr].
    eapply Forall_lookup_1 in Hirows; [|exact Hi].
    eapply Forall_lookup_1 in Hin; [|exact Hi].
    rewrite <- Hirows. by eapply select_rows_shape.
Qed.

Lemma get_at_index_in_range {A : Type} (tokens : tensor3 A) (index : tensor2 Z)
    B L D K :
  has_shape3 tokens B L D → has_shape2 index B K → all_in_range L index →
  get_at_index tokens index
  = Ok (T3 B K D (zip_with select_rows (data3 tokens) (data2 index))).
Proof.
  intros Htok (Hn & Hc & Hilen & Hirows) Hin.
  pose proof Htok as (_ & _ & HD & _).
  unfold get_at_index. rewrite expand_index_like_Ok, bind_Ok, Hn, Hc, HD.
  by apply (gather_expanded tokens _ B L D K).
Qed.

Lemma get_at_index_empty_feature {A : Type} (tokens : tensor3 A)
    (index : tensor2 Z) B L K :
  has_shape3 tokens B L 0 → has_shape2 index B K →
  get_at_index tokens index
  = Ok (T3 B K 0 (zip_with (λ _ idx, map (λ _, []) idx) (data3 tokens) (data2 index))).
Proof.
  intros (HB & HL & HD & Hlen & Hrows) (Hn & Hc & Hilen & Hirows).
  unfold get_at_index. rewrite expand_index_like_Ok, bind_Ok.
  unfold gather. simpl. rewrite HB, HL, HD, Hn, Hc.
  rewrite !Nat.leb_refl. simpl.
  rewrite (gather_batches_empty L), bind_Ok; (done || lia).
Qed.

Lemma get_at_index_out_of_range {A : Type} (tokens : tensor3 A)
    (index : tensor2 Z) B L D K :
  has_shape3 tokens B L D → has_shape2 index B K → 1 ≤ D →
  entry_out_of_range L index →
  get_at_index tokens index = Err IndexOutOfRange.
Proof.
  intros (HB & HL & HD & Hlen & Hrows) (Hn & Hc & Hilen & Hirows) H1 Hout.
  apply entry_out_of_range_Exists in Hout.
  unfold get_at_index. rewrite expand_index_like_Ok, bind_Ok.
  unfold gather. simpl. rewrite HB, HL, HD, Hn, Hc.
  rewrite !Nat.leb_refl. simpl.
  rewrite (gather_batches_out_of_range L D); (done || lia).
Qed.

Lemma selected_row {A : Type} (toks : list (list (list A))) (idxs : list (list Z))
    b k i rows v :
  toks !! b = Some rows → idxs !! b ≫= (.!! k) = Some i →
  rows !! Z.to_nat i = Some v →
  zip_with select_rows toks idxs !! b ≫= (.!! k) = Some v.
Proof.
  intros Hrows Hi Hv. rewrite lookup_zip_with, Hrows. simpl.
  destruct (idxs !! b) as [idx|]; [|done]. simpl in *.
  unfold select_rows. by rewrite list_lookup_fmap, Hi; simpl; rewrite Hv.
Qed.




(** ** [scatter] along an expanded index *)

Lemma write_at_lookup {A : Type} (rows : list (list A)) p d x v :
  rows !! p = Some v → write_at p d x rows = <[p := <[d := x]> v]> rows.
Proof.
  unfold write_at. revert p. induction rows as [|r rows IH]; intros [|p]; simpl; try done.
  - by intros [= ->].
  - intros Hv. f_equal. by apply IH.
Qed.

(** Writing the slots of one expanded index entry replaces a whole row. *)
Lemma scatter_vec_replicate {A : Type} len i n :
  ∀ d (vals : list A) rows v,
    in_range len i = true → rows !! Z.to_nat i = Some v →
    length vals = n → d + n = length v →
    scatter_vec len d (replicate n i) vals rows
    = Ok (<[Z.to_nat i := take d v ++ vals]> rows).
Proof.
  induction n as [|n IH]; intros d vals rows v Hi Hv Hlen Hd.
  - destruct vals; [|done]. simpl.
    rewrite app_nil_r, Nat.add_0_r in *. subst d.
    by rewrite firstn_all, list_insert_id.
  - destruct vals as [|x vals]; [done|]. simpl. rewrite Hi.
    rewrite (write_at_lookup rows _ d x v Hv).
    rewrite (IH (S d) vals _ (<[d := x]> v)); try done.
    + rewrite list_insert_insert_eq. do 2 f_equal.
      rewrite (take_S_r _ _ x).
      * rewrite take_insert_ge by lia. by rewrite <- app_assoc.
      * apply list_lookup_insert_eq. lia.
    + apply list_lookup_insert_eq. by eapply lookup_lt_Some.
    + simpl in Hlen. lia.
    + rewrite length_insert. lia.
Qed.

Lemma scatter_row {A : Type} L D (rows : list (list A)) i (vals : list A) :
  shaped2 L D rows → (0 ≤ i < Z.of_nat L)%Z → length vals = D →
  scatter_vec L 0 (replicate D i) vals rows = Ok (<[Z.to_nat i := vals]> rows).
Proof.
  intros [Hlen Hrows] Hi Hv.
  destruct (lookup_lt_is_Some_2 rows (Z.to_nat i)) as [v Hr]; [lia|].
  eapply Forall_lookup_1 in Hrows; [|exact Hr]. simpl in Hrows.
  apply (scatter_vec_replicate L i D 0 vals rows v);
    [by apply in_range_true | done | done | lia].
Qed.

Lemma scatter_rows_cons {A : Type} len idx idxs (v : list A) vals rows :
  scatter_rows len (idx :: idxs) (v :: vals) rows =
  (rows' ← scatter_vec len 0 idx v rows; scatter_rows len idxs vals rows').
Proof. done. Qed.

Lemma scatter_batches_cons {A : Type} len idxs idxss (vals : list (list A)) valss
    rows input :
  scatter_batches len (idxs :: idxss) (vals :: valss) (rows :: input) =
  (rows' ← scatter_rows len idxs vals rows;
   out ← scatter_batches len idxss valss input;
   Ok (rows' :: out)).
Proof. done. Qed.

(** Writing back the rows an index selected changes nothing. *)
Lemma scatter_rows_selected {A : Type} L D (rows0 rows : list (list A)) (idx : list Z) :
  shaped2 L D rows → Forall (λ i, (0 ≤ i < Z.of_nat L)%Z) idx →
  (∀ i, i ∈ idx → rows0 !! Z.to_nat i = rows !! Z.to_nat i) →
  scatter_rows L (map (replicate D) idx) (select_rows rows0 idx) rows = Ok rows.
Proof.
  intros Hshape Hidx. induction Hidx as [|i idx Hi Hidx IH]; intros Hsame; [done|].
  unfold select_rows. rewrite !fmap_cons, scatter_rows_cons.
  destruct Hshape as [Hlen Hrows].
  destruct (lookup_lt_is_Some_2 rows (Z.to_nat i)) as [v Hv]; [lia|].
  rewrite (Hsame i), Hv by left. simpl default.
  rewrite (scatter_row L D); [| done | done | by eapply Forall_lookup_1 in Hrows].
  rewrite bind_Ok, list_insert_id by done.
  apply IH. intros j Hj. apply Hsame. by right.
Qed.

Lemma scatter_batches_selected {A : Type} L D (toks : list (list (list A)))
    (idxs : list (list Z)) :
  length toks = length idxs → Forall (shaped2 L D) toks →
  Forall (Forall (λ i, (0 ≤ i < Z.of_nat L)%Z)) idxs →
  scatter_batches L (map (map (replicate D)) idxs)
                  (zip_with select_rows toks idxs) toks = Ok toks.
Proof.
  intros Hlen Htoks Hidx. revert toks Hlen Htoks.
  induction Hidx as [|idx idxs Hi Hidx IH]; intros toks Hlen Htoks; [done|].
  destruct toks as [|rows toks]; [done|].
  apply Forall_cons in Htoks as [Hrows Htoks].
  rewrite fmap_cons. simpl zip_with. rewrite scatter_batches_cons.
  rewrite (scatter_rows_selected L D) by done.
  rewrite bind_Ok, IH; [done | | done]. simpl in Hlen. lia.
Qed.

(** C6: writing the tokens read at [idx] back at [idx] gives the tokens
    again, element for element. *)
Theorem set_get_round_trip {A : Type} (tokens : tensor3 A) (idx : tensor2 Z)
    (B L D K : nat) :
  has_shape3 tokens B L D →
  has_shape2 idx B K →
  all_in_range L idx →
  ∃ values,
    get_at_index tokens idx = Ok values ∧
    set_at_index tokens idx (Values values) = Ok tokens.
Proof.
  intros Htok Hidx Hin. eexists. split; [by eapply get_at_index_in_range|].
  destruct Htok as (HB & HL & HD & Hlen & Hrows).
  destruct Hidx as (Hn & Hc & Hilen & Hirows).
  unfold set_at_index. rewrite expand_index_like_Ok, bind_Ok.
  unfold scatter. simpl. rewrite HB, HL, HD, Hn, Hc, !Nat.leb_refl. simpl.
  rewrite (scatter_batches_selected L D), bind_Ok; [| lia | done | done].
  destruct tokens; simpl in *. by subst.
Qed.

(** C6 at a concrete call, with a repeated index. *)
Lemma set_get_round_trip_witness :
  ∃ values,
    get_at_index (T3 1 3 2 [[[1; 2]; [3; 4]; [5; 6]]]%Z) (T2 1 3 [[2; 0; 2]]%Z)
      = Ok values ∧
    set_at_index (T3 1 3 2 [[[1; 2]; [3; 4]; [5; 6]]]%Z) (T2 1 3 [[2; 0; 2]]%Z)
                 (Values values)
      = Ok (T3 1 3 2 [[[1; 2]; [3; 4]; [5; 6]]]%Z).
Proof.
  apply (set_get_round_trip
           (T3 1 3 2 [[[1; 2]; [3; 4]; [5; 6]]]%Z) (T2 1 3 [[2; 0; 2]]%Z) 1 3 2 3).
  - repeat (split || constructor).
  - repeat (split || constructor).
  - repeat constructor; lia.
Defined.

(** ** Exact arithmetic *)

#[global] Instance Z_blend : BlendLaws Z.
Proof. split; simpl; intros; lia. Qed.

#[global] Instance Qc_blend : BlendLaws Qc.
Proof. split; simpl; intros; ring. Qed.

(** ** [mask_at_index] *)

Lemma scatter_rows_fill {A : Type} L D (x : A) (idx : list Z) :
  Forall (λ i, (0 ≤ i < Z.of_nat L)%Z) idx →
  ∀ rows, shaped2 L D rows →
    ∃ out,
      scatter_rows L (map (replicate D) idx)
                   (map (map (λ _, x)) (map (replicate D) idx)) rows = Ok out ∧
      shaped2 L D out ∧
      ∀ p, out !! p =
           if decide (Z.of_nat p ∈ idx) then Some (replicate D x) else rows !! p.
Proof.
  induction 1 as [|i idx Hi Hidx IH]; intros rows Hshape.
  - exists rows. split; [done|]. split; [done|].
    intros p. destruct (decide _) as [Hp|]; [|done]. by apply elem_of_nil in Hp.
  - rewrite !fmap_cons, scatter_rows_cons, fmap_replicate.
    rewrite (scatter_row L D) by (done || by rewrite length_replicate).
    rewrite bind_Ok.
    assert (shaped2 L D (<[Z.to_nat i := replicate D x]> rows)) as Hshape'.
    { destruct Hshape as [Hlen Hrows]. split; [by rewrite length_insert|].
      apply Forall_insert; [done | by rewrite length_replicate]. }
    destruct (IH _ Hshape') as (out & Hout & Hs & Hlook).
    exists out. split; [done|]. split; [done|].
    intros p. rewrite Hlook.
    destruct Hshape as [Hlen _].
    destruct (decide (Z.of_nat p ∈ idx)) as [Hp|Hp].
    + rewrite decide_True; [done | by right].
    + destruct (decide (p = Z.to_nat i)) as [->|Hne].
      * rewrite decide_True by (rewrite Z2Nat.id by lia; left).
        apply list_lookup_insert_eq. lia.
      * rewrite list_lookup_insert_ne by done.
        rewrite decide_False; [done|].
        intros Hin. apply elem_of_cons in Hin as [Hin|Hin]; [lia | done].
Qed.

Lemma scatter_batches_fill {A : Type} L D (x : A) (idxs : list (list Z)) :
  Forall (Forall (λ i, (0 ≤ i < Z.of_nat L)%Z)) idxs →
  ∀ toks, length toks = length idxs → Forall (shaped2 L D) toks →
    ∃ out,
      scatter_batches L (map (map (replicate D)) idxs)
        (map (map (map (λ _, x))) (map (map (replicate D)) idxs)) toks = Ok out ∧
      length out = length toks ∧
      Forall (shaped2 L D) out ∧
      ∀ b idx rows, idxs !! b = Some idx → toks !! b = Some rows →
        ∃ row, out !! b = Some row ∧
          ∀ p, row !! p =
               if decide (Z.of_nat p ∈ idx) then Some (replicate D x) else rows !! p.
Proof.
  induction 1 as [|idx idxs Hi Hidx IH]; intros toks Hlen Htoks.
  - destruct toks; [|done]. exists []. repeat split; try done.
  - destruct toks as [|rows toks]; [done|].
    apply Forall_cons in Htoks as [Hrows Htoks].
    rewrite !fmap_cons, scatter_batches_cons.
    destruct (scatter_rows_fill L D x idx Hi rows Hrows) as (row & -> & Hs & Hlook).
    destruct (IH toks) as (out & -> & Hl & Hall & Hrest); [simpl in Hlen; lia | done |].
    rewrite !bind_Ok. exists (row :: out).
    split; [done|]. split; [simpl; lia|]. split; [by constructor|].
    intros [|b] idx' rows'; simpl.
    + intros [= <-] [= <-]. by exists row.
    + apply Hrest.
Qed.

Lemma new_zeros_shape {R : Type} `{Number R} (tokens : tensor3 R) B L D :
  has_shape3 tokens B L D → has_shape3 (new_zeros tokens) B L D.
Proof.
  intros (HB & HL & HD & _). unfold new_zeros. rewrite HB, HL, HD.
  repeat split; simpl; [by rewrite length_replicate|].
  apply Forall_replicate. split; [by rewrite length_replicate|].
  apply Forall_replicate. by rewrite length_replicate.
Qed.

(** The mask [mask_at_index] builds holds one at the indexed positions and
    zero elsewhere. *)
Lemma mask_of_index {R : Type} `{Number R} (tokens : tensor3 R) (index : tensor2 Z)
    B L D K :
  has_shape3 tokens B L D → has_shape2 index B K → all_in_range L index →
  ∃ mask,
    set_at_index (new_zeros tokens) index (Fill num1) = Ok mask ∧
    has_shape3 mask B L D ∧
    ∀ b idx p d, data2 index !! b = Some idx → p < L → d < D →
      at3 mask b p d = Some (if decide (Z.of_nat p ∈ idx) then num1 else num0).
Proof.
  intros Htok (Hn & Hc & Hilen & Hirows) Hin.
  pose proof (new_zeros_shape tokens B L D Htok) as (HB & HL & HD & Hlen & Hrows).
  destruct Htok as (HB' & HL' & HD' & _).
  unfold set_at_index. rewrite expand_index_like_Ok, bind_Ok.
  unfold scatter. simpl. rewrite HB', HL', HD', Hn, !Nat.leb_refl. simpl.
  destruct (scatter_batches_fill L D num1 (data2 index) Hin
              (data3 (new_zeros tokens))) as (out & Hout & Hl & Hall & Hlook);
    [lia | done |].
  simpl in Hout. rewrite HB', HL', HD' in Hout. rewrite Hout, bind_Ok.
  eexists. split; [done|]. split.
  { repeat split; simpl; [lia | done]. }
  intros b idx p d Hidx Hp Hd. unfold at3, row3. simpl.
  destruct (Hlook b idx (replicate L (replicate D num0)) Hidx) as (row & Hrow & Hrp).
  { simpl. rewrite HB', HL', HD'. apply lookup_replicate_2.
    apply lookup_lt_Some in Hidx. lia. }
  rewrite Hrow. simpl. rewrite Hrp.
  destruct (decide _); simpl.
  - by rewrite lookup_replicate_2.
  - rewrite lookup_replicate_2 by done. simpl. by rewrite lookup_replicate_2.
Qed.

Lemma tabulate3_shape {R : Type} n m k (g : nat → nat → nat → R) :
  shaped3 n m k (tabulate3 n m k g).
Proof.
  unfold tabulate3. split; [by rewrite length_fmap, length_seq|].
  apply Forall_fmap, Forall_forall. intros b _. simpl.
  split; [by rewrite length_fmap, length_seq|].
  apply Forall_fmap, Forall_forall. intros p _. simpl.
  by rewrite length_fmap, length_seq.
Qed.

Lemma tabulate3_lookup {R : Type} n m k (g : nat → nat → nat → R) b p d :
  b < n → p < m → d < k →
  (tabulate3 n m k g !! b ≫= (.!! p)) ≫= (.!! d) = Some (g b p d).
Proof.
  intros Hb Hp Hd. unfold tabulate3.
  rewrite list_lookup_fmap, lookup_seq_lt by done. simpl.
  rewrite list_lookup_fmap, lookup_seq_lt by done. simpl.
  by rewrite list_lookup_fmap, lookup_seq_lt.
Qed.

Lemma broadcast_size_same n : broadcast_size n n = Ok n.
Proof. unfold broadcast_size. by rewrite Nat.eqb_refl. Qed.

Lemma broadcast_size_one n : broadcast_size n 1 = Ok n.
Proof.
  unfold broadcast_size. destruct (Nat.eqb_spec n 1) as [->|]; [done|].
  by rewrite Nat.eqb_refl.
Qed.

Lemma broadcast_pos_lt n i : i < n → broadcast_pos n i = i.
Proof. unfold broadcast_pos. destruct (Nat.eqb_spec n 1); lia. Qed.

Lemma read3_at {R : Type} `{Number R} (t : tensor3 R) b p d v :
  b < dimB t → p < dimL t → d < dimD t → at3 t b p d = Some v →
  read3 t b p d = v.
Proof.
  intros Hb Hp Hd Hv. unfold read3.
  by rewrite !broadcast_pos_lt, Hv.
Qed.

Lemma read3_tabulate {R : Type} `{Number R} n m k (g : nat → nat → nat → R) b p d :
  b < n → p < m → d < k → read3 (T3 n m k (tabulate3 n m k g)) b p d = g b p d.
Proof.
  intros Hb Hp Hd. apply read3_at; try done. by apply tabulate3_lookup.
Qed.

Lemma read3_token {R : Type} `{Number R} (t : tensor3 R) b p d v :
  dimB t = 1 → dimL t = 1 → d < dimD t → at3 t 0 0 d = Some v →
  read3 t b p d = v.
Proof.
  intros HB HL Hd Hv. unfold read3.
  rewrite HB, HL. unfold broadcast_pos at 1 2. simpl.
  by rewrite broadcast_pos_lt, Hv.
Qed.

Lemma at3_shaped {A : Type} (t : tensor3 A) B L D b p d :
  has_shape3 t B L D → b < B → p < L → d < D → is_Some (at3 t b p d).
Proof.
  intros (_ & _ & _ & Hlen & Hrows) Hb Hp Hd. unfold at3, row3.
  destruct (lookup_lt_is_Some_2 (data3 t) b) as [rows Hr]; [lia|].
  eapply Forall_lookup_1 in Hrows as [Hl Hv]; [|exact Hr].
  destruct (lookup_lt_is_Some_2 rows p) as [v Hvp]; [lia|].
  eapply Forall_lookup_1 in Hv; [|exact Hvp]. simpl in Hv.
  rewrite Hr. simpl. rewrite Hvp. simpl.
  apply lookup_lt_is_Some_2. lia.
Qed.

Lemma at3_shaped_row {A : Type} (t : tensor3 A) B L D b p :
  has_shape3 t B L D → b < B → p < L → is_Some (row3 t b p).
Proof.
  intros (_ & _ & _ & Hlen & Hrows) Hb Hp. unfold row3.
  destruct (lookup_lt_is_Some_2 (data3 t) b) as [rows Hr]; [lia|].
  eapply Forall_lookup_1 in Hrows as [Hl Hv]; [|exact Hr].
  rewrite Hr. simpl. apply lookup_lt_is_Some_2. lia.
Qed.

Lemma at3_scalar_sub {R : Type} `{Number R} x (t : tensor3 R) b p d :
  at3 (scalar_sub x t) b p d = nsub x <$> at3 t b p d.
Proof.
  unfold at3, row3. simpl. rewrite list_lookup_fmap.
  destruct (data3 t !! b) as [rows|]; [|done]. simpl.
  rewrite list_lookup_fmap. destruct (rows !! p) as [v|]; [|done]. simpl.
  by rewrite list_lookup_fmap.
Qed.

Lemma elementwise_same {R : Type} `{Number R} f (x y : tensor3 R) B L D :
  dimB x = B → dimL x = L → dimD x = D →
  dimB y = B → dimL y = L → dimD y = D →
  elementwise f x y
  = Ok (T3 B L D (tabulate3 B L D (λ b p d, f (read3 x b p d) (read3 y b p d)))).
Proof.
  intros ? ? ? HB HL HD. subst B L D. unfold elementwise.
  by rewrite HB, HL, HD, !broadcast_size_same, !bind_Ok.
Qed.

Lemma elementwise_token {R : Type} `{Number R} f (x y : tensor3 R) B L D :
  dimB x = B → dimL x = L → dimD x = D →
  dimB y = 1 → dimL y = 1 → dimD y = D →
  elementwise f x y
  = Ok (T3 B L D (tabulate3 B L D (λ b p d, f (read3 x b p d) (read3 y b p d)))).
Proof.
  intros ? ? ? HB HL HD. subst B L D. unfold elementwise.
  by rewrite HB, HL, HD, !broadcast_size_one, broadcast_size_same, !bind_Ok.
Qed.



(** ** Tensors in memory: what a call writes *)

Lemma heap_bind_Ok {R A B : Type} (m : Heap.M R A) (k : A → Heap.M R B) h a h' :
  m h = Ok (a, h') → Heap.bind m k h = k a h'.
Proof. unfold Heap.bind. by intros ->. Qed.

Lemma heap_load {R : Type} (h : Heap.heap R) l t :
  h !! l = Some t → Heap.load l h = Ok (t, h).
Proof. unfold Heap.load. by intros ->. Qed.

Lemma heap_load_source {R : Type} (h : Heap.heap R) src s :
  Heap.source_value h src = Some s → Heap.load_source src h = Ok (s, h).
Proof.
  destruct src as [l|x]; simpl.
  - destruct (h !! l) as [v|] eqn:Hv; [|done]. intros [= <-].
    by rewrite (heap_bind_Ok _ _ h v h (heap_load h l v Hv)).
  - by intros [= <-].
Qed.

Lemma heap_extends_app {R : Type} (h k : Heap.heap R) : Heap.extends h (h ++ k).
Proof. intros l Hl. by apply lookup_app_l. Qed.

(** An out-of-place scatter appends its result to the heap. *)
Lemma heap_scatter_run {R : Type} (h : Heap.heap R) input index src t s r :
  h !! input = Some t → Heap.source_value h src = Some s →
  scatter t index s = Ok r →
  Heap.scatter input index src h = Ok (length h, h ++ [r]).
Proof.
  intros Ht Hs Hr. unfold Heap.scatter.
  rewrite (heap_bind_Ok _ _ h t h (heap_load h input t Ht)).
  rewrite (heap_bind_Ok _ _ h s h (heap_load_source h src s Hs)).
  unfold Heap.bind, Heap.lift. by rewrite Hr.
Qed.

(** The in-place scatter overwrites its input, for comparison. *)
Lemma heap_scatter_inplace_run {R : Type} (h : Heap.heap R) input index src t s r :
  h !! input = Some t → Heap.source_value h src = Some s →
  scatter t index s = Ok r →
  Heap.scatter_ input index src h = Ok (input, <[input := r]> h).
Proof.
  intros Ht Hs Hr. unfold Heap.scatter_.
  rewrite (heap_bind_Ok _ _ h t h (heap_load h input t Ht)).
  rewrite (heap_bind_Ok _ _ h s h (heap_load_source h src s Hs)).
  unfold Heap.bind, Heap.lift. by rewrite Hr.
Qed.

Lemma heap_set_at_index_run {R : Type} (h : Heap.heap R) tokens index value t s r :
  h !! tokens = Some t → Heap.source_value h value = Some s →
  set_at_index t index s = Ok r →
  Heap.set_at_index tokens index value h = Ok (length h, h ++ [r]).
Proof.
  intros Ht Hs Hr. unfold Heap.set_at_index, Heap.expand_index_like.
  unfold set_at_index in Hr. rewrite expand_index_like_Ok, bind_Ok in Hr.
  erewrite heap_bind_Ok; [by eapply heap_scatter_run|].
  rewrite (heap_bind_Ok _ _ h t h (heap_load h tokens t Ht)).
  unfold Heap.lift. by rewrite expand_index_like_Ok.
Qed.

Lemma heap_elementwise_run {R : Type} `{Number R} (h : Heap.heap R) f x y u v r :
  h !! x = Some u → h !! y = Some v → elementwise f u v = Ok r →
  Heap.elementwise f x y h = Ok (length h, h ++ [r]).
Proof.
  intros Hu Hv Hr. unfold Heap.elementwise.
  rewrite (heap_bind_Ok _ _ h u h (heap_load h x u Hu)).
  rewrite (heap_bind_Ok _ _ h v h (heap_load h y v Hv)).
  unfold Heap.bind, Heap.lift. by rewrite Hr.
Qed.

Lemma lookup_snoc {A : Type} (l : list A) x : (l ++ [x]) !! length l = Some x.
Proof. by apply list_lookup_middle. Qed.

Ltac heap_at :=
  repeat first [apply lookup_snoc | apply lookup_app_l_Some]; done.

Lemma heap_mask_at_index_run {R : Type} `{Number R} (h : Heap.heap R)
    tokens index mask_token t mt r :
  h !! tokens = Some t → h !! mask_token = Some mt →
  mask_at_index t index mt = Ok r →
  ∃ temps,
    Heap.mask_at_index tokens index mask_token h
    = Ok (length h + length temps, h ++ temps ++ [r]).
Proof.
  intros Ht Hmt Hr. unfold mask_at_index in Hr.
  destruct (set_at_index (new_zeros t) index (Fill num1)) as [mask|] eqn:Hmask;
    [|done].
  rewrite bind_Ok in Hr.
  destruct (elementwise nmul (scalar_sub num1 mask) t) as [kept|] eqn:Hkept; [|done].
  rewrite bind_Ok in Hr.
  destruct (elementwise nmul mask mt) as [masked|] eqn:Hmasked; [|done].
  rewrite bind_Ok in Hr.
  exists [new_zeros t; mask; scalar_sub num1 mask; kept; masked].
  set (h1 := h ++ [new_zeros t]).
  set (h2 := h1 ++ [mask]).
  set (h3 := h2 ++ [scalar_sub num1 mask]).
  set (h4 := h3 ++ [kept]).
  set (h5 := h4 ++ [masked]).
  assert (Heap.new_zeros tokens h = Ok (length h, h1)) as E1.
  { unfold Heap.new_zeros. by rewrite (heap_bind_Ok _ _ h t h (heap_load h tokens t Ht)). }
  assert (Heap.set_at_index (length h) index (Heap.FillWith num1) h1
          = Ok (length h1, h2)) as E2.
  { eapply heap_set_at_index_run; [| |exact Hmask]; [heap_at | done]. }
  assert (Heap.scalar_sub num1 (length h1) h2 = Ok (length h2, h3)) as E3.
  { unfold Heap.scalar_sub.
    by rewrite (heap_bind_Ok _ _ h2 mask h2 (heap_load h2 _ mask (lookup_snoc h1 mask))). }
  assert (Heap.elementwise nmul (length h2) tokens h3 = Ok (length h3, h4)) as E4.
  { eapply heap_elementwise_run; [| |exact Hkept]; heap_at. }
  assert (Heap.elementwise nmul (length h1) mask_token h4 = Ok (length h4, h5)) as E5.
  { eapply heap_elementwise_run; [| |exact Hmasked]; heap_at. }
  assert (Heap.elementwise nadd (length h3) (length h4) h5
          = Ok (length h5, h5 ++ [r])) as E6.
  { eapply heap_elementwise_run; [| |exact Hr]; heap_at. }
  unfold Heap.mask_at_index.
  rewrite (heap_bind_Ok _ _ _ _ _ E1), (heap_bind_Ok _ _ _ _ _ E2),
    (heap_bind_Ok _ _ _ _ _ E3), (heap_bind_Ok _ _ _ _ _ E4),
    (heap_bind_Ok _ _ _ _ _ E5), E6.
  unfold h5, h4, h3, h2, h1. rewrite !length_app. simpl.
  rewrite <- !app_assoc. simpl. do 2 f_equal. lia.
Qed.

(** C9: a valid call of [set_at_index] or of [mask_at_index] leaves every
    tensor the caller holds, the tokens among them, as it was, and returns
    a tensor at an address that did not exist before the call. *)
Theorem tokens_left_unchanged {R : Type} `{Number R} (h : Heap.heap R)
    (tokens mask_token : Heap.loc) (index : tensor2 Z) (value : Heap.source_at R)
    (t : tensor3 R) :
  h !! tokens = Some t →
  (∀ s r, Heap.source_value h value = Some s → set_at_index t index s = Ok r →
     ∃ l h', Heap.set_at_index tokens index value h = Ok (l, h') ∧
             Heap.extends h h' ∧ h' !! tokens = Some t ∧
             length h ≤ l ∧ h' !! l = Some r) ∧
  (∀ mt r, h !! mask_token = Some mt → mask_at_index t index mt = Ok r →
     ∃ l h', Heap.mask_at_index tokens index mask_token h = Ok (l, h') ∧
             Heap.extends h h' ∧ h' !! tokens = Some t ∧
             length h ≤ l ∧ h' !! l = Some r).
Proof.
  intros Ht. split.
  - intros s r Hs Hr. exists (length h), (h ++ [r]).
    split; [by eapply heap_set_at_index_run|].
    split; [apply heap_extends_app|].
    split; [by apply lookup_app_l_Some|].
    split; [done | apply lookup_snoc].
  - intros mt r Hmt Hr.
    destruct (heap_mask_at_index_run h tokens index mask_token t mt r Ht Hmt Hr)
      as [temps Hrun].
    exists (length h + length temps), (h ++ temps ++ [r]).
    split; [done|].
    split; [apply heap_extends_app|].
    split; [by apply lookup_app_l_Some|].
    split; [lia|].
    rewrite app_assoc, <- length_app. apply lookup_snoc.
Qed.

(** C9 on a heap that holds the tokens at address 0 and a mask token at
    address 1. *)
Lemma tokens_left_unchanged_witness :
  ∃ l h',
    Heap.mask_at_index 0 (T2 1 2 [[2; 0]]%Z) 1
      [T3 1 3 2 [[[1; 2]; [3; 4]; [5; 6]]]%Z; T3 1 1 2 [[[-1; -2]]]%Z]
    = Ok (l, h') ∧
    Heap.extends
      [T3 1 3 2 [[[1; 2]; [3; 4]; [5; 6]]]%Z; T3 1 1 2 [[[-1; -2]]]%Z] h' ∧
    h' !! 0 = Some (T3 1 3 2 [[[1; 2]; [3; 4]; [5; 6]]]%Z) ∧
    2 ≤ l ∧
    h' !! l = Some (T3 1 3 2 [[[-1; -2]; [3; 4]; [-1; -2]]]%Z).
Proof.
  apply (proj2 (tokens_left_unchanged
                  [T3 1 3 2 [[[1; 2]; [3; 4]; [5; 6]]]%Z; T3 1 1 2 [[[-1; -2]]]%Z]
                  0 1 (T2 1 2 [[2; 0]]%Z) (Heap.FillWith 0%Z)
                  (T3 1 3 2 [[[1; 2]; [3; 4]; [5; 6]]]%Z) eq_refl)
               (T3 1 1 2 [[[-1; -2]]]%Z)); reflexivity.
Defined.

(** ** [nearest_neighbors] *)

Lemma stable_argsort_length keys : length (stable_argsort keys) = length keys.
Proof. by rewrite stable_argsort_perm, length_seq. Qed.

Lemma stable_argsort_elem keys i : i ∈ stable_argsort keys ↔ i < length keys.
Proof. rewrite stable_argsort_perm, elem_of_seq. lia. Qed.

Lemma smallest_one keys : keys ≠ [] → smallest 1 keys = [argmin keys].
Proof.
  intros Hne. unfold smallest, argmin.
  pose proof (stable_argsort_length keys) as Hl.
  destruct (stable_argsort keys) as [|j p]; [|done].
  destruct keys; [done | simpl in Hl; lia].
Qed.

(** The first position of the stable sort carries a smallest key. *)
Lemma argmin_least keys :
  keys ≠ [] →
  argmin keys < length keys ∧
  ∀ j, j < length keys → (key_at keys (argmin keys) <= key_at keys j)%Q.
Proof.
  intros Hne. unfold argmin.
  pose proof (stable_argsort_length keys) as Hl.
  pose proof (stable_argsort_sorted keys) as Hs.
  pose proof (stable_argsort_elem keys) as He.
  destruct (stable_argsort keys) as [|a p].
  { destruct keys; [done | simpl in Hl; lia]. }
  simpl. split; [apply He; left|].
  intros j Hj. apply He in Hj. apply elem_of_cons in Hj as [->|Hj].
  - apply Qle_refl.
  - apply StronglySorted_inv in Hs as [_ Hall].
    rewrite Forall_forall in Hall. by destruct (Hall j Hj).
Qed.

Lemma rows_fmap_ext {A B : Type} (f g : A → B) (P : A → Prop) (x : list (list A)) :
  (∀ a, P a → f a = g a) → Forall (Forall P) x → map (map f) x = map (map g) x.
Proof.
  intros Hfg Hx. apply Forall_fmap_ext_1. eapply Forall_impl; [exact Hx|].
  intros rows Hrows. apply Forall_fmap_ext_1. eapply Forall_impl; [exact Hrows|].
  intros a. apply Hfg.
Qed.

Lemma distances_rows_nonempty (distances : tensor3 Q) B I C :
  has_shape3 distances B I C → 1 ≤ C →
  Forall (Forall (λ keys, length keys = C ∧ keys ≠ [])) (data3 distances).
Proof.
  intros (_ & _ & _ & _ & Hrows) HC.
  eapply Forall_impl; [exact Hrows|]. intros rows [_ Hr].
  eapply Forall_impl; [exact Hr|]. intros keys Hk. simpl in Hk.
  split; [done|]. intros ->. simpl in Hk. lia.
Qed.

Lemma topk_nearest (distances : tensor3 Q) B I C :
  has_shape3 distances B I C → 1 ≤ C →
  topk_last3 1 distances =
  Ok (T3 B I 1 (map (map (λ keys, [key_at keys (argmin keys)])) (data3 distances)),
      T3 B I 1 (map (map (λ keys, [Z.of_nat (argmin keys)])) (data3 distances))).
Proof.
  intros Hshape HC.
  pose proof (distances_rows_nonempty distances B I C Hshape HC) as Hne.
  destruct Hshape as (HB & HI & HD & _).
  unfold topk_last3. rewrite HB, HI, HD.
  destruct (Z.leb_spec 1 (Z.of_nat C)); [|lia]. simpl.
  do 2 f_equal.
  - f_equal. eapply rows_fmap_ext; [|exact Hne].
    intros keys [_ Hk]. simpl. by rewrite smallest_one.
  - f_equal. eapply rows_fmap_ext; [|exact Hne].
    intros keys [_ Hk]. simpl. by rewrite smallest_one.
Qed.

Lemma concat_singletons {A B : Type} (f : A → B) (l : list A) :
  concat (map (λ a, [f a]) l) = map f l.
Proof. induction l as [|a l IH]; csimpl; [done | by rewrite IH]. Qed.

Lemma squeeze_nearest (distances : tensor3 Q) B I :
  squeeze_last
    (T3 B I 1 (map (map (λ keys, [key_at keys (argmin keys)])) (data3 distances)))
  = Ok (T2 B I (nearest_distances distances)).
Proof.
  unfold squeeze_last, nearest_distances. simpl. do 2 f_equal.
  rewrite <- list_fmap_compose. apply list_fmap_ext. intros _ rows _. simpl.
  apply concat_singletons.
Qed.

Lemma expand_nearest (distances : tensor3 Q) B I dim :
  expand_last dim
    (T3 B I 1 (map (map (λ keys, [Z.of_nat (argmin keys)])) (data3 distances)))
  = Ok (T3 B I dim (map (map (replicate dim)) (nearest_candidates distances))).
Proof.
  unfold expand_last, nearest_candidates. simpl.
  rewrite (traverse_fmap_Ok _ _
             (map (λ keys, replicate dim (Z.of_nat (argmin keys))))).
  - rewrite bind_Ok. do 2 f_equal.
    rewrite <- list_fmap_compose. apply list_fmap_ext. intros _ rows _. simpl.
    by rewrite <- list_fmap_compose.
  - apply Forall_forall. intros row _.
    apply traverse_fmap_Ok. by apply Forall_forall.
Qed.

Lemma nearest_distances_shape (distances : tensor3 Q) B I C :
  has_shape3 distances B I C → shaped2 B I (nearest_distances distances).
Proof.
  intros (_ & _ & _ & Hlen & Hrows). unfold nearest_distances.
  split; [by rewrite length_fmap|].
  apply Forall_fmap. eapply Forall_impl; [exact Hrows|].
  intros rows [Hl _]. simpl. by rewrite length_fmap.
Qed.

Lemma nearest_candidates_range (distances : tensor3 Q) B I C :
  has_shape3 distances B I C → 1 ≤ C →
  shaped2 B I (nearest_candidates distances) ∧
  Forall (Forall (λ j, (0 ≤ j < Z.of_nat C)%Z)) (nearest_candidates distances).
Proof.
  intros Hshape HC.
  pose proof (distances_rows_nonempty distances B I C Hshape HC) as Hne.
  destruct Hshape as (_ & _ & _ & Hlen & Hrows). unfold nearest_candidates.
  split.
  - split; [by rewrite length_fmap|].
    apply Forall_fmap. eapply Forall_impl; [exact Hrows|].
    intros rows [Hl _]. simpl. by rewrite length_fmap.
  - apply Forall_fmap. eapply Forall_impl; [exact Hne|].
    intros rows Hr. simpl. apply Forall_fmap.
    eapply Forall_impl; [exact Hr|]. intros keys [Hk Hn]. simpl.
    destruct (argmin_least keys Hn) as [Hlt _]. lia.
Qed.

Lemma smallest_length n keys : n ≤ length keys → length (smallest n keys) = n.
Proof.
  intros Hn. unfold smallest. rewrite length_take, stable_argsort_length. lia.
Qed.

Lemma smallest_elem n keys s : s ∈ smallest n keys → s < length keys.
Proof.
  unfold smallest. intros Hs. apply stable_argsort_elem.
  apply elem_of_take in Hs as (i & Hi & _). by eapply list_elem_of_lookup_2.
Qed.

Lemma selected_inputs_range (distances : tensor3 Q) B I C n :
  has_shape3 distances B I C → n ≤ I →
  shaped2 B n (selected_inputs distances n) ∧
  Forall (Forall (λ s, (0 ≤ s < Z.of_nat I)%Z)) (selected_inputs distances n).
Proof.
  intros Hshape Hn.
  destruct (nearest_distances_shape distances B I C Hshape) as [Hlen Hrows].
  unfold selected_inputs. split.
  - split; [by rewrite length_fmap|].
    apply Forall_fmap. eapply Forall_impl; [exact Hrows|].
    intros keys Hk. simpl in *. rewrite length_fmap. apply smallest_length. lia.
  - apply Forall_fmap. eapply Forall_impl; [exact Hrows|].
    intros keys Hk. simpl in *. apply Forall_fmap, Forall_forall.
    intros s Hs. simpl. apply smallest_elem in Hs. lia.
Qed.

Lemma topk_selected (distances : tensor3 Q) B I (k : Z) :
  (0 ≤ k ≤ Z.of_nat I)%Z →
  ∃ values,
    topk_last2 k (T2 B I (nearest_distances distances))
    = Ok (values, T2 B (Z.to_nat k) (selected_inputs distances (Z.to_nat k))).
Proof.
  intros Hk. unfold topk_last2. simpl.
  destruct (Z.leb_spec 0 k); [|lia].
  destruct (Z.leb_spec k (Z.of_nat I)); [|lia]. simpl.
  eexists. reflexivity.
Qed.

Lemma normalize_matches_le num_matches I :
  (normalize_matches num_matches I ≤ Z.of_nat I)%Z.
Proof.
  unfold normalize_matches. destruct num_matches as [n|]; [|lia].
  destruct (Z.eqb_spec n (-1)); simpl; [lia|].
  destruct (Z.gtb_spec n (Z.of_nat I)); lia.
Qed.

(** What [nearest_neighbors] computes on well-shaped arguments. *)
Lemma nearest_neighbors_eq {A : Type} (input_maps candidate_maps : tensor3 A)
    (distances : tensor3 Q) (num_matches : option Z) B I C D :
  has_shape3 input_maps B I D → has_shape3 candidate_maps B C D →
  has_shape3 distances B I C → 1 ≤ C →
  (0 ≤ normalize_matches num_matches I)%Z →
  let n := Z.to_nat (normalize_matches num_matches I) in
  nearest_neighbors input_maps candidate_maps distances num_matches =
  Ok (T3 B n D (zip_with select_rows (data3 input_maps)
                         (selected_inputs distances n)),
      T3 B n D (zip_with select_rows
                  (zip_with select_rows (data3 candidate_maps)
                            (nearest_candidates distances))
                  (selected_inputs distances n))).
Proof.
  intros Hin Hcand Hdist HC Hk n.
  pose proof (normalize_matches_le num_matches I) as Hle.
  assert (n ≤ I) as Hn by (unfold n; lia).
  destruct (nearest_candidates_range distances B I C Hdist HC) as [Hjs Hjr].
  destruct (selected_inputs_range distances B I C n Hdist Hn) as [Hss Hsr].
  unfold nearest_neighbors.
  pose proof Hin as (HB & HI & HD & _). rewrite HI, HD.
  rewrite (topk_nearest distances B I C Hdist HC), bind_Ok.
  cbv beta iota. rewrite squeeze_nearest, bind_Ok.
  destruct (topk_selected distances B I (normalize_matches num_matches I))
    as [values ->]; [lia|].
  rewrite bind_Ok. cbv beta iota. fold n.
  rewrite expand_unsqueeze, bind_Ok. simpl nrows. simpl ncols. simpl data2.
  rewrite (gather_expanded input_maps _ B I D n), bind_Ok;
    [| done | apply Hss | done].
  rewrite expand_nearest, bind_Ok.
  rewrite (gather_expanded candidate_maps _ B C D I), bind_Ok;
    [| done | apply Hjs | done].
  rewrite bind_Ok.
  rewrite (gather_expanded _ _ B I D n); [done | | apply Hss | done].
  by apply (selected_shape candidate_maps _ B C D I).
Qed.

(** *** The smallest distance of a row *)

Lemma Qmin_cases x y : Qmin x y = x ∨ Qmin x y = y.
Proof.
  unfold Qmin, GenericMinMax.gmin. destruct (x ?= y)%Q; auto.
Qed.

Lemma fold_min_elem x (l : list Q) : foldr Qmin x l ∈ x :: l.
Proof.
  induction l as [|y l IH]; simpl; [left|].
  destruct (Qmin_cases y (foldr Qmin x l)) as [-> | ->].
  - right. left.
  - apply elem_of_cons in IH as [-> | IH]; [left | right; by right].
Qed.

Lemma fold_min_le x (l : list Q) : Forall (λ y, (foldr Qmin x l <= y)%Q) (x :: l).
Proof.
  induction l as [|y l IH]; simpl.
  - constructor; [apply Qle_refl | constructor].
  - apply Forall_cons in IH as [Hx Hl].
    pose proof (Q.le_min_l y (foldr Qmin x l)) as H1.
    pose proof (Q.le_min_r y (foldr Qmin x l)) as H2.
    constructor; [by eapply Qle_trans|].
    constructor; [done|].
    eapply Forall_impl; [exact Hl|]. intros z Hz. simpl in *. by eapply Qle_trans.
Qed.

Lemma min_of_elem keys : keys ≠ [] → min_of keys ∈ keys.
Proof. destruct keys as [|x l]; [done|]. intros _. apply fold_min_elem. Qed.

Lemma min_of_le keys y : y ∈ keys → (min_of keys <= y)%Q.
Proof.
  destruct keys as [|x l]; [by intros ?%elem_of_nil|].
  intros Hy. pose proof (fold_min_le x l) as H. rewrite Forall_forall in H.
  by apply H.
Qed.

Lemma key_at_lookup keys j x : keys !! j = Some x → key_at keys j = x.
Proof. intros Hx. unfold key_at. by rewrite nth_lookup, Hx. Qed.

Lemma key_at_elem keys j : j < length keys → key_at keys j ∈ keys.
Proof.
  intros Hj. destruct (lookup_lt_is_Some_2 keys j Hj) as [x Hx].
  rewrite (key_at_lookup keys j x Hx). by eapply list_elem_of_lookup_2.
Qed.

(** The distance recorded for an input is the smallest of its row. *)
Lemma nearest_distance_min keys :
  keys ≠ [] → (key_at keys (argmin keys) == min_of keys)%Q.
Proof.
  intros Hne. destruct (argmin_least keys Hne) as [Hlt Hleast].
  apply Qle_antisym.
  - pose proof (min_of_elem keys Hne) as Hin.
    apply list_elem_of_lookup in Hin as [j Hj].
    rewrite <- (key_at_lookup keys j _ Hj). apply Hleast.
    by eapply lookup_lt_Some.
  - apply min_of_le. by apply key_at_elem.
Qed.

Lemma key_at_nearest (rows : list (list Q)) s :
  Forall (λ keys, keys ≠ []) rows →
  (key_at (map (λ keys, key_at keys (argmin keys)) rows) s
   == key_at (map min_of rows) s)%Q.
Proof.
  intros Hne. unfold key_at at 1 3. rewrite !nth_lookup, !list_lookup_fmap.
  destruct (rows !! s) as [keys|] eqn:Hk; simpl; [|reflexivity].
  apply nearest_distance_min. by eapply Forall_lookup_1 in Hne.
Qed.

Lemma first_before_ext keys1 keys2 s t :
  (∀ i, (key_at keys1 i == key_at keys2 i)%Q) →
  first_before keys1 s t → first_before keys2 s t.
Proof.
  intros Heq [Hle Hlt]. split.
  - by rewrite <- !Heq.
  - intros H. apply Hlt. by rewrite !Heq.
Qed.

(** *** The selection *)

Lemma smallest_NoDup n keys : NoDup (smallest n keys).
Proof.
  unfold smallest. eapply sublist_NoDup; [|apply sublist_take].
  rewrite stable_argsort_perm. apply NoDup_seq.
Qed.

Lemma smallest_sorted n keys :
  StronglySorted (first_before keys) (smallest n keys).
Proof.
  pose proof (stable_argsort_sorted keys) as Hs.
  rewrite <- (take_drop n (stable_argsort keys)) in Hs.
  by apply StronglySorted_app in Hs as (_ & Hs & _).
Qed.

Lemma smallest_before_rest n keys s t :
  s ∈ smallest n keys → t < length keys → t ∉ smallest n keys →
  first_before keys s t.
Proof.
  intros Hs Ht Hnt.
  pose proof (stable_argsort_sorted keys) as Hsorted.
  apply stable_argsort_elem in Ht.
  rewrite <- (take_drop n (stable_argsort keys)) in Hsorted, Ht.
  apply StronglySorted_app in Hsorted as (Hcross & _ & _).
  apply elem_of_app in Ht as [Ht|Ht]; [done|]. by apply Hcross.
Qed.

Lemma smallest_all keys : smallest (length keys) keys ≡ₚ seq 0 (length keys).
Proof.
  unfold smallest. rewrite take_ge by (by rewrite stable_argsort_length).
  apply stable_argsort_perm.
Qed.

Lemma nearest_shapes {A : Type} (input_maps candidate_maps : tensor3 A)
    (distances : tensor3 Q) B I C D n :
  has_shape3 input_maps B I D → has_shape3 candidate_maps B C D →
  has_shape3 distances B I C → 1 ≤ C → n ≤ I →
  has_shape3 (T3 B n D (zip_with select_rows (data3 input_maps)
                                 (selected_inputs distances n))) B n D ∧
  has_shape3 (T3 B I D (zip_with select_rows (data3 candidate_maps)
                                 (nearest_candidates distances))) B I D ∧
  has_shape3 (T3 B n D (zip_with select_rows
                          (zip_with select_rows (data3 candidate_maps)
                                    (nearest_candidates distances))
                          (selected_inputs distances n))) B n D.
Proof.
  intros Hin Hcand Hdist HC Hn.
  destruct (nearest_candidates_range distances B I C Hdist HC) as [Hjs Hjr].
  destruct (selected_inputs_range distances B I C n Hdist Hn) as [Hss Hsr].
  assert (has_shape3 (T3 B I D (zip_with select_rows (data3 candidate_maps)
                                  (nearest_candidates distances))) B I D) as Hsel.
  { by apply (selected_shape candidate_maps _ B C D I). }
  split; [by apply (selected_shape input_maps _ B I D n)|].
  split; [done|].
  by apply (selected_shape
              (T3 B I D (zip_with select_rows (data3 candidate_maps)
                                  (nearest_candidates distances))) _ B I D n).
Qed.



(** C3: every pair [nearest_neighbors] returns is a row of [input_maps]
    together with the row of [candidate_maps] that is nearest to it: slot
    [i] of batch element [b] holds [input_maps[b, s]] and
    [candidate_maps[b, j]] for an input [s] and a candidate [j] whose
    distance to [s] is the smallest of row [s].  On the example distances
    with one match the pair is (input 1, candidate 1). *)
Theorem nearest_neighbors_pairs {A : Type} :
  (∀ (input_maps candidate_maps : tensor3 A) (distances : tensor3 Q)
     (num_matches : option Z) (B I C D : nat),
     has_shape3 input_maps B I D →
     has_shape3 candidate_maps B C D →
     has_shape3 distances B I C →
     1 ≤ C →
     (0 ≤ normalize_matches num_matches I)%Z →
     ∃ filtered_input_maps filtered_candidate_maps,
       nearest_neighbors input_maps candidate_maps distances num_matches
         = Ok (filtered_input_maps, filtered_candidate_maps) ∧
       has_shape3 filtered_input_maps B
                  (Z.to_nat (normalize_matches num_matches I)) D ∧
       has_shape3 filtered_candidate_maps B
                  (Z.to_nat (normalize_matches num_matches I)) D ∧
       ∀ b i, b < B → i < Z.to_nat (normalize_matches num_matches I) →
         ∃ s j x y dj,
           row3 filtered_input_maps b i = Some x ∧
           row3 input_maps b s = Some x ∧
           row3 filtered_candidate_maps b i = Some y ∧
           row3 candidate_maps b j = Some y ∧
           at3 distances b s j = Some dj ∧
           ∀ j' d', at3 distances b s j' = Some d' → (dj <= d')%Q) ∧
  (∀ (D : nat) (input0 input1 candidate0 candidate1 : list A),
     length input0 = D → length input1 = D →
     length candidate0 = D → length candidate1 = D →
     nearest_neighbors (T3 1 2 D [[input0; input1]])
                       (T3 1 2 D [[candidate0; candidate1]])
                       example_distances (Some 1%Z)
     = Ok (T3 1 1 D [[input1]], T3 1 1 D [[candidate1]])).
Proof.
  split.
  - intros input_maps candidate_maps distances num_matches B I C D
      Hin Hcand Hdist HC Hk.
    pose proof (normalize_matches_le num_matches I) as Hle.
    set (n := Z.to_nat (normalize_matches num_matches I)).
    assert (n ≤ I) as Hn by (unfold n; lia).
    eexists _, _.
    split; [by apply (nearest_neighbors_eq _ _ _ _ B I C D)|].
    destruct (nearest_shapes input_maps candidate_maps distances B I C D n)
      as (Hfi & Hsc & Hfc); try done.
    split; [done|]. split; [done|].
    intros b i Hb Hi.
    pose proof Hdist as (_ & _ & _ & Hdl & Hdrows).
    destruct (lookup_lt_is_Some_2 (data3 distances) b) as [rows Hrows]; [lia|].
    eapply Forall_lookup_1 in Hdrows as [Hrl Hrk]; [|exact Hrows].
    pose proof (distances_rows_nonempty distances B I C Hdist HC) as Hne.
    eapply Forall_lookup_1 in Hne; [|exact Hrows].
    set (dvals := map (λ keys, key_at keys (argmin keys)) rows).
    assert (length dvals = I) as Hlen by (unfold dvals; by rewrite length_fmap).
    assert (selected_inputs distances n !! b
            = Some (map Z.of_nat (smallest n dvals))) as Hsel.
    { unfold selected_inputs, nearest_distances.
      by rewrite !list_lookup_fmap, Hrows. }
    assert (nearest_candidates distances !! b
            = Some (map (λ keys, Z.of_nat (argmin keys)) rows)) as Hjs.
    { unfold nearest_candidates. by rewrite list_lookup_fmap, Hrows. }
    destruct (lookup_lt_is_Some_2 (smallest n dvals) i) as [s Hs].
    { rewrite smallest_length; lia. }
    assert (s < I) as HsI.
    { rewrite <- Hlen. apply (smallest_elem n). by eapply list_elem_of_lookup_2. }
    destruct (lookup_lt_is_Some_2 rows s) as [keys Hkeys]; [lia|].
    eapply Forall_lookup_1 in Hne as [HkC Hkne]; [|exact Hkeys].
    destruct (argmin_least keys Hkne) as [Hj Hleast].
    destruct (at3_shaped_row input_maps B I D b s Hin Hb HsI) as [x Hx].
    destruct (at3_shaped_row candidate_maps B C D b (argmin keys) Hcand Hb)
      as [y Hy]; [lia|].
    destruct (lookup_lt_is_Some_2 keys (argmin keys) Hj) as [dj Hdj].
    assert (∀ j', at3 distances b s j' = keys !! j') as Hat.
    { intros j'. unfold at3, row3. rewrite Hrows. simpl. by rewrite Hkeys. }
    assert ((map Z.of_nat (smallest n dvals)) !! i = Some (Z.of_nat s)) as Hzi
      by (by rewrite list_lookup_fmap, Hs).
    exists s, (argmin keys), x, y, dj.
    split; [|split; [done|split; [|split; [done|split]]]].
    + unfold row3 in *. simpl data3.
      destruct (data3 input_maps !! b) as [irows|] eqn:Hir; [|done].
      eapply selected_row; [done | | by rewrite Nat2Z.id].
      fold n. by rewrite Hsel.
    + unfold row3 in *. simpl data3.
      destruct (data3 candidate_maps !! b) as [crows|] eqn:Hcr; [|done].
      simpl in Hy.
      eapply selected_row; [| fold n; by rewrite Hsel |].
      * by rewrite lookup_zip_with, Hcr, Hjs.
      * rewrite Nat2Z.id. unfold select_rows.
        by rewrite !list_lookup_fmap, Hkeys; simpl; rewrite Nat2Z.id, Hy.
    + by rewrite Hat.
    + intros j' d' Hd'. rewrite Hat in Hd'.
      rewrite <- (key_at_lookup keys _ _ Hdj).
      rewrite <- (key_at_lookup keys _ _ Hd'). apply Hleast.
      by eapply lookup_lt_Some.
  - intros D input0 input1 candidate0 candidate1 H0 H1 H2 H3.
    rewrite (nearest_neighbors_eq _ _ example_distances (Some 1%Z) 1 2 2 D).
    + by replace (selected_inputs example_distances
                    (Z.to_nat (normalize_matches (Some 1%Z) 2)))
        with [[1%Z]] by (by vm_compute).
    + repeat (split || constructor); done.
    + repeat (split || constructor); done.
    + repeat (split || constructor).
    + lia.
    + done.
Qed.

(** C3 on the example distances with all inputs kept. *)
Lemma nearest_neighbors_pairs_witness :
  ∃ filtered_input_maps filtered_candidate_maps,
    nearest_neighbors (T3 1 2 1 [[[10]; [20]]]%Z) (T3 1 2 1 [[[30]; [40]]]%Z)
                      example_distances None
      = Ok (filtered_input_maps, filtered_candidate_maps) ∧
    has_shape3 filtered_input_maps 1 (Z.to_nat (normalize_matches None 2)) 1 ∧
    has_shape3 filtered_candidate_maps 1 (Z.to_nat (normalize_matches None 2)) 1 ∧
    ∀ b i, b < 1 → i < Z.to_nat (normalize_matches None 2) →
      ∃ s j x y dj,
        row3 filtered_input_maps b i = Some x ∧
        row3 (T3 1 2 1 [[[10]; [20]]]%Z) b s = Some x ∧
        row3 filtered_candidate_maps b i = Some y ∧
        row3 (T3 1 2 1 [[[30]; [40]]]%Z) b j = Some y ∧
        at3 example_distances b s j = Some dj ∧
        ∀ j' d', at3 example_distances b s j' = Some d' → (dj <= d')%Q.
Proof.
  apply (proj1 nearest_neighbors_pairs
           (T3 1 2 1 [[[10]; [20]]]%Z) (T3 1 2 1 [[[30]; [40]]]%Z)
           example_distances None 1 2 2 1).
  - repeat (split || constructor).
  - repeat (split || constructor).
  - repeat (split || constructor).
  - lia.
  - simpl. lia.
Defined.

(** * Further properties *)

(** ** [set_at_index] with arbitrary values *)

Lemma scatter_rows_values {A : Type} L D (idx : list Z) :
  Forall (λ i, (0 ≤ i < Z.of_nat L)%Z) idx →
  ∀ (vals rows : list (list A)),
    length vals = length idx → Forall (λ v, length v = D) vals →
    shaped2 L D rows →
    ∃ out,
      scatter_rows L (map (replicate D) idx) vals rows = Ok out ∧
      shaped2 L D out ∧
      (∀ p, Z.of_nat p ∉ idx → out !! p = rows !! p) ∧
      (NoDup idx → ∀ k i v, idx !! k = Some i → vals !! k = Some v →
         out !! Z.to_nat i = Some v).
Proof.
  induction 1 as [|i idx Hi Hidx IH]; intros vals rows Hlen Hvals Hshape.
  - exists rows. split; [done|]. split; [done|]. split; [done|].
    by intros _ k i v ?.
  - destruct vals as [|v vals]; [done|].
    apply Forall_cons in Hvals as [Hv Hvals].
    rewrite fmap_cons, scatter_rows_cons.
    rewrite (scatter_row L D) by done. rewrite bind_Ok.
    assert (shaped2 L D (<[Z.to_nat i := v]> rows)) as Hshape'.
    { destruct Hshape as [Hl Hrows]. split; [by rewrite length_insert|].
      by apply Forall_insert. }
    destruct (IH vals (<[Z.to_nat i := v]> rows)) as (out & Hout & Hs & Hframe & Hval);
      [simpl in Hlen; lia | done | done |].
    exists out. split; [done|]. split; [done|]. split.
    + intros p Hp. rewrite Hframe by (intros ?; apply Hp; by right).
      apply list_lookup_insert_ne. intros <-. apply Hp.
      rewrite Z2Nat.id by lia. left.
    + intros Hnd k j w Hj Hw. apply NoDup_cons in Hnd as [Hni Hnd].
      destruct k as [|k]; simpl in Hj, Hw.
      * injection Hj as ->. injection Hw as ->.
        rewrite Hframe by (by rewrite Z2Nat.id by lia).
        apply list_lookup_insert_eq. destruct Hshape as [Hl _]. lia.
      * by apply (Hval Hnd k).
Qed.

Lemma scatter_rows_out_of_range {A : Type} L D (idx : list Z) :
  1 ≤ D → Exists (λ i, (i < 0 ∨ Z.of_nat L ≤ i)%Z) idx →
  ∀ (vals rows : list (list A)),
    length vals = length idx → Forall (λ v, length v = D) vals →
    shaped2 L D rows →
    scatter_rows L (map (replicate D) idx) vals rows = Err IndexOutOfRange.
Proof.
  intros HD. induction idx as [|i idx IH]; intros Hex vals rows Hlen Hvals Hshape;
    [by apply Exists_nil in Hex|].
  destruct vals as [|v vals]; [done|].
  apply Forall_cons in Hvals as [Hv Hvals].
  rewrite fmap_cons, scatter_rows_cons.
  destruct (in_range L i) eqn:Hi.
  - apply in_range_true in Hi as Hi'.
    rewrite (scatter_row L D) by done. rewrite bind_Ok.
    apply Exists_cons in Hex as [Hex|Hex]; [lia|].
    apply IH; [done | simpl in Hlen; lia | done |].
    destruct Hshape as [Hl Hrows]. split; [by rewrite length_insert|].
    by apply Forall_insert.
  - destruct D as [|D]; [lia|]. destruct v as [|x v]; [done|].
    simpl. by rewrite Hi.
Qed.

Lemma scatter_rows_no_feature {A : Type} L (idx : list Z) :
  ∀ (vals rows : list (list A)),
    length vals = length idx → Forall (λ v, length v = 0) vals →
    scatter_rows L (map (replicate 0) idx) vals rows = Ok rows.
Proof.
  induction idx as [|i idx IH]; intros vals rows Hlen Hvals; [done|].
  destruct vals as [|v vals]; [done|].
  apply Forall_cons in Hvals as [Hv Hvals].
  rewrite fmap_cons, scatter_rows_cons.
  change (scatter_vec L 0 (replicate 0 i) v rows) with (Ok rows).
  rewrite bind_Ok. apply IH; [simpl in Hlen; lia | done].
Qed.

Lemma scatter_batches_values {A : Type} L D K (idxs : list (list Z)) :
  Forall (Forall (λ i, (0 ≤ i < Z.of_nat L)%Z)) idxs →
  Forall (λ idx, length idx = K) idxs →
  ∀ (valss toks : list (list (list A))),
    length toks = length idxs → Forall (shaped2 L D) toks →
    length valss = length idxs → Forall (shaped2 K D) valss →
    ∃ out,
      scatter_batches L (map (map (replicate D)) idxs) valss toks = Ok out ∧
      length out = length toks ∧
      Forall (shaped2 L D) out ∧
      ∀ b idx vals rows,
        idxs !! b = Some idx → valss !! b = Some vals → toks !! b = Some rows →
        ∃ row, out !! b = Some row ∧
          (∀ p, Z.of_nat p ∉ idx → row !! p = rows !! p) ∧
          (NoDup idx → ∀ k i v, idx !! k = Some i → vals !! k = Some v →
             row !! Z.to_nat i = Some v).
Proof.
  induction 1 as [|idx idxs Hi Hidx IH]; intros HK valss toks Hlt Htoks Hlv Hvalss.
  - destruct toks; [|done]. exists []. repeat split; try done.
  - destruct toks as [|rows toks]; [done|]. destruct valss as [|vals valss]; [done|].
    apply Forall_cons in Htoks as [Hrows Htoks].
    apply Forall_cons in Hvalss as [[Hvl Hvals] Hvalss].
    apply Forall_cons in HK as [Hk HK].
    rewrite fmap_cons, scatter_batches_cons.
    destruct (scatter_rows_values L D idx Hi vals rows) as (row & -> & Hs & Hfr & Hv);
      [lia | done | done |].
    destruct (IH HK valss toks) as (out & -> & Hl & Hall & Hrest);
      [simpl in Hlt; lia | done | simpl in Hlv; lia | done |].
    rewrite !bind_Ok. exists (row :: out).
    split; [done|]. split; [simpl; lia|]. split; [by constructor|].
    intros [|b] idx' vals' rows'; simpl.
    + intros [= <-] [= <-] [= <-]. by exists row.
    + apply Hrest.
Qed.

Lemma scatter_batches_out_of_range {A : Type} L D K (idxs : list (list Z)) :
  1 ≤ D →
  Exists (Exists (λ i, (i < 0 ∨ Z.of_nat L ≤ i)%Z)) idxs →
  Forall (λ idx, length idx = K) idxs →
  ∀ (valss toks : list (list (list A))),
    length toks = length idxs → Forall (shaped2 L D) toks →
    length valss = length idxs → Forall (shaped2 K D) valss →
    scatter_batches L (map (map (replicate D)) idxs) valss toks
    = Err IndexOutOfRange.
Proof.
  intros HD. induction idxs as [|idx idxs IH];
    intros Hex HK valss toks Hlt Htoks Hlv Hvalss; [by apply Exists_nil in Hex|].
  destruct toks as [|rows toks]; [done|]. destruct valss as [|vals valss]; [done|].
  apply Forall_cons in Htoks as [Hrows Htoks].
  apply Forall_cons in Hvalss as [[Hvl Hvals] Hvalss].
  apply Forall_cons in HK as [Hk HK].
  rewrite fmap_cons, scatter_batches_cons.
  destruct (row_in_or_out L idx) as [Hin|Hout].
  - destruct (scatter_rows_values L D idx Hin vals rows) as (row & -> & _);
      [lia | done | done |].
    rewrite bind_Ok.
    apply Exists_cons in Hex as [Hex|Hex].
    { exfalso. apply Exists_exists in Hex as (i & Hi & Ho).
      rewrite Forall_forall in Hin. specialize (Hin i Hi). lia. }
    rewrite IH; [done | done | done | | done | | done];
      [simpl in Hlt | simpl in Hlv]; lia.
  - rewrite (scatter_rows_out_of_range L D idx HD Hout); [done | lia | done | done].
Qed.

Lemma scatter_batches_no_feature {A : Type} L K (idxs : list (list Z)) :
  Forall (λ idx, length idx = K) idxs →
  ∀ (valss toks : list (list (list A))),
    length toks = length idxs →
    length valss = length idxs → Forall (shaped2 K 0) valss →
    scatter_batches L (map (map (replicate 0)) idxs) valss toks = Ok toks.
Proof.
  induction 1 as [|idx idxs Hk HK IH]; intros valss toks Hlt Hlv Hvalss; [done|].
  destruct toks as [|rows toks]; [done|]. destruct valss as [|vals valss]; [done|].
  apply Forall_cons in Hvalss as [[Hvl Hvals] Hvalss].
  rewrite fmap_cons, scatter_batches_cons.
  rewrite scatter_rows_no_feature, bind_Ok by (done || lia).
  rewrite IH; [done | | | done]; [simpl in Hlt | simpl in Hlv]; lia.
Qed.

Lemma source_data_shaped {A : Type} (idx : tensor2 Z) (src : source A) B K D :
  has_shape2 idx B K → source_shaped src B K D →
  shaped3 B K D
    (source_data (T3 (nrows idx) (ncols idx) D
                     (map (map (replicate D)) (data2 idx))) src) ∧
  source_covers (T3 B K D (map (map (replicate D)) (data2 idx))) src = true.
Proof.
  intros (Hn & Hc & Hlen & Hrows) Hsrc. destruct src as [v|x]; simpl in *.
  - destruct Hsrc as (-> & -> & -> & Hv). split; [done|].
    by rewrite !Nat.leb_refl.
  - split; [|done]. split; [by rewrite !length_fmap|].
    rewrite <- list_fmap_compose. apply Forall_fmap.
    eapply Forall_impl; [exact Hrows|]. intros row Hrow. simpl in *.
    split; [by rewrite !length_fmap|].
    rewrite <- list_fmap_compose. apply Forall_fmap, Forall_forall.
    intros i _. simpl. by rewrite length_fmap, length_replicate.
Qed.

Lemma set_at_index_unfold {A : Type} (tokens : tensor3 A) (idx : tensor2 Z)
    (src : source A) B L D K :
  has_shape3 tokens B L D → has_shape2 idx B K → source_shaped src B K D →
  set_at_index tokens idx src =
  (out ← scatter_batches L (map (map (replicate D)) (data2 idx))
          (source_data (T3 (nrows idx) (ncols idx) D
                           (map (map (replicate D)) (data2 idx))) src)
          (data3 tokens);
   Ok (T3 B L D out)).
Proof.
  intros (HB & HL & HD & _) Hidx Hsrc.
  destruct (source_data_shaped idx src B K D Hidx Hsrc) as [_ Hcov].
  destruct Hidx as (Hn & Hc & _).
  unfold set_at_index. rewrite expand_index_like_Ok, bind_Ok.
  unfold scatter. simpl dimB. simpl dimL. simpl dimD. simpl data3.
  rewrite HB, HL, HD, Hn, Hc, !Nat.leb_refl in *. by rewrite Hcov.
Qed.

(** X1: on tokens of shape [(B, L, D)], an index of shape [(B, K)] and a
    source of matching shape, [set_at_index] fails with [IndexOutOfRange]
    exactly when [D] is not 0 and some index entry is negative or at least
    [L]; when all entries are in range it returns a tensor of the shape of
    the tokens in which every row the index does not name is the row of the
    tokens. *)
Theorem set_at_index_fails_iff {A : Type} (tokens : tensor3 A) (idx : tensor2 Z)
    (src : source A) (B L D K : nat) :
  has_shape3 tokens B L D →
  has_shape2 idx B K →
  source_shaped src B K D →
  (set_at_index tokens idx src = Err IndexOutOfRange
     ↔ 1 ≤ D ∧ entry_out_of_range L idx) ∧
  (all_in_range L idx →
     ∃ out, set_at_index tokens idx src = Ok out ∧
            has_shape3 out B L D ∧
            ∀ b row p, data2 idx !! b = Some row → Z.of_nat p ∉ row →
              row3 out b p = row3 tokens b p).
Proof.
  intros Htok Hidx Hsrc.
  rewrite (set_at_index_unfold tokens idx src B L D K Htok Hidx Hsrc).
  destruct (source_data_shaped idx src B K D Hidx Hsrc) as [[Hvl Hvs] _].
  pose proof Htok as (HB & HL & HD & Hlen & Hrows).
  pose proof Hidx as (Hn & Hc & Hilen & Hirows).
  set (valss := source_data (T3 (nrows idx) (ncols idx) D
                               (map (map (replicate D)) (data2 idx))) src) in *.
  assert (all_in_range L idx →
          ∃ out, scatter_batches L (map (map (replicate D)) (data2 idx))
                   valss (data3 tokens) = Ok out ∧
                 has_shape3 (T3 B L D out) B L D ∧
                 ∀ b row p, data2 idx !! b = Some row → Z.of_nat p ∉ row →
                   row3 (T3 B L D out) b p = row3 tokens b p) as Hok.
  { intros Hin.
    destruct (scatter_batches_values L D K (data2 idx) Hin Hirows valss
                (data3 tokens))
      as (out & Hout & Hl & Hall & Hlook); [lia | done | lia | done |].
    exists out. split; [done|]. split; [repeat split; simpl; (done || lia)|].
    intros b row p Hrow Hp. unfold row3. simpl.
    destruct (lookup_lt_is_Some_2 (data3 tokens) b) as [rows Hr].
    { apply lookup_lt_Some in Hrow. lia. }
    destruct (lookup_lt_is_Some_2 valss b) as [vals Hv].
    { apply lookup_lt_Some in Hrow. lia. }
    destruct (Hlook b row vals rows Hrow Hv Hr) as (orow & Ho & Hfr & _).
    rewrite Ho, Hr. simpl. by apply Hfr. }
  split.
  - split.
    + intros Herr. destruct D as [|D].
      { rewrite (scatter_batches_no_feature L K) in Herr; (done || lia). }
      split; [lia|].
      destruct (in_or_out_of_range L idx) as [Hin|Hout]; [|done].
      destruct (Hok Hin) as (out & Hout & _). by rewrite Hout in Herr.
    + intros [H1 Hout]. apply entry_out_of_range_Exists in Hout.
      rewrite (scatter_batches_out_of_range L D K); (done || lia).
  - intros Hin. destruct (Hok Hin) as (out & -> & Hs & Hfr). rewrite bind_Ok.
    by exists (T3 B L D out).
Qed.

(** X1 on integers: an index out of range, and one in range. *)
Lemma set_at_index_fails_iff_witness :
  set_at_index (T3 1 3 2 [[[1; 2]; [3; 4]; [5; 6]]]%Z) (T2 1 1 [[3]]%Z) (Fill 0%Z)
    = Err IndexOutOfRange ∧
  set_at_index (T3 1 3 2 [[[1; 2]; [3; 4]; [5; 6]]]%Z) (T2 1 1 [[1]]%Z) (Fill 0%Z)
    = Ok (T3 1 3 2 [[[1; 2]; [0; 0]; [5; 6]]]%Z).
Proof.
  split.
  - apply (set_at_index_fails_iff
             (T3 1 3 2 [[[1; 2]; [3; 4]; [5; 6]]]%Z) (T2 1 1 [[3]]%Z) (Fill 0%Z)
             1 3 2 1).
    + repeat (split || constructor).
    + repeat (split || constructor).
    + done.
    + split; [lia|]. exists 0, 0, 3%Z. split; [done | lia].
  - reflexivity.
Defined.

(** X2: reading back at [idx] what [set_at_index] wrote at [idx] returns
    the values written, provided no row of [idx] names a position twice. *)
Theorem get_after_set {A : Type} (tokens values : tensor3 A) (idx : tensor2 Z)
    (B L D K : nat) :
  has_shape3 tokens B L D →
  has_shape2 idx B K →
  has_shape3 values B K D →
  all_in_range L idx →
  Forall NoDup (data2 idx) →
  ∃ out, set_at_index tokens idx (Values values) = Ok out ∧
         get_at_index out idx = Ok values.
Proof.
  intros Htok Hidx Hval Hin Hnd.
  rewrite (set_at_index_unfold tokens idx (Values values) B L D K Htok Hidx Hval).
  pose proof Htok as (HB & HL & HD & Hlen & Hrows).
  pose proof Hidx as (Hn & Hc & Hilen & Hirows).
  pose proof Hval as (HvB & HvL & HvD & Hvlen & Hvrows).
  simpl source_data.
  destruct (scatter_batches_values L D K (data2 idx) Hin Hirows (data3 values)
              (data3 tokens)) as (out & -> & Hl & Hall & Hlook);
    [lia | done | lia | done |].
  rewrite bind_Ok. eexists. split; [done|].
  rewrite (get_at_index_in_range _ idx B L D K); [| |done|done].
  2:{ repeat split; simpl; (done || lia). }
  simpl data3. destruct values as [vb vl vd vdata]. simpl in *. subst vb vl vd.
  do 2 f_equal. apply list_eq_same_length with B;
    [done | rewrite length_zip_with; lia |].
  intros b sel vals Hb Hsel Hvals.
  apply lookup_zip_with_Some in Hsel as (orow & row & -> & Ho & Hrow).
  destruct (lookup_lt_is_Some_2 (data3 tokens) b) as [rows Hr]; [lia|].
  destruct (Hlook b row vals rows Hrow Hvals Hr) as (orow' & Ho' & _ & Hv).
  rewrite Ho in Ho'. injection Ho' as <-.
  eapply Forall_lookup_1 in Hnd; [|exact Hrow].
  eapply Forall_lookup_1 in Hirows; [|exact Hrow].
  eapply Forall_lookup_1 in Hvrows as [Hvl _]; [|exact Hvals].
  apply list_eq_same_length with K;
    [done | unfold select_rows; by rewrite length_fmap |].
  intros k x y Hk Hx Hy. unfold select_rows in Hx.
  rewrite list_lookup_fmap in Hx.
  destruct (row !! k) as [i|] eqn:Hi; [|done]. simpl in Hx.
  rewrite (Hv Hnd k i y Hi Hy) in Hx. simpl in Hx. congruence.
Qed.

(** X2 on integers. *)
Lemma get_after_set_witness :
  ∃ out,
    set_at_index (T3 1 3 2 [[[1; 2]; [3; 4]; [5; 6]]]%Z) (T2 1 2 [[2; 0]]%Z)
                 (Values (T3 1 2 2 [[[7; 8]; [9; 10]]]%Z)) = Ok out ∧
    get_at_index out (T2 1 2 [[2; 0]]%Z) = Ok (T3 1 2 2 [[[7; 8]; [9; 10]]]%Z).
Proof.
  apply (get_after_set (T3 1 3 2 [[[1; 2]; [3; 4]; [5; 6]]]%Z)
           (T3 1 2 2 [[[7; 8]; [9; 10]]]%Z) (T2 1 2 [[2; 0]]%Z) 1 3 2 2).
  - repeat (split || constructor).
  - repeat (split || constructor).
  - repeat (split || constructor).
  - repeat constructor; lia.
  - constructor; [|constructor].
    apply (bool_decide_unpack (NoDup [2; 0]%Z)). reflexivity.
Defined.

(** ** [nearest_neighbors]: which calls are refused *)

(** X3: on well-shaped arguments [nearest_neighbors] is refused with
    [InvalidParameter] when there is no candidate ([C = 0]) or when
    [num_matches] is a negative number other than the sentinel [-1]; every
    other call returns (in particular [num_matches = 0], which returns two
    tensors without rows). *)
Theorem nearest_neighbors_refused {A : Type} (input_maps candidate_maps : tensor3 A)
    (distances : tensor3 Q) (num_matches : option Z) (B I C D : nat) :
  has_shape3 input_maps B I D →
  has_shape3 candidate_maps B C D →
  has_shape3 distances B I C →
  (C = 0 ∨ (∃ n, num_matches = Some n ∧ (n < -1)%Z) →
     nearest_neighbors input_maps candidate_maps distances num_matches
       = Err InvalidParameter) ∧
  (1 ≤ C → (∀ n, num_matches = Some n → (-1 ≤ n)%Z) →
     ∃ filtered_input_maps filtered_candidate_maps,
       nearest_neighbors input_maps candidate_maps distances num_matches
         = Ok (filtered_input_maps, filtered_candidate_maps)).
Proof.
  intros Hin Hcand Hdist. split.
  - intros Hbad. destruct (Nat.eq_dec C 0) as [->|HC].
    + destruct Hdist as (_ & _ & HD & _).
      unfold nearest_neighbors, topk_last3. by rewrite HD.
    + destruct Hbad as [?|(n & -> & Hn)]; [done|].
      unfold nearest_neighbors.
      rewrite (topk_nearest distances B I C Hdist ltac:(lia)), bind_Ok.
      cbv beta iota. rewrite squeeze_nearest, bind_Ok.
      destruct Hin as (_ & -> & _).
      unfold normalize_matches, topk_last2.
      destruct (Z.eqb_spec n (-1)); [lia|].
      destruct (Z.gtb_spec n (Z.of_nat I)); [lia|]. simpl.
      by destruct (Z.leb_spec 0 n); [lia|].
  - intros HC Hnum. eexists _, _.
    apply (nearest_neighbors_eq _ _ _ _ B I C D); try done.
    unfold normalize_matches. destruct num_matches as [n|]; [|lia].
    specialize (Hnum n eq_refl).
    destruct (Z.eqb_spec n (-1)); simpl; [lia|].
    destruct (Z.gtb_spec n (Z.of_nat I)); lia.
Qed.

(** X3 on the example distances: [-2] is refused, [0] returns nothing. *)
Lemma nearest_neighbors_refused_witness :
  nearest_neighbors (T3 1 2 1 [[[10]; [20]]]%Z) (T3 1 2 1 [[[30]; [40]]]%Z)
                    example_distances (Some (-2)%Z) = Err InvalidParameter ∧
  nearest_neighbors (T3 1 2 1 [[[10]; [20]]]%Z) (T3 1 2 1 [[[30]; [40]]]%Z)
                    example_distances (Some 0%Z)
    = Ok (T3 1 0 1 [[]], T3 1 0 1 [[]]).
Proof.
  split.
  - apply (nearest_neighbors_refused
             (T3 1 2 1 [[[10]; [20]]]%Z) (T3 1 2 1 [[[30]; [40]]]%Z)
             example_distances (Some (-2)%Z) 1 2 2 1).
    + repeat (split || constructor).
    + repeat (split || constructor).
    + repeat (split || constructor).
    + right. exists (-2)%Z. split; [done | lia].
  - reflexivity.
Defined.

(** ** The masks of [random_token_mask] as indices *)

Lemma elem_of_slice {A : Type} (n : Z) (l : list A) x :
  x ∈ slice_to n l ∨ x ∈ slice_from n l → x ∈ l.
Proof.
  intros H. rewrite <- (slice_to_from n l). apply elem_of_app. exact H.
Qed.

Lemma random_token_mask_in_range argsort B L r mct noise :
  argsort_contract argsort → has_shape2 noise B L →
  all_in_range L (random_token_mask argsort (B, L) r mct noise).1 ∧
  all_in_range L (random_token_mask argsort (B, L) r mct noise).2.
Proof.
  intros Hsort Hshape.
  destruct (random_token_mask_shapes argsort B L r mct noise Hsort Hshape)
    as [(_ & _ & Hlk & _) (_ & _ & Hlm & _)].
  assert (∀ b p (x : Z), b < B → argsort_of p.1 p.2 → length p.1 = L →
            x ∈ map Z.of_nat p.2 → (0 ≤ x < Z.of_nat L)%Z) as Hmem.
  { intros b [keys p] x _ [Hp _] Hl Hx. simpl in *.
    apply list_elem_of_fmap in Hx as (i & -> & Hi).
    rewrite Hp in Hi. apply elem_of_seq in Hi. lia. }
  split; apply Forall_lookup; intros b row Hrow; apply Forall_forall; intros x Hx.
  - assert (b < B) as Hb by (apply lookup_lt_Some in Hrow; lia).
    destruct (random_token_mask_row argsort B L r mct noise b Hsort Hshape Hb)
      as (keys & p & _ & Hlen & Hp & Hk & _).
    rewrite Hrow in Hk. injection Hk as ->.
    apply (Hmem b (keys, p) x Hb Hp Hlen). eapply elem_of_slice. by left.
  - assert (b < B) as Hb by (apply lookup_lt_Some in Hrow; lia).
    destruct (random_token_mask_row argsort B L r mct noise b Hsort Hshape Hb)
      as (keys & p & _ & Hlen & Hp & _ & Hm).
    rewrite Hrow in Hm. injection Hm as ->.
    apply (Hmem b (keys, p) x Hb Hp Hlen). eapply elem_of_slice. by right.
Qed.

(** X4: both index tensors [random_token_mask] returns can be used to read
    tokens of the same batch size and sequence length: [get_at_index]
    returns for each of them, and the two results split the [L] positions
    between them. *)
Theorem masks_select_tokens {A : Type} argsort (B L D : nat) (mask_ratio : Q)
    (mask_class_token : bool) (noise : tensor2 Q) (tokens : tensor3 A)
    (index_keep index_mask : tensor2 Z) :
  argsort_contract argsort →
  has_shape2 noise B L →
  has_shape3 tokens B L D →
  random_token_mask argsort (B, L) mask_ratio mask_class_token noise
    = (index_keep, index_mask) →
  ∃ kept masked,
    get_at_index tokens index_keep = Ok kept ∧
    get_at_index tokens index_mask = Ok masked ∧
    dimL kept + dimL masked = L ∧
    has_shape3 kept B (dimL kept) D ∧
    has_shape3 masked B (dimL masked) D.
Proof.
  intros Hsort Hshape Htok Heq.
  destruct (random_token_mask_shapes argsort B L mask_ratio mask_class_token noise
              Hsort Hshape) as [Hk Hm].
  destruct (random_token_mask_in_range argsort B L mask_ratio mask_class_token noise
              Hsort Hshape) as [Hrk Hrm].
  rewrite Heq in Hk, Hm, Hrk, Hrm. simpl in Hk, Hm, Hrk, Hrm.
  pose proof (slice_bound_le L (requested_keep L mask_ratio mask_class_token)).
  eexists _, _.
  split; [by eapply get_at_index_in_range|].
  split; [by eapply get_at_index_in_range|].
  simpl. split; [lia|].
  split; (eapply selected_shape; [done | apply Hk || apply Hm | done]).
Qed.

(** X4 on the example draw. *)
Lemma masks_select_tokens_witness :
  ∃ kept masked,
    get_at_index (T3 2 4 1 [[[1]; [2]; [3]; [4]]; [[5]; [6]; [7]; [8]]]%Z)
                 (T2 2 2 [[0; 3]; [0; 2]]%Z) = Ok kept ∧
    get_at_index (T3 2 4 1 [[[1]; [2]; [3]; [4]]; [[5]; [6]; [7]; [8]]]%Z)
                 (T2 2 2 [[2; 1]; [1; 3]]%Z) = Ok masked ∧
    dimL kept + dimL masked = 4 ∧
    has_shape3 kept 2 (dimL kept) 1 ∧
    has_shape3 masked 2 (dimL masked) 1.
Proof.
  apply (masks_select_tokens stable_argsort 2 4 1 (1 # 2) false example_noise
           (T3 2 4 1 [[[1]; [2]; [3]; [4]]; [[5]; [6]; [7]; [8]]]%Z)
           (T2 2 2 [[0; 3]; [0; 2]]%Z) (T2 2 2 [[2; 1]; [1; 3]]%Z)
           stable_argsort_contract (proj1 example_noise_draw)).
  - repeat (split || constructor).
  - reflexivity.
Defined.

Lemma protected_keep_row argsort B L r noise b :
  argsort_contract argsort → 1 ≤ L → uniform_draw B L noise → b < B →
  ∃ p',
    0 :: p' ≡ₚ seq 0 L ∧
    data2 (random_token_mask argsort (B, L) r false noise).1 !! b
      = Some (slice_to (requested_keep L r false) (0%Z :: map Z.of_nat p')) ∧
    data2 (random_token_mask argsort (B, L) r false noise).2 !! b
      = Some (slice_from (requested_keep L r false) (0%Z :: map Z.of_nat p')).
Proof.
  intros Hsort HL [Hshape Hrange] Hb.
  destruct (random_token_mask_row argsort B L r false noise b Hsort Hshape Hb)
    as (keys & p & Hkeys & Hlen & Hp & Hk & Hm).
  unfold sorted_noise in Hkeys. simpl in Hkeys.
  destruct (Nat.ltb_spec 0 L) as [_|]; [|lia].
  apply set_column0_row in Hkeys as (row & Hrow & ->).
  rewrite length_insert in Hlen.
  destruct (argsort_protected_first row p) as [p' ->]; [| |done|].
  { intros ->. simpl in Hlen. lia. }
  { eapply Forall_lookup_1 in Hrange; [|exact Hrow].
    eapply Forall_impl; [exact Hrange|]. by intros x [? _]. }
  exists p'. destruct Hp as [Hp _]. rewrite length_insert, Hlen in Hp.
  by repeat split.
Qed.

(** X5: with the class token protected and everything masked
    ([mask_ratio = 1]), [index_keep] is the single column of zeros: the
    class token is the only position kept, in every batch row. *)
Theorem only_class_token_kept argsort (B L : nat) (mask_ratio : Q)
    (noise : tensor2 Q) (index_keep index_mask : tensor2 Z) :
  argsort_contract argsort →
  1 ≤ L → (mask_ratio == 1)%Q →
  uniform_draw B L noise →
  random_token_mask argsort (B, L) mask_ratio false noise
    = (index_keep, index_mask) →
  index_keep = T2 B 1 (replicate B [0%Z]) ∧
  has_shape2 index_mask B (L - 1) ∧
  ∀ b mask, data2 index_mask !! b = Some mask → 0%Z ∉ mask.
Proof.
  intros Hsort HL Hr Hdraw Heq.
  assert (requested_keep L mask_ratio false = 1%Z) as Hk.
  { pose proof (requested_keep_all_masked L mask_ratio Hr) as H0.
    unfold requested_keep in *. simpl in *.
    destruct (Nat.ltb_spec 0 L) as [_|]; [|lia]. by rewrite H0. }
  assert (∀ n, 1 ≤ n → slice_bound n 1 = 1) as Hb1.
  { intros n Hn. unfold slice_bound. simpl. lia. }
  destruct (random_token_mask_shapes argsort B L mask_ratio false noise
              Hsort (proj1 Hdraw)) as [Hsk Hsm].
  rewrite Heq, Hk, Hb1 in Hsk, Hsm by done. simpl in Hsk, Hsm.
  split; [|split; [done|]].
  - destruct index_keep as [n m rows]. destruct Hsk as (Hn & Hm & Hl & _).
    simpl in Hn, Hm, Hl. subst n m. f_equal.
    apply list_eq_same_length with B; [by rewrite length_replicate | done |].
    intros b x y Hb Hx Hy. apply lookup_replicate in Hy as [-> _].
    destruct (protected_keep_row argsort B L mask_ratio noise b Hsort HL Hdraw Hb)
      as (p' & _ & Hrow & _).
    rewrite Heq, Hk in Hrow. simpl in Hrow. rewrite Hx in Hrow.
    injection Hrow as ->. unfold slice_to. by rewrite Hb1 by (simpl; lia).
  - intros b mask Hmask.
    assert (b < B) as Hb.
    { apply lookup_lt_Some in Hmask. destruct Hsm as (_ & _ & Hl & _). lia. }
    destruct (protected_keep_row argsort B L mask_ratio noise b Hsort HL Hdraw Hb)
      as (p' & Hp & _ & Hrow).
    rewrite Heq, Hk in Hrow. simpl in Hrow. rewrite Hmask in Hrow.
    injection Hrow as ->. unfold slice_from. rewrite Hb1 by (simpl; lia). simpl.
    assert (NoDup (0 :: p')) as Hnd by (rewrite Hp; apply NoDup_seq).
    apply NoDup_cons in Hnd as [Hni _].
    intros Hin. apply list_elem_of_fmap in Hin as (i & Hi & Hin).
    assert (i = 0) as -> by lia. done.
Qed.

(** X5 on the example draw. *)
Lemma only_class_token_kept_witness :
  T2 2 1 [[0]; [0]]%Z = T2 2 1 (replicate 2 [0%Z]) ∧
  has_shape2 (T2 2 3 [[3; 2; 1]; [2; 1; 3]]%Z) 2 (4 - 1) ∧
  ∀ b mask, data2 (T2 2 3 [[3; 2; 1]; [2; 1; 3]]%Z) !! b = Some mask → 0%Z ∉ mask.
Proof.
  apply (only_class_token_kept stable_argsort 2 4 1 example_noise
           (T2 2 1 [[0]; [0]]%Z) (T2 2 3 [[3; 2; 1]; [2; 1; 3]]%Z)
           stable_argsort_contract ltac:(lia) ltac:(reflexivity) example_noise_draw).
  reflexivity.
Defined.

(** ** Tensors are determined by their entries *)

Lemma rows_ext {A : Type} L D (x y : list (list A)) :
  shaped2 L D x → shaped2 L D y →
  (∀ p d, p < L → d < D → x !! p ≫= (.!! d) = y !! p ≫= (.!! d)) →
  x = y.
Proof.
  intros [Hlx Hx] [Hly Hy] Heq.
  apply list_eq_same_length with L; [done | done |].
  intros p u v Hp Hu Hv.
  eapply Forall_lookup_1 in Hx; [|exact Hu].
  eapply Forall_lookup_1 in Hy; [|exact Hv]. simpl in Hx, Hy.
  apply list_eq_same_length with D; [done | done |].
  intros d a b Hd Ha Hb.
  specialize (Heq p d Hp Hd). rewrite Hu, Hv in Heq. simpl in Heq.
  rewrite Ha, Hb in Heq. by injection Heq.
Qed.

Lemma tensor3_ext {A : Type} (x y : tensor3 A) B L D :
  has_shape3 x B L D → has_shape3 y B L D →
  (∀ b p d, b < B → p < L → d < D → at3 x b p d = at3 y b p d) →
  x = y.
Proof.
  intros (HxB & HxL & HxD & Hlx & Hx) (HyB & HyL & HyD & Hly & Hy) Heq.
  destruct x as [xb xl xd xdata], y as [yb yl yd ydata]. simpl in *.
  subst xb xl xd yb yl yd.
  f_equal. apply list_eq_same_length with B; [done | done |].
  intros b u v Hb Hu Hv.
  eapply Forall_lookup_1 in Hx; [|exact Hu].
  eapply Forall_lookup_1 in Hy; [|exact Hv].
  apply (rows_ext L D); [done | done |].
  intros p d Hp Hd. specialize (Heq b p d Hb Hp Hd).
  unfold at3, row3 in Heq. simpl in Heq. by rewrite Hu, Hv in Heq.
Qed.

(** ** [repeat_token] *)

Lemma tile_one {A : Type} (l : list A) : tile 1 l = l.
Proof. unfold tile. simpl. apply app_nil_r. Qed.

Lemma tile_singleton {A : Type} (n : nat) (x : A) : tile n [x] = replicate n x.
Proof. unfold tile. induction n as [|n IH]; simpl; [done | by rewrite IH]. Qed.

Lemma repeat_token_rows {A : Type} (token : tensor3 A) (B L D : nat) :
  has_shape3 token 1 1 D →
  has_shape3 (repeat_token token (B, L)) B L D ∧
  ∀ b p, b < B → p < L →
    row3 (repeat_token token (B, L)) b p = row3 token 0 0.
Proof.
  intros (HB & HL & HD & Hlen & Hrows).
  destruct token as [tb tl td data]. simpl in *. subst tb tl td.
  destruct data as [|rows [|]]; try done.
  apply Forall_cons in Hrows as [[Hrl Hrv] _].
  destruct rows as [|v [|]]; try done.
  apply Forall_cons in Hrv as [Hv _].
  unfold repeat_token, repeat3, row3. simpl.
  rewrite tile_one, !tile_singleton. split.
  - repeat split; simpl; try lia.
    + by rewrite length_replicate.
    + apply Forall_replicate. split; [by rewrite length_replicate|].
      by apply Forall_replicate.
  - intros b p Hb Hp. rewrite lookup_replicate_2 by done. simpl.
    by rewrite lookup_replicate_2.
Qed.

(** X6: [repeat_token] of a token of shape [(1, 1, D)] has shape
    [(B, L, D)] and holds the token at every position. *)
Theorem repeat_token_everywhere {A : Type} (token : tensor3 A) (B L D : nat) :
  has_shape3 token 1 1 D →
  has_shape3 (repeat_token token (B, L)) B L D ∧
  ∀ b p, b < B → p < L →
    row3 (repeat_token token (B, L)) b p = row3 token 0 0.
Proof. apply repeat_token_rows. Qed.

(** X6 on integers. *)
Lemma repeat_token_everywhere_witness :
  has_shape3 (repeat_token (T3 1 1 2 [[[7; 8]]]%Z) (2, 3)) 2 3 2 ∧
  ∀ b p, b < 2 → p < 3 →
    row3 (repeat_token (T3 1 1 2 [[[7; 8]]]%Z) (2, 3)) b p
    = row3 (T3 1 1 2 [[[7; 8]]]%Z) 0 0.
Proof.
  apply (repeat_token_everywhere (T3 1 1 2 [[[7; 8]]]%Z) 2 3 2).
  repeat (split || constructor).
Defined.

(** ** [mask_at_index] composed with the other token operations *)

(** The entries of the result of [mask_at_index], one formula for all
    positions. *)
Lemma mask_at_index_lookup {R : Type} `{BlendLaws R} (tokens : tensor3 R)
    (idx : tensor2 Z) (mask_token : tensor3 R) B L D K :
  has_shape3 tokens B L D → has_shape2 idx B K → all_in_range L idx →
  has_shape3 mask_token 1 1 D →
  ∃ out,
    mask_at_index tokens idx mask_token = Ok out ∧
    has_shape3 out B L D ∧
    ∀ b row p d, data2 idx !! b = Some row → p < L → d < D →
      at3 out b p d =
      if decide (Z.of_nat p ∈ row) then at3 mask_token 0 0 d
      else at3 tokens b p d.
Proof.
  intros Htok Hidx Hin Hmt.
  destruct (mask_of_index tokens idx B L D K Htok Hidx Hin)
    as (mask & Hmask & Hms & Hmv).
  unfold mask_at_index. rewrite Hmask, bind_Ok.
  destruct Hms as (HmB & HmL & HmD & Hmd).
  pose proof Htok as (HB & HL & HD & Htd).
  pose proof Hmt as (HtB & HtL & HtD & Hmtd).
  rewrite (elementwise_same nmul (scalar_sub num1 mask) tokens B L D), bind_Ok
    by done.
  rewrite (elementwise_token nmul mask mask_token B L D), bind_Ok by done.
  rewrite (elementwise_same nadd _ _ B L D) by done.
  eexists. split; [done|]. split.
  { split; [done|]. split; [done|]. split; [done|]. apply tabulate3_shape. }
  intros b row p d Hrow Hp Hd.
  assert (b < B) as Hb.
  { destruct Hidx as (_ & _ & Hl & _). apply lookup_lt_Some in Hrow. lia. }
  destruct (at3_shaped tokens B L D b p d Htok Hb Hp Hd) as [t Ht].
  destruct (at3_shaped mask_token 1 1 D 0 0 d Hmt) as [v Hv]; [lia | lia | done |].
  specialize (Hmv b row p d Hrow Hp Hd).
  unfold at3 at 1, row3. simpl data3.
  rewrite tabulate3_lookup by done.
  rewrite !read3_tabulate by done.
  rewrite (read3_at tokens b p d t), (read3_token mask_token b p d v)
    by (done || lia).
  rewrite (read3_at mask b p d _) by (done || lia).
  rewrite (read3_at (scalar_sub num1 mask) b p d
             (nsub num1 (if decide (Z.of_nat p ∈ row) then num1 else num0)))
    by (simpl; try lia; by rewrite at3_scalar_sub, Hmv).
  rewrite Ht, Hv. destruct (decide _).
  - by rewrite nsub_1_1, nmul_0_l, nmul_1_l, nadd_0_l.
  - by rewrite nsub_1_0, nmul_1_l, nmul_0_l, nadd_0_r.
Qed.

Lemma at3_row {A : Type} (t : tensor3 A) b p d v :
  row3 t b p = Some v → at3 t b p d = v !! d.
Proof. unfold at3. by intros ->. Qed.

(** X7: over exact arithmetic, masking every position of a token batch
    gives the mask token repeated over the batch: [mask_at_index] with an
    index that names all [L] positions in every row returns
    [repeat_token(mask_token, (B, L))]. *)
Theorem mask_everything_is_repeat {R : Type} `{BlendLaws R} (tokens : tensor3 R)
    (idx : tensor2 Z) (mask_token : tensor3 R) (B L D K : nat) :
  has_shape3 tokens B L D →
  has_shape2 idx B K →
  all_in_range L idx →
  covers_all L idx →
  has_shape3 mask_token 1 1 D →
  mask_at_index tokens idx mask_token = Ok (repeat_token mask_token (B, L)).
Proof.
  intros Htok Hidx Hin Hcov Hmt.
  destruct (mask_at_index_lookup tokens idx mask_token B L D K Htok Hidx Hin Hmt)
    as (out & -> & Hshape & Hlook).
  destruct (repeat_token_rows mask_token B L D Hmt) as [Hrs Hrow].
  f_equal. apply (tensor3_ext _ _ B L D); [done | done |].
  intros b p d Hb Hp Hd.
  destruct (lookup_lt_is_Some_2 (data2 idx) b) as [row Hr].
  { destruct Hidx as (_ & _ & Hl & _). lia. }
  rewrite (Hlook b row p d Hr Hp Hd).
  eapply Forall_lookup_1 in Hcov; [|exact Hr].
  rewrite decide_True by (by apply Hcov).
  unfold at3. by rewrite Hrow.
Qed.

(** X7 on integers. *)
Lemma mask_everything_is_repeat_witness :
  mask_at_index (T3 1 3 2 [[[1; 2]; [3; 4]; [5; 6]]]%Z) (T2 1 3 [[2; 0; 1]]%Z)
                (T3 1 1 2 [[[-1; -2]]]%Z)
  = Ok (repeat_token (T3 1 1 2 [[[-1; -2]]]%Z) (1, 3)).
Proof.
  apply (mask_everything_is_repeat (H0 := Z_blend)
           (T3 1 3 2 [[[1; 2]; [3; 4]; [5; 6]]]%Z) (T2 1 3 [[2; 0; 1]]%Z)
           (T3 1 1 2 [[[-1; -2]]]%Z) 1 3 2 3).
  - repeat (split || constructor).
  - repeat (split || constructor).
  - repeat constructor; lia.
  - constructor; [|constructor]. intros p Hp.
    destruct p as [|[|[|p]]]; [| | |lia];
      apply (bool_decide_unpack _); reflexivity.
  - repeat (split || constructor).
Defined.

Lemma row3_shaped {A : Type} (t : tensor3 A) B L D b p v :
  has_shape3 t B L D → row3 t b p = Some v → length v = D.
Proof.
  intros (_ & _ & _ & _ & Hrows) Hv. unfold row3 in Hv.
  destruct (data3 t !! b) as [rows|] eqn:Hr; [|done]. simpl in Hv.
  eapply Forall_lookup_1 in Hrows as [_ Hrv]; [|exact Hr].
  by eapply Forall_lookup_1 in Hrv.
Qed.

(** The rows of the result of [mask_at_index]. *)
Lemma mask_at_index_row {R : Type} `{BlendLaws R} (tokens : tensor3 R)
    (idx : tensor2 Z) (mask_token : tensor3 R) B L D K :
  has_shape3 tokens B L D → has_shape2 idx B K → all_in_range L idx →
  has_shape3 mask_token 1 1 D →
  ∃ out,
    mask_at_index tokens idx mask_token = Ok out ∧
    has_shape3 out B L D ∧
    ∀ b row p, data2 idx !! b = Some row → p < L →
      row3 out b p =
      if decide (Z.of_nat p ∈ row) then row3 mask_token 0 0 else row3 tokens b p.
Proof.
  intros Htok Hidx Hin Hmt.
  destruct (mask_at_index_lookup tokens idx mask_token B L D K Htok Hidx Hin Hmt)
    as (out & Hout & Hshape & Hlook).
  exists out. split; [done|]. split; [done|].
  intros b row p Hrow Hp.
  assert (b < B) as Hb.
  { destruct Hidx as (_ & _ & Hl & _). apply lookup_lt_Some in Hrow. lia. }
  destruct (at3_shaped_row out B L D b p Hshape Hb Hp) as [v Hv].
  assert (∃ w, (if decide (Z.of_nat p ∈ row) then row3 mask_token 0 0
                else row3 tokens b p) = Some w ∧ length w = D ∧
               ∀ d, d < D → v !! d = w !! d) as (w & -> & Hw & Hvw).
  { destruct (decide (Z.of_nat p ∈ row)) as [Hin'|Hin'].
    - destruct (at3_shaped_row mask_token 1 1 D 0 0 Hmt) as [w Hw]; [lia | lia |].
      exists w. split; [done|].
      split; [exact (row3_shaped mask_token 1 1 D 0 0 w Hmt Hw)|].
      intros d Hd. specialize (Hlook b row p d Hrow Hp Hd).
      rewrite decide_True in Hlook by done.
      by rewrite (at3_row out b p d v), (at3_row mask_token 0 0 d w) in Hlook.
    - destruct (at3_shaped_row tokens B L D b p Htok Hb Hp) as [w Hw].
      exists w. split; [done|].
      split; [exact (row3_shaped tokens B L D b p w Htok Hw)|].
      intros d Hd. specialize (Hlook b row p d Hrow Hp Hd).
      rewrite decide_False in Hlook by done.
      by rewrite (at3_row out b p d v), (at3_row tokens b p d w) in Hlook. }
  rewrite Hv. f_equal.
  apply list_eq_same_length with D;
    [done | exact (row3_shaped out B L D b p v Hshape Hv) |].
  intros d x y Hd Hx Hy. specialize (Hvw d Hd). congruence.
Qed.

Lemma select_rows_ext {A : Type} (rows1 rows2 : list (list A)) (idx : list Z) :
  (∀ i, i ∈ idx → rows1 !! Z.to_nat i = rows2 !! Z.to_nat i) →
  select_rows rows1 idx = select_rows rows2 idx.
Proof.
  intros Heq. unfold select_rows. apply list_fmap_ext.
  intros k i Hi. simpl. rewrite Heq; [done|]. by eapply list_elem_of_lookup_2.
Qed.

(** Reading two tensors at an index gives the same when they agree on the
    rows the index names. *)
Lemma get_at_index_ext {A : Type} (x y : tensor3 A) (idx : tensor2 Z) B L D K :
  has_shape3 x B L D → has_shape3 y B L D → has_shape2 idx B K →
  all_in_range L idx →
  (∀ b row p, data2 idx !! b = Some row → Z.of_nat p ∈ row →
     row3 x b p = row3 y b p) →
  get_at_index x idx = get_at_index y idx.
Proof.
  intros Hx Hy Hidx Hin Heq.
  rewrite (get_at_index_in_range x idx B L D K), (get_at_index_in_range y idx B L D K)
    by done.
  do 2 f_equal.
  destruct Hx as (_ & _ & _ & Hlx & _), Hy as (_ & _ & _ & Hly & _).
  pose proof Hidx as (_ & _ & Hli & _).
  apply list_eq_same_length with B; [| |]; try (rewrite length_zip_with; lia).
  intros b u v Hb Hu Hv.
  apply lookup_zip_with_Some in Hu as (xr & row & -> & Hxr & Hrow).
  apply lookup_zip_with_Some in Hv as (yr & row' & -> & Hyr & Hrow').
  rewrite Hrow in Hrow'. injection Hrow' as <-.
  apply select_rows_ext. intros i Hi.
  eapply Forall_lookup_1 in Hin; [|exact Hrow].
  rewrite Forall_forall in Hin. specialize (Hin i Hi). simpl in Hin.
  specialize (Heq b row (Z.to_nat i) Hrow). rewrite Z2Nat.id in Heq by lia.
  specialize (Heq Hi). unfold row3 in Heq. by rewrite Hxr, Hyr in Heq.
Qed.

Lemma random_token_mask_disjoint argsort B L r mct noise b keep mask :
  argsort_contract argsort → has_shape2 noise B L →
  data2 (random_token_mask argsort (B, L) r mct noise).1 !! b = Some keep →
  data2 (random_token_mask argsort (B, L) r mct noise).2 !! b = Some mask →
  ∀ x, x ∈ keep → x ∉ mask.
Proof.
  intros Hsort Hshape Hk Hm.
  destruct (random_token_mask_shapes argsort B L r mct noise Hsort Hshape)
    as [(_ & _ & Hlk & _) _].
  assert (b < B) as Hb by (apply lookup_lt_Some in Hk; lia).
  destruct (random_token_mask_row argsort B L r mct noise b Hsort Hshape Hb)
    as (keys & p & _ & Hlen & [Hp _] & Hk' & Hm').
  rewrite Hk in Hk'. rewrite Hm in Hm'. injection Hk' as ->. injection Hm' as ->.
  assert (NoDup (map Z.of_nat p)) as Hnd.
  { apply NoDup_fmap; [apply _|]. rewrite Hp. apply NoDup_seq. }
  rewrite <- (slice_to_from (requested_keep L r mct)) in Hnd.
  by apply NoDup_app in Hnd as (_ & Hdisj & _).
Qed.



(** ** [prepend_class_token] *)

Lemma prepend_class_token_Ok {A : Type} (tokens class_token : tensor3 A) B L D :
  has_shape3 tokens B L D → has_shape3 class_token 1 1 D →
  ∃ v, row3 class_token 0 0 = Some v ∧
       prepend_class_token tokens class_token
       = Ok (T3 B (S L) D (map (λ rows, v :: rows) (data3 tokens))).
Proof.
  intros (HB & HL & HD & Hlen & Hrows) (HcB & HcL & HcD & Hcl & Hcr).
  destruct class_token as [cb cl cd cdata]. simpl in *. subst cb cl cd.
  destruct cdata as [|crow [|]]; try done.
  apply Forall_cons in Hcr as [[Hrl _] _].
  destruct crow as [|v [|]]; try done.
  exists v. split; [done|].
  unfold prepend_class_token, expand_first. simpl dimB.
  assert (∀ n (toks : list (list (list A))), length toks = n →
            zip_with app (replicate n [v]) toks = map (λ rows, v :: rows) toks)
    as Hzip.
  { intros n toks <-. induction toks as [|r toks IH]; csimpl; [done|].
    by rewrite IH. }
  destruct (Nat.eqb_spec 1 (dimB tokens)) as [H1|H1].
  - change (cat1 (T3 1 1 D [[v]]) tokens = Ok (T3 B (S L) D
                (map (λ rows, v :: rows) (data3 tokens)))).
    unfold cat1. simpl. rewrite <- H1, HD, Nat.eqb_refl. simpl.
    rewrite HL. rewrite <- HB, <- H1. f_equal. f_equal.
    apply (Hzip 1). lia.
  - change (cat1 (T3 (dimB tokens) 1 D
                    (concat (map (replicate (dimB tokens)) [[v]]))) tokens
            = Ok (T3 B (S L) D (map (λ rows, v :: rows) (data3 tokens)))).
    unfold cat1. simpl.
    rewrite HD, !Nat.eqb_refl. simpl. rewrite HL, HB, app_nil_r.
    f_equal. f_equal. apply Hzip. lia.
Qed.

Lemma prepend_class_token_rows {A : Type} (tokens class_token : tensor3 A)
    (B L D Dc : nat) :
  has_shape3 tokens B L D →
  has_shape3 class_token 1 1 Dc →
  (Dc ≠ D → prepend_class_token tokens class_token = Err ShapeMismatch) ∧
  (Dc = D →
     ∃ out, prepend_class_token tokens class_token = Ok out ∧
            has_shape3 out B (S L) D ∧
            ∀ b, b < B →
              row3 out b 0 = row3 class_token 0 0 ∧
              ∀ p, row3 out b (S p) = row3 tokens b p).
Proof.
  intros Htok Hcls. split.
  - intros Hne. destruct Htok as (HB & HL & HD & _), Hcls as (HcB & HcL & HcD & _).
    unfold prepend_class_token, expand_first. rewrite HcB.
    destruct (Nat.eqb_spec 1 (dimB tokens)) as [H1|H1].
    + rewrite bind_Ok. unfold cat1. rewrite HcD, HD.
      destruct (Nat.eqb_spec Dc D); [done|]. by rewrite andb_false_r.
    + simpl. unfold cat1. simpl. rewrite HcD, HD.
      destruct (Nat.eqb_spec Dc D); [done|]. by rewrite andb_false_r.
  - intros ->.
    destruct (prepend_class_token_Ok tokens class_token B L D Htok Hcls)
      as (v & Hv & ->).
    eexists. split; [done|].
    pose proof Htok as (HB & HL & HD & Hlen & Hrows). split.
    + repeat split; simpl; [by rewrite length_fmap|].
      apply Forall_fmap. eapply Forall_impl; [exact Hrows|].
      intros rows [Hl Hr]. simpl. split; [simpl; lia|].
      constructor; [|done].
      exact (row3_shaped class_token 1 1 D 0 0 v Hcls Hv).
    + intros b Hb. unfold row3 at 1 3. simpl. rewrite list_lookup_fmap.
      destruct (lookup_lt_is_Some_2 (data3 tokens) b) as [rows Hr]; [lia|].
      rewrite Hr. simpl. split; [done|].
      intros p. unfold row3. by rewrite Hr.
Qed.

(** X9: [prepend_class_token] on tokens of shape [(B, L, D)] and a class
    token of shape [(1, 1, Dc)] is refused with [ShapeMismatch] when the
    feature sizes differ; otherwise it returns a tensor of shape
    [(B, L + 1, D)] whose position 0 is the class token and whose position
    [p + 1] is position [p] of the tokens, in every batch element. *)
Theorem prepend_class_token_first {A : Type} (tokens class_token : tensor3 A)
    (B L D Dc : nat) :
  has_shape3 tokens B L D →
  has_shape3 class_token 1 1 Dc →
  (Dc ≠ D → prepend_class_token tokens class_token = Err ShapeMismatch) ∧
  (Dc = D →
     ∃ out, prepend_class_token tokens class_token = Ok out ∧
            has_shape3 out B (S L) D ∧
            ∀ b, b < B →
              row3 out b 0 = row3 class_token 0 0 ∧
              ∀ p, row3 out b (S p) = row3 tokens b p).
Proof. apply prepend_class_token_rows. Qed.

(** X9 on integers. *)
Lemma prepend_class_token_first_witness :
  prepend_class_token (T3 2 1 2 [[[1; 2]]; [[3; 4]]]%Z) (T3 1 1 1 [[[0]]]%Z)
    = Err ShapeMismatch ∧
  prepend_class_token (T3 2 1 2 [[[1; 2]]; [[3; 4]]]%Z) (T3 1 1 2 [[[0; 9]]]%Z)
    = Ok (T3 2 2 2 [[[0; 9]; [1; 2]]; [[0; 9]; [3; 4]]]%Z).
Proof.
  split.
  - apply (prepend_class_token_first
             (T3 2 1 2 [[[1; 2]]; [[3; 4]]]%Z) (T3 1 1 1 [[[0]]]%Z) 2 1 2 1).
    + repeat (split || constructor).
    + repeat (split || constructor).
    + lia.
  - reflexivity.
Defined.

(** X10: the class token survives masking.  When a class token is
    prepended to the tokens and the mask is drawn for the longer sequence
    with [mask_class_token=False], the tokens read at [index_keep] start
    with the class token in every batch element, for every mask ratio. *)
Theorem class_token_read_first {A : Type} argsort (B L D : nat) (mask_ratio : Q)
    (noise : tensor2 Q) (tokens class_token : tensor3 A)
    (index_keep index_mask : tensor2 Z) :
  argsort_contract argsort →
  has_shape3 tokens B L D →
  has_shape3 class_token 1 1 D →
  uniform_draw B (S L) noise →
  random_token_mask argsort (B, S L) mask_ratio false noise
    = (index_keep, index_mask) →
  ∃ sequence kept,
    prepend_class_token tokens class_token = Ok sequence ∧
    get_at_index sequence index_keep = Ok kept ∧
    ∀ b, b < B → row3 kept b 0 = row3 class_token 0 0.
Proof.
  intros Hsort Htok Hcls Hdraw Heq.
  destruct (prepend_class_token_rows tokens class_token B L D D Htok Hcls)
    as [_ Hok].
  destruct (Hok eq_refl) as (sequence & Hseq & Hss & Hrow).
  destruct (random_token_mask_shapes argsort B (S L) mask_ratio false noise
              Hsort (proj1 Hdraw)) as [Hk _].
  destruct (random_token_mask_in_range argsort B (S L) mask_ratio false noise
              Hsort (proj1 Hdraw)) as [Hrk _].
  rewrite Heq in Hk, Hrk. simpl in Hk, Hrk.
  exists sequence. eexists. split; [done|].
  split; [by eapply get_at_index_in_range|].
  intros b Hb.
  destruct (protected_keep_row argsort B (S L) mask_ratio noise b Hsort
              ltac:(lia) Hdraw Hb) as (p' & _ & Hkeep & _).
  rewrite Heq in Hkeep. simpl in Hkeep.
  destruct (Hrow b Hb) as [H0 _]. rewrite <- H0.
  destruct (at3_shaped_row sequence B (S L) D b 0 Hss Hb) as [v Hv]; [lia|].
  rewrite Hv. unfold row3 in *. simpl data3.
  destruct (data3 sequence !! b) as [rows|] eqn:Hr; [|done]. simpl in Hv.
  apply (selected_row _ _ b 0 0%Z rows v); [done | | done].
  rewrite Hkeep. simpl. unfold slice_to, slice_bound, requested_keep. simpl.
  destruct (Z.ltb_spec
              (Z.max 1 (py_int (inject_Z (Z.of_nat (S L)) * (1 - mask_ratio)))) 0);
    [lia|].
  destruct (Z.to_nat _) as [|n] eqn:Hn; [|done].
  rewrite length_fmap in Hn. lia.
Qed.

(** X10 on the example draw. *)
Lemma class_token_read_first_witness :
  ∃ sequence kept,
    prepend_class_token (T3 2 3 1 [[[1]; [2]; [3]]; [[5]; [6]; [7]]]%Z)
                        (T3 1 1 1 [[[0]]]%Z) = Ok sequence ∧
    get_at_index sequence (T2 2 2 [[0; 3]; [0; 2]]%Z) = Ok kept ∧
    ∀ b, b < 2 → row3 kept b 0 = row3 (T3 1 1 1 [[[0]]]%Z) 0 0.
Proof.
  apply (class_token_read_first stable_argsort 2 3 1 (1 # 2) example_noise
           (T3 2 3 1 [[[1]; [2]; [3]]; [[5]; [6]; [7]]]%Z) (T3 1 1 1 [[[0]]]%Z)
           (T2 2 2 [[0; 3]; [0; 2]]%Z) (T2 2 2 [[2; 1]; [1; 3]]%Z)
           stable_argsort_contract).
  - repeat (split || constructor).
  - repeat (split || constructor).
  - exact example_noise_draw.
  - reflexivity.
Defined.

(** ** Batch shuffling *)

Lemma traverse_Ok_iff {A B : Type} (f : A → result B) (l : list A) (out : list B) :
  traverse f l = Ok out ↔ Forall2 (λ a b, f a = Ok b) l out.
Proof.
  revert out. induction l as [|a l IH]; intros out; simpl.
  - split; [intros [= <-]; constructor | by intros ->%Forall2_nil_inv_l].
  - destruct (f a) as [b|e] eqn:Hb.
    + rewrite bind_Ok. destruct (traverse f l) as [bs|e] eqn:Hbs.
      * rewrite bind_Ok. split.
        -- intros [= <-]. constructor; [done | by apply IH].
        -- intros (b' & bs' & Hb' & Hbs' & ->)%Forall2_cons_inv_l.
           apply IH in Hbs'. congruence.
      * rewrite bind_Err. split; [done|].
        intros (b' & bs' & _ & Hbs' & _)%Forall2_cons_inv_l.
        by apply IH in Hbs'.
    + rewrite bind_Err. split; [done|].
      intros (b' & bs' & Hb' & _)%Forall2_cons_inv_l. congruence.
Qed.

Lemma take_row_nat {A : Type} (l : list A) (i : nat) :
  take_row l (Z.of_nat i) =
  match l !! i with Some x => Ok x | None => Err IndexOutOfRange end.
Proof.
  unfold take_row. destruct (decide (i < length l)) as [Hi|Hi].
  - destruct (Z.leb_spec (- Z.of_nat (length l)) (Z.of_nat i)); [|lia].
    destruct (Z.ltb_spec (Z.of_nat i) (Z.of_nat (length l))); [|lia].
    destruct (Z.ltb_spec (Z.of_nat i) 0); [lia|]. simpl.
    by rewrite Nat2Z.id.
  - destruct (Z.ltb_spec (Z.of_nat i) (Z.of_nat (length l))); [lia|].
    rewrite andb_false_r. by rewrite lookup_ge_None_2 by lia.
Qed.

Lemma take_rows_nat {A : Type} (l : list A) (q : list nat) (out : list A) :
  take_rows l (map Z.of_nat q) = Ok out ↔ rows_at l q out.
Proof.
  unfold take_rows, rows_at. rewrite traverse_Ok_iff, Forall2_fmap_l.
  split; intros H; (eapply Forall2_impl; [exact H|]); intros i x; simpl;
    rewrite take_row_nat; destruct (l !! i); congruence.
Qed.

Lemma rows_at_total {A : Type} (l : list A) (q : list nat) :
  Forall (λ i, i < length l) q → ∃ out, rows_at l q out.
Proof.
  induction 1 as [|i q Hi _ [out IH]]; [exists []; constructor|].
  destruct (lookup_lt_is_Some_2 l i Hi) as [x Hx].
  exists (x :: out). by constructor.
Qed.

Lemma rows_at_functional {A : Type} (l : list A) q out1 out2 :
  rows_at l q out1 → rows_at l q out2 → out1 = out2.
Proof.
  intros H1. revert out2. induction H1 as [|i x q out Hx _ IH]; intros out2 H2.
  - by apply Forall2_nil_inv_l in H2.
  - apply Forall2_cons_inv_l in H2 as (y & out' & Hy & H2 & ->).
    f_equal; [congruence | by apply IH].
Qed.

Lemma rows_at_fmap {A B : Type} (f : A → B) (l : list A) q out :
  rows_at l q out → rows_at (map f l) q (map f out).
Proof.
  intros H. apply Forall2_fmap_r. eapply Forall2_impl; [exact H|].
  intros i x Hx. simpl. by rewrite list_lookup_fmap, Hx.
Qed.

Lemma rows_at_seq {A : Type} (l : list A) : rows_at l (seq 0 (length l)) l.
Proof.
  apply Forall2_same_length_lookup_2; [by rewrite length_seq|].
  intros k i x Hi Hx. apply lookup_seq in Hi as [-> _]. done.
Qed.

(** Reading through [q] and then through [p] is reading through what [p]
    reads of [q]. *)
Lemma rows_at_compose {A : Type} (l mid out : list A) (q p qp : list nat) :
  rows_at l q mid → rows_at q p qp → rows_at mid p out → rows_at l qp out.
Proof.
  intros Hq Hqp Hp.
  apply Forall2_same_length_lookup_2.
  { apply Forall2_length in Hqp, Hp. congruence. }
  intros k i x Hi Hx.
  destruct (Forall2_lookup_r _ _ _ k i Hqp Hi) as (j & Hj & Hji).
  pose proof (Forall2_lookup_lr _ _ _ k j x Hp Hj Hx) as Hmid.
  destruct (Forall2_lookup_l _ _ _ j i Hq Hji) as (y & Hy & Hly).
  congruence.
Qed.

Lemma rows_at_perm {A : Type} (l : list A) (q q' : list nat) out :
  q ≡ₚ q' → rows_at l q out → ∃ out', rows_at l q' out' ∧ out ≡ₚ out'.
Proof.
  intros Hperm. revert out.
  induction Hperm as [|i q q' _ IH|i j q|q q' q'' _ IH1 _ IH2]; intros out H.
  - apply Forall2_nil_inv_l in H as ->. exists []. split; constructor.
  - apply Forall2_cons_inv_l in H as (x & out1 & Hx & H & ->).
    destruct (IH out1 H) as (out' & H' & Hp).
    exists (x :: out'). split; [by constructor | by constructor].
  - apply Forall2_cons_inv_l in H as (x & out1 & Hx & H & ->).
    apply Forall2_cons_inv_l in H as (y & out2 & Hy & H & ->).
    exists (y :: x :: out2). split; [by repeat constructor | apply perm_swap].
  - destruct (IH1 out H) as (out1 & H1 & Hp1).
    destruct (IH2 out1 H1) as (out2 & H2 & Hp2).
    exists out2. split; [done | by etrans].
Qed.

Lemma rows_at_shuffle {A : Type} (l : list A) (q : list nat) out :
  q ≡ₚ seq 0 (length l) → rows_at l q out → out ≡ₚ l.
Proof.
  intros Hperm H. destruct (rows_at_perm l q _ out Hperm H) as (out' & H' & Hp).
  by rewrite Hp, (rows_at_functional l _ out' l H' (rows_at_seq l)).
Qed.

Lemma randperm_nat n perm :
  randperm_draw n perm → ∃ q, perm = map Z.of_nat q ∧ q ≡ₚ seq 0 n.
Proof.
  unfold randperm_draw. intros Hperm. exists (map Z.to_nat perm).
  assert (∀ l : list nat, map Z.to_nat (map Z.of_nat l) = l) as Hid.
  { induction l as [|x l IH]; csimpl; [done|]. by rewrite Nat2Z.id, IH. }
  split.
  - assert (Forall (λ x, (0 ≤ x)%Z) perm) as Hpos.
    { apply Forall_forall. intros x Hx. rewrite Hperm in Hx.
      apply list_elem_of_fmap in Hx as (i & -> & _). lia. }
    clear Hperm. induction Hpos as [|x l Hx _ IH]; csimpl; [done|].
    by rewrite Z2Nat.id, <- IH.
  - by rewrite Hperm, Hid.
Qed.

#[local] Instance nat_le_antisymm : AntiSymm eq le.
Proof. intros x y ? ?. lia. Qed.

Lemma rows_at_sorted keys (q p r : list nat) :
  (∀ i x, q !! i = Some x → key_at keys i = inject_Z (Z.of_nat x)) →
  StronglySorted (ascending keys) p → rows_at q p r → StronglySorted le r.
Proof.
  intros Hkey Hs Hr. induction Hr as [|i x p r Hx Hr IH]; [constructor|].
  apply StronglySorted_inv in Hs as [Hs Hall].
  constructor; [by apply IH|].
  apply Forall_forall. intros y Hy.
  apply list_elem_of_lookup in Hy as [k Hk].
  destruct (Forall2_lookup_r _ _ _ k y Hr Hk) as (j & Hj & Hjy).
  rewrite Forall_forall in Hall.
  specialize (Hall j (list_elem_of_lookup_2 _ _ _ Hj)).
  unfold ascending in Hall.
  rewrite (Hkey i x Hx), (Hkey j y Hjy), <- Zle_Qle in Hall. lia.
Qed.

(** Sorting a permutation of [0 .. n-1] inverts it, whichever way the sort
    treats equal keys: there are none. *)
Lemma argsort_inverts argsort n (q : list nat) :
  argsort_contract argsort → q ≡ₚ seq 0 n →
  argsort (map inject_Z (map Z.of_nat q)) ≡ₚ seq 0 n ∧
  rows_at q (argsort (map inject_Z (map Z.of_nat q))) (seq 0 n).
Proof.
  intros Hsort Hq.
  assert (length q = n) as Hlen by (by rewrite Hq, length_seq).
  set (keys := map inject_Z (map Z.of_nat q)).
  destruct (Hsort keys) as [Hp Hs].
  assert (length keys = n) as Hkl by (unfold keys; by rewrite !length_fmap).
  rewrite Hkl in Hp. split; [done|].
  assert (Forall (λ i, i < length q) (argsort keys)) as Hrange.
  { apply Forall_forall. intros i Hi. rewrite Hp in Hi.
    apply elem_of_seq in Hi. lia. }
  destruct (rows_at_total q _ Hrange) as [r Hr].
  assert (r ≡ₚ seq 0 n) as Hrp.
  { rewrite <- Hq. eapply rows_at_shuffle; [|exact Hr]. by rewrite Hlen. }
  assert (StronglySorted le r) as Hrs.
  { apply (rows_at_sorted keys q (argsort keys) r); [|done|done].
    intros i x Hx. unfold key_at, keys.
    by rewrite nth_lookup, !list_lookup_fmap, Hx. }
  assert (r = seq 0 n) as ->; [|done].
  apply (StronglySorted_unique le r (seq 0 n)); [done | | done].
  clear. generalize 0. induction n as [|n IH]; intros a; simpl; [constructor|].
  constructor; [apply IH|].
  apply Forall_forall. intros x Hx. apply elem_of_seq in Hx. lia.
Qed.



(** ** Shuffling over several processes *)

Lemma chunks_lookup {A : Type} (n size : nat) (l : list A) g :
  g < n → chunks n size l !! g = Some (take size (drop (g * size) l)).
Proof.
  revert l g. induction n as [|n IH]; intros l g Hg; [lia|].
  destruct g as [|g]; simpl; [done|].
  rewrite IH by lia. by rewrite drop_drop, (Nat.add_comm size).
Qed.

Lemma length_chunks {A : Type} (n size : nat) (l : list A) :
  length (chunks n size l) = n.
Proof. revert l. induction n as [|n IH]; intros l; simpl; [done | by rewrite IH]. Qed.

Lemma concat_chunks {A : Type} (n size : nat) (l : list A) :
  length l = n * size → concat (chunks n size l) = l.
Proof.
  revert l. induction n as [|n IH]; intros l Hl; simpl.
  - destruct l; [done | simpl in Hl; lia].
  - rewrite IH; [apply take_drop|]. rewrite length_drop. lia.
Qed.

Lemma concat_uniform_chunk {A : Type} (size : nat) (w : list (list A)) g b :
  Forall (λ x, length x = size) w → w !! g = Some b →
  take size (drop (g * size) (concat w)) = b.
Proof.
  intros Hw. revert g. induction Hw as [|x w Hx _ IH]; intros g Hg; [done|].
  destruct g as [|g].
  - injection Hg as ->. simpl. apply take_app_length'. done.
  - simpl in Hg. change (concat (x :: w)) with (x ++ concat w).
    rewrite drop_app_ge by (simpl in *; lia).
    replace (S g * size - length x) with (g * size) by (simpl in *; lia).
    by apply IH.
Qed.

Lemma length_concat_uniform {A : Type} (size : nat) (w : list (list A)) :
  Forall (λ x, length x = size) w → length (concat w) = length w * size.
Proof.
  induction 1 as [|x w Hx _ IH]; simpl; [done|]. rewrite length_app. lia.
Qed.

Lemma rows_at_piece {A : Type} (l : list A) q out size k :
  rows_at l q out →
  rows_at l (take size (drop k q)) (take size (drop k out)).
Proof. intros H. by apply Forall2_take, Forall2_drop. Qed.

Lemma concat_all_gather_own {A : Type} (size : nat) (world : list (list A)) g b :
  Forall (λ x, length x = size) world → world !! g = Some b →
  concat_all_gather g world b = Ok (concat world).
Proof.
  intros Hw Hb. unfold concat_all_gather. rewrite list_insert_id by done.
  eapply Forall_lookup_1 in Hw as Hl; [|exact Hb]. simpl in Hl.
  rewrite (proj2 (forallb_forall _ _)); [done|].
  intros x Hx. apply Nat.eqb_eq. rewrite Forall_forall in Hw.
  rewrite Hl. apply Hw. by apply list_elem_of_In.
Qed.

Lemma view_rows_uniform {A : Type} (n size : nat) (l : list A) :
  1 ≤ n → 1 ≤ size → length l = n * size →
  floor_div (n * size) size = Ok n ∧ view_rows n l = Ok (chunks n size l).
Proof.
  intros Hn Hs Hl. split.
  - unfold floor_div. destruct (Nat.eqb_spec size 0); [lia|].
    f_equal. apply Nat.div_mul. lia.
  - unfold view_rows. destruct (Nat.eqb_spec n 0); [lia|].
    rewrite Hl, (Nat.mul_comm n size), Nat.Div0.mod_mul. simpl.
    f_equal. f_equal. apply Nat.div_mul. lia.
Qed.

(** One member's view of a shuffle and of an unshuffle over [G] members
    with [n] rows each. *)
Lemma batch_shuffle_distributed_run {A : Type} argsort (G n : nat)
    (world : list (list A)) (q : list nat) g batch :
  1 ≤ n → length world = G → Forall (λ x, length x = n) world →
  length q = G * n → Forall (λ i, i < G * n) q →
  world !! g = Some batch →
  ∃ s,
    rows_at (concat world) (take n (drop (g * n) q)) s ∧
    batch_shuffle_distributed argsort g world (map Z.of_nat q) batch
    = Ok (s, argsort_ints argsort (map Z.of_nat q)).
Proof.
  intros Hn HG Hw Hq Hrange Hb.
  assert (g < G) as Hg by (apply lookup_lt_Some in Hb; lia).
  pose proof (length_concat_uniform n world Hw) as Hall. rewrite HG in Hall.
  destruct (rows_at_total (concat world) (take n (drop (g * n) q))) as [s Hs].
  { apply Forall_take, Forall_drop. by rewrite Hall. }
  exists s. split; [done|].
  unfold batch_shuffle_distributed.
  rewrite (concat_all_gather_own n world g batch Hw Hb), bind_Ok.
  eapply Forall_lookup_1 in Hw as Hl; [|exact Hb]. simpl in Hl.
  rewrite Hall, Hl.
  destruct (view_rows_uniform G n (map Z.of_nat q)) as [Hfd Hvr];
    [lia | done | by rewrite length_fmap |].
  rewrite Hfd, bind_Ok. cbv zeta. rewrite Hvr, bind_Ok.
  unfold row_at. rewrite chunks_lookup by done.
  rewrite bind_Ok, <- fmap_drop, <- fmap_take.
  by rewrite (proj2 (take_rows_nat _ _ s) Hs), bind_Ok.
Qed.

Lemma batch_unshuffle_distributed_run {A : Type} (G n : nat)
    (world : list (list A)) (p : list nat) g batch out :
  1 ≤ n → length world = G → Forall (λ x, length x = n) world →
  length p = G * n →
  world !! g = Some batch →
  rows_at (concat world) (take n (drop (g * n) p)) out →
  batch_unshuffle_distributed g world batch (map Z.of_nat p) = Ok out.
Proof.
  intros Hn HG Hw Hp Hb Hout.
  assert (g < G) as Hg by (apply lookup_lt_Some in Hb; lia).
  pose proof (length_concat_uniform n world Hw) as Hall. rewrite HG in Hall.
  unfold batch_unshuffle_distributed.
  rewrite (concat_all_gather_own n world g batch Hw Hb), bind_Ok.
  eapply Forall_lookup_1 in Hw as Hl; [|exact Hb]. simpl in Hl.
  rewrite Hall, Hl.
  destruct (view_rows_uniform G n (map Z.of_nat p)) as [Hfd Hvr];
    [lia | done | by rewrite length_fmap |].
  rewrite Hfd, bind_Ok. cbv zeta. rewrite Hvr, bind_Ok.
  unfold row_at. rewrite chunks_lookup by done.
  rewrite bind_Ok, <- fmap_drop, <- fmap_take.
  by apply take_rows_nat.
Qed.



(** ** Parameter groups *)

Lemma group_steps (all : list (String.string * parameter)) r nr :
  foldl group_step (r, nr) all =
  (r ++ map snd (filter (λ np, requires_grad np.2 ∧ ¬ unregularized np) all),
   nr ++ map snd (filter (λ np, requires_grad np.2 ∧ unregularized np) all)).
Proof.
  revert r nr. induction all as [|[name param] all IH]; intros r nr; simpl.
  - by rewrite !app_nil_r.
  - unfold unregularized. rewrite !filter_cons. simpl.
    destruct (requires_grad param) eqn:Hg;
      destruct (ends_with ".bias"%string name || (length (shape param) =? 1))
        eqn:Hu;
      simpl; rewrite IH; repeat case_decide; try (exfalso; naive_solver);
      csimpl; by rewrite <- ?app_assoc.
Qed.

(** X13: [get_params_groups] returns two groups, the second with weight
    decay 0.  Together they hold the trained parameters of the net and of
    the head, each once and in their order within a group; a parameter that
    is not trained is in neither; a trained parameter is in the second
    group exactly when its name ends in [.bias] or it has rank one. *)
Theorem get_params_groups_partition (net head : list (String.string * parameter)) :
  ∃ regularized not_regularized,
    get_params_groups net head
      = [Group regularized None; Group not_regularized (Some 0%Q)] ∧
    regularized
      = map snd (filter (λ np, requires_grad np.2 ∧ ¬ unregularized np)
                        (net ++ head)) ∧
    not_regularized
      = map snd (filter (λ np, requires_grad np.2 ∧ unregularized np)
                        (net ++ head)) ∧
    regularized ++ not_regularized
      ≡ₚ map snd (filter (λ np, requires_grad np.2) (net ++ head)).
Proof.
  unfold get_params_groups. rewrite <- foldl_app, group_steps. simpl.
  eexists _, _. split; [done|]. split; [done|]. split; [done|].
  induction (net ++ head) as [|np all IH]; [done|].
  rewrite !filter_cons.
  destruct (requires_grad np.2) eqn:Hg; destruct (unregularized np) eqn:Hu;
    simpl; repeat case_decide; try (exfalso; naive_solver); csimpl;
    rewrite <- ?IH; try done.
  by rewrite Permutation_middle.
Qed.

(** ** Pseudo labels *)

Lemma length_bind_seq {A : Type} (m : nat) (f : nat → list A) s n :
  (∀ i, length (f i) = m) → length (seq s n ≫= f) = n * m.
Proof.
  intros Hf. revert s. induction n as [|n IH]; intros s; csimpl; [done|].
  by rewrite length_app, Hf, IH.
Qed.

Lemma length_bind_seq_one {A : Type} (g : nat → A) s n :
  length (seq s n ≫= λ i, [g i]) = n.
Proof. rewrite (length_bind_seq 1) by done. lia. Qed.

Lemma lookup_bind_seq {A : Type} (m : nat) (f : nat → list A) s n i j :
  (∀ i, length (f i) = m) → i < n → j < m →
  (seq s n ≫= f) !! (i * m + j) = f (s + i) !! j.
Proof.
  intros Hf. revert s i. induction n as [|n IH]; intros s i Hi Hj; [lia|].
  csimpl. destruct i as [|i].
  - rewrite lookup_app_l by (rewrite Hf; lia). by rewrite Nat.add_0_r.
  - rewrite lookup_app_r by (rewrite Hf; lia). rewrite Hf.
    replace (S i * m + j - m) with (i * m + j) by lia.
    rewrite IH by lia. f_equal. f_equal. lia.
Qed.

Lemma lookup_tile {A : Type} (l : list A) k i j :
  i < k → j < length l → tile k l !! (i * length l + j) = l !! j.
Proof.
  unfold tile. revert i. induction k as [|k IH]; intros i Hi Hj; [lia|].
  csimpl. destruct i as [|i].
  - by rewrite lookup_app_l by lia.
  - rewrite lookup_app_r by lia.
    replace (S i * length l + j - length l) with (i * length l + j) by lia.
    apply IH; lia.
Qed.

Lemma length_tile {A : Type} (l : list A) k : length (tile k l) = k * length l.
Proof.
  unfold tile. induction k as [|k IH]; csimpl; [done|].
  by rewrite length_app, IH.
Qed.

Lemma infer_size_last (a b : Z) (n : nat) :
  (1 ≤ a)%Z → (1 ≤ b)%Z → n `mod` (Z.to_nat a * Z.to_nat b) = 0 →
  infer_size [a; b; -1]%Z n
    = Ok [Z.to_nat a; Z.to_nat b; n / (Z.to_nat a * Z.to_nat b)].
Proof.
  intros Ha Hb Hn. unfold infer_size.
  assert (existsb (λ s, s <? -1)%Z [a; b; (-1)%Z] = false) as ->.
  { cbn [existsb]. repeat (rewrite (proj2 (Z.ltb_ge _ _)) by lia). done. }
  rewrite !filter_cons, !filter_nil.
  repeat case_decide; try lia. cbn [length fmap list_fmap numel foldr].
  rewrite Nat.mul_1_r.
  assert ((0 <? Z.to_nat a * Z.to_nat b) = true) as -> by (apply Nat.ltb_lt; nia).
  rewrite Hn. cbn [andb Nat.eqb].
  rewrite (proj2 (Z.eqb_neq a (-1))), (proj2 (Z.eqb_neq b (-1))) by lia.
  done.
Qed.

Lemma infer_size_exact (a b : Z) (n : nat) :
  (0 ≤ a)%Z → (0 ≤ b)%Z → Z.to_nat a * Z.to_nat b = n →
  infer_size [a; b] n = Ok [Z.to_nat a; Z.to_nat b].
Proof.
  intros Ha Hb Hn. unfold infer_size.
  assert (existsb (λ s, s <? -1)%Z [a; b] = false) as ->.
  { cbn [existsb]. repeat (rewrite (proj2 (Z.ltb_ge _ _)) by lia). done. }
  rewrite !filter_cons, !filter_nil.
  repeat case_decide; try lia. cbn [length fmap list_fmap numel foldr].
  rewrite Nat.mul_1_r, Hn, Nat.eqb_refl. done.
Qed.

Lemma eye_entries (n i j : nat) :
  i < n → j < n →
  (i ← seq 0 n; j ← seq 0 n; [if i =? j then 1%Q else 0%Q]) !! (i * n + j)
    = Some (if i =? j then 1%Q else 0%Q).
Proof.
  intros Hi Hj.
  rewrite (lookup_bind_seq n) by (done || intros; apply length_bind_seq_one).
  replace j with (j * 1 + 0) at 1 by lia.
  by rewrite (lookup_bind_seq 1) by (done || lia).
Qed.

(** X14: for [topk ≥ 1] and [batch ≥ 1], [generation_mask] returns a
    tensor of shape [(batch, topk * batch)] whose row [i] holds 1 in the
    columns [i * topk .. i * topk + topk - 1] and 0 elsewhere. *)
Theorem generation_mask_blocks (topk batch : Z) :
  (1 ≤ topk)%Z → (1 ≤ batch)%Z →
  ∃ mask,
    generation_mask topk batch = Ok mask ∧
    sizes mask = [Z.to_nat batch; Z.to_nat topk * Z.to_nat batch] ∧
    ∀ i j, i < Z.to_nat batch → j < Z.to_nat topk * Z.to_nat batch →
      entry mask [i; j]
        = Some (if j / Z.to_nat topk =? i then 1%Q else 0%Q).
Proof.
  intros Ht Hb. unfold generation_mask, eye.
  rewrite (proj2 (Z.ltb_ge batch 0)) by lia. rewrite bind_Ok.
  set (B := Z.to_nat batch). set (T := Z.to_nat topk).
  set (E := i ← seq 0 B; j ← seq 0 B; [if i =? j then 1%Q else 0%Q]).
  assert (1 ≤ B) as HB by (subst B; lia).
  assert (1 ≤ T) as HT by (subst T; lia).
  assert (length E = B * B) as HE.
  { subst E. apply length_bind_seq. intros. apply length_bind_seq_one. }
  unfold repeat_rows. cbn [sizes entries].
  rewrite (proj2 (Z.ltb_ge topk 0)) by lia. rewrite bind_Ok. fold T.
  unfold reshape. cbn [sizes entries].
  rewrite length_tile, HE.
  rewrite infer_size_last; [|done|done|].
  2:{ fold T B. replace (T * (B * B)) with (B * (T * B)) by lia.
      apply Nat.Div0.mod_mul. }
  fold T B. rewrite !bind_Ok.
  replace (T * (B * B) / (T * B)) with B.
  2:{ replace (T * (B * B)) with (B * (T * B)) by lia.
      symmetry. apply Nat.div_mul. nia. }
  unfold permute_2_1_0. cbn [sizes entries]. rewrite bind_Ok.
  set (P := x ← seq 0 B; y ← seq 0 B; z ← seq 0 T;
            [nth ((z * B + y) * B + x) (tile T E) 0%Q]).
  assert (∀ x, length (y ← seq 0 B; z ← seq 0 T;
            [nth ((z * B + y) * B + x) (tile T E) 0%Q]) = B * T) as Hrow.
  { intros x. apply length_bind_seq. intros. apply length_bind_seq_one. }
  assert (length P = B * (B * T)) as HP by (subst P; by apply length_bind_seq).
  cbn [sizes entries]. rewrite HP.
  rewrite infer_size_exact; [|lia|nia|].
  2:{ rewrite Z2Nat.inj_mul by lia. fold T B. lia. }
  rewrite bind_Ok. rewrite Z2Nat.inj_mul by lia. fold T B.
  eexists. split; [done|]. split; [done|].
  intros i j Hi Hj. unfold entry. cbn [sizes entries offset].
  rewrite (proj2 (Nat.ltb_lt i B)), (proj2 (Nat.ltb_lt j (T * B))) by done.
  csimpl.
  assert (j / T < B) as Hy by (apply Nat.Div0.div_lt_upper_bound; lia).
  assert (j `mod` T < T) as Hz by (apply Nat.mod_upper_bound; lia).
  assert (j = j / T * T + j `mod` T) as Hj'.
  { rewrite (Nat.div_mod_eq j T) at 1. lia. }
  replace (i * (T * B) + j) with (i * (B * T) + j) by lia.
  subst P. rewrite (lookup_bind_seq (B * T)) by (done || lia).
  rewrite Hj' at 1.
  rewrite (lookup_bind_seq T) by (done || intros; apply length_bind_seq_one).
  replace (j `mod` T) with (j `mod` T * 1 + 0) at 1 by lia.
  rewrite (lookup_bind_seq 1) by (done || lia).
  cbn [lookup list_lookup]. f_equal. rewrite !Nat.add_0_l.
  apply nth_lookup_Some.
  replace ((j `mod` T * B + j / T) * B + i)
    with (j `mod` T * length E + (j / T * B + i)) by (rewrite HE; lia).
  rewrite lookup_tile by (rewrite ?HE; nia).
  subst E. by rewrite eye_entries.
Qed.

(** X14 for two neighbours and a batch of three. *)
Lemma generation_mask_blocks_witness :
  ∃ mask,
    generation_mask 2 3 = Ok mask ∧
    sizes mask = [3; 6] ∧
    ∀ i j, i < 3 → j < 6 →
      entry mask [i; j] = Some (if j / 2 =? i then 1%Q else 0%Q).
Proof. apply (generation_mask_blocks 2 3); lia. Defined.

(** X15: [generation_mask] raises when [topk] or [batch] is 0 or
    negative: a negative size is refused by [eye] or by [repeat], and with
    no entries the size [-1] of the first [reshape] cannot be inferred. *)
Theorem generation_mask_refused (topk batch : Z) :
  (topk ≤ 0 ∨ batch ≤ 0)%Z →
  generation_mask topk batch
    = Err (if (topk <? 0)%Z || (batch <? 0)%Z then InvalidParameter
           else ShapeMismatch).
Proof.
  intros H. unfold generation_mask, eye.
  destruct (batch <? 0)%Z eqn:Hb; [by rewrite orb_true_r|].
  rewrite bind_Ok. unfold repeat_rows. cbn [sizes entries].
  destruct (topk <? 0)%Z eqn:Ht; [done|].
  rewrite bind_Ok. cbn [orb].
  apply Z.ltb_ge in Hb, Ht.
  unfold reshape. cbn [sizes entries]. unfold infer_size.
  assert (existsb (λ s, s <? -1)%Z [topk; batch; (-1)%Z] = false) as ->.
  { cbn [existsb]. repeat (rewrite (proj2 (Z.ltb_ge _ _)) by lia). done. }
  rewrite !filter_cons, !filter_nil.
  repeat case_decide; try lia. cbn [length fmap list_fmap numel foldr].
  assert ((0 <? Z.to_nat topk * (Z.to_nat batch * 1)) = false) as ->.
  { apply Nat.ltb_ge. destruct H; nia. }
  done.
Qed.

(** X15 for no neighbours. *)
Lemma generation_mask_refused_witness :
  generation_mask 0 3 = Err ShapeMismatch.
Proof. apply (generation_mask_refused 0 3). lia. Defined.

(** ** CutMix boxes *)

Lemma binary_sqrt_nonneg (x : Q) : (0 <= binary_sqrt x)%Q.
Proof.
  unfold binary_sqrt, Qle. simpl. rewrite Z.mul_1_r. apply Z.sqrt_nonneg.
Qed.

Lemma py_int_le (x : Q) : (0 <= x)%Q → (0 ≤ py_int x)%Z ∧ (inject_Z (py_int x) <= x)%Q.
Proof.
  intros Hx. rewrite py_int_floor by done. split.
  - change 0%Z with (Qfloor 0). by apply Qfloor_resp_le.
  - apply Qfloor_le.
Qed.

Lemma clip_box (c cut len : Z) :
  (0 ≤ cut)%Z → (0 ≤ c < len)%Z →
  (0 ≤ clip (c - cut `div` 2) 0 len ≤ c)%Z ∧
  (c ≤ clip (c + cut `div` 2) 0 len ≤ len)%Z ∧
  (clip (c + cut `div` 2) 0 len - clip (c - cut `div` 2) 0 len ≤ cut)%Z.
Proof.
  intros Hcut Hc. unfold clip.
  assert (0 ≤ cut `div` 2)%Z by (apply Z.div_pos; lia).
  assert (2 * (cut `div` 2) ≤ cut)%Z by (apply Z.mul_div_le; lia).
  lia.
Qed.



(** ** Schedules *)

Lemma taylor_cos_range (x : Q) : (-1 <= taylor_cos x)%Q ∧ (taylor_cos x <= 1)%Q.
Proof.
  unfold taylor_cos. split.
  - apply Q.le_max_l.
  - apply Q.max_lub; [done|]. apply Q.le_min_l.
Qed.

Lemma linspace_Ok (start stop : Q) (num : Z) :
  (0 ≤ num)%Z →
  ∃ l, linspace start stop num = Ok l ∧ length l = Z.to_nat num ∧
       ((1 ≤ num)%Z → ∃ v, l !! 0 = Some v ∧ (v == start)%Q) ∧
       ((2 ≤ num)%Z → l !! (Z.to_nat num - 1) = Some stop).
Proof.
  intros Hn. unfold linspace. rewrite (proj2 (Z.ltb_ge num 0)) by lia.
  eexists. split; [done|]. cbv zeta.
  set (y := map _ (seq 0 (Z.to_nat num))).
  assert (length y = Z.to_nat num) as Hy.
  { subst y. by rewrite length_fmap, length_seq. }
  assert ((1 ≤ num)%Z → ∃ v, y !! 0 = Some v ∧ (v == start)%Q) as Hfirst.
  { intros H1. subst y. destruct (Z.to_nat num) eqn:E; [lia|]. csimpl.
    eexists. split; [done|]. change (inject_Z (Z.of_nat 0)) with 0%Q. ring. }
  destruct (1 <? num)%Z eqn:H1.
  - apply Z.ltb_lt in H1. rewrite length_insert. split; [done|]. split.
    + intros _. rewrite list_lookup_insert_ne by lia. apply Hfirst. lia.
    + intros _. replace (Z.to_nat num - 1) with (Z.to_nat (num - 1)) by lia.
      apply list_lookup_insert_eq. lia.
  - apply Z.ltb_ge in H1. split; [done|]. split; [done|lia].
Qed.

Lemma cosine_scheduler_run (cos : Q → Q) (pi base_value final_value : Q)
    (epochs niter_per_ep warmup_epochs : Z) (start_warmup_value : Q) :
  (1 ≤ niter_per_ep)%Z → (0 ≤ warmup_epochs ≤ epochs)%Z →
  ∃ warmup decay,
    cosine_scheduler cos pi base_value final_value epochs niter_per_ep
      warmup_epochs start_warmup_value = Ok (warmup ++ decay) ∧
    length warmup = Z.to_nat (warmup_epochs * niter_per_ep) ∧
    length decay = Z.to_nat ((epochs - warmup_epochs) * niter_per_ep) ∧
    ((1 ≤ warmup_epochs)%Z →
       linspace start_warmup_value base_value (warmup_epochs * niter_per_ep)
         = Ok warmup) ∧
    Forall (λ v, ∃ x, v = (final_value + (1 # 2) * (base_value - final_value)
                             * (1 + cos x))%Q) decay.
Proof.
  intros Hn Hw. unfold cosine_scheduler.
  set (first := if (0 <? warmup_epochs)%Z then _ else _).
  assert (∃ warmup, first = Ok warmup ∧
            length warmup = Z.to_nat (warmup_epochs * niter_per_ep) ∧
            ((1 ≤ warmup_epochs)%Z →
               linspace start_warmup_value base_value
                 (warmup_epochs * niter_per_ep) = Ok warmup))
    as (warmup & -> & Hlen & Hlin).
  { subst first. destruct (0 <? warmup_epochs)%Z eqn:E.
    - destruct (linspace_Ok start_warmup_value base_value
                  (warmup_epochs * niter_per_ep)) as (l & Hl & Hll & _);
        [nia|]. eauto.
    - apply Z.ltb_ge in E. exists []. split; [done|].
      split; [|lia]. replace warmup_epochs with 0%Z by lia. done. }
  rewrite bind_Ok. cbv zeta.
  set (decay := map _ (arange _)).
  assert (length decay = Z.to_nat ((epochs - warmup_epochs) * niter_per_ep))
    as Hdecay.
  { subst decay. unfold arange. rewrite !length_fmap, length_seq. f_equal. lia. }
  rewrite length_app, Hlen, Hdecay.
  rewrite (proj2 (Z.eqb_eq _ _)) by nia.
  exists warmup, decay. repeat split; try done.
  subst decay. apply Forall_fmap, Forall_forall. intros i _. simpl. eauto.
Qed.

(** X17: with [niter_per_ep ≥ 1] and [warmup_epochs ≥ 0],
    [cosine_scheduler] returns one value for each of the
    [epochs * niter_per_ep] iterations when the warm-up is no longer than
    the training; when it is longer the final assertion fails. *)
Theorem cosine_scheduler_length (cos : Q → Q) (pi base_value final_value : Q)
    (epochs niter_per_ep warmup_epochs : Z) (start_warmup_value : Q) :
  (1 ≤ niter_per_ep)%Z → (0 ≤ warmup_epochs)%Z →
  ((epochs < warmup_epochs)%Z →
     cosine_scheduler cos pi base_value final_value epochs niter_per_ep
       warmup_epochs start_warmup_value = Err InvalidParameter) ∧
  ((warmup_epochs ≤ epochs)%Z →
     ∃ schedule,
       cosine_scheduler cos pi base_value final_value epochs niter_per_ep
         warmup_epochs start_warmup_value = Ok schedule ∧
       Z.of_nat (length schedule) = (epochs * niter_per_ep)%Z).
Proof.
  intros Hn Hw. split.
  - intros Hlt. unfold cosine_scheduler.
    set (first := if (0 <? warmup_epochs)%Z then _ else _).
    assert (∃ warmup, first = Ok warmup ∧
              length warmup = Z.to_nat (warmup_epochs * niter_per_ep))
      as (warmup & -> & Hlen).
    { subst first. destruct (0 <? warmup_epochs)%Z eqn:E.
      - destruct (linspace_Ok start_warmup_value base_value
                    (warmup_epochs * niter_per_ep)) as (l & Hl & Hll & _);
          [nia|]. eauto.
      - apply Z.ltb_ge in E. exists []. split; [done|].
        replace warmup_epochs with 0%Z by lia. done. }
    rewrite bind_Ok. cbv zeta. unfold arange.
    rewrite length_app, !length_fmap, length_seq, Hlen.
    rewrite (proj2 (Z.eqb_neq _ _)) by nia. done.
  - intros Hle.
    destruct (cosine_scheduler_run cos pi base_value final_value epochs
                niter_per_ep warmup_epochs start_warmup_value Hn
                (conj Hw Hle)) as (w & c & Hrun & Hlw & Hlc & _).
    exists (w ++ c). split; [done|]. rewrite length_app, Hlw, Hlc. nia.
Qed.

(** X17 for ten epochs of four iterations, two of them warm-up. *)
Lemma cosine_scheduler_length_witness :
  ∃ schedule,
    cosine_scheduler taylor_cos (355 # 113) 1 0 10 4 2 0 = Ok schedule ∧
    Z.of_nat (length schedule) = (10 * 4)%Z.
Proof.
  apply (cosine_scheduler_length taylor_cos (355 # 113) 1 0 10 4 2 0); lia.
Defined.



(** X19: a schedule with warm-up starts at [start_warmup_value]; when the
    warm-up has two iterations or more, its last value is [base_value]. *)
Theorem cosine_scheduler_warmup (cos : Q → Q) (pi base_value final_value : Q)
    (epochs niter_per_ep warmup_epochs : Z) (start_warmup_value : Q) :
  (1 ≤ niter_per_ep)%Z → (1 ≤ warmup_epochs ≤ epochs)%Z →
  ∃ schedule,
    cosine_scheduler cos pi base_value final_value epochs niter_per_ep
      warmup_epochs start_warmup_value = Ok schedule ∧
    (∃ v, schedule !! 0 = Some v ∧ (v == start_warmup_value)%Q) ∧
    ((2 ≤ warmup_epochs * niter_per_ep)%Z →
       schedule !! (Z.to_nat (warmup_epochs * niter_per_ep) - 1)
         = Some base_value).
Proof.
  intros Hn Hw.
  destruct (cosine_scheduler_run cos pi base_value final_value epochs
              niter_per_ep warmup_epochs start_warmup_value Hn)
    as (w & c & Hrun & Hlw & Hlc & Hlin & _); [lia|].
  destruct (linspace_Ok start_warmup_value base_value
              (warmup_epochs * niter_per_ep)) as (l & Hl & _ & Hfirst & Hlast);
    [nia|].
  rewrite Hlin in Hl by lia. injection Hl as <-.
  exists (w ++ c). split; [done|]. split.
  - destruct Hfirst as (v & Hv & Heq); [nia|].
    exists v. split; [|done]. rewrite lookup_app_l by (rewrite Hlw; nia). done.
  - intros H2. rewrite lookup_app_l by (rewrite Hlw; lia). by apply Hlast.
Qed.

(** X19 for a learning rate that warms up from 0 over two epochs. *)
Lemma cosine_scheduler_warmup_witness :
  ∃ schedule,
    cosine_scheduler taylor_cos (355 # 113) 1 0 10 4 2 0 = Ok schedule ∧
    (∃ v, schedule !! 0 = Some v ∧ (v == 0)%Q) ∧
    ((2 ≤ 2 * 4)%Z → schedule !! (Z.to_nat (2 * 4) - 1) = Some 1%Q).
Proof.
  apply (cosine_scheduler_warmup taylor_cos (355 # 113) 1 0 10 4 2 0); lia.
Defined.

(** ** Patches *)

Lemma infer_size_known (shape : list Z) (n : nat) :
  Forall (λ s, 0 ≤ s)%Z shape → numel (map Z.to_nat shape) = n →
  infer_size shape n = Ok (map Z.to_nat shape).
Proof.
  intros Hs Hn. unfold infer_size.
  assert (existsb (λ s, s <? -1)%Z shape = false) as ->.
  { clear Hn. induction Hs as [|s shape H0 _ IH]; [done|]. cbn [existsb].
    by rewrite (proj2 (Z.ltb_ge s (-1))) by lia. }
  assert (filter (λ s, s = (-1)%Z) shape = []) as ->.
  { clear Hn. induction Hs as [|s shape H0 _ IH]; [done|].
    rewrite filter_cons. case_decide; [lia|done]. }
  assert (filter (λ s, s ≠ (-1)%Z) shape = shape) as ->.
  { clear Hn. induction Hs as [|s shape H0 _ IH]; [done|].
    rewrite filter_cons. case_decide; [by rewrite IH|lia]. }
  cbn [length]. by rewrite Hn, Nat.eqb_refl.
Qed.

Lemma offset_lt (i j n m : nat) : i < n → j < m → i * m + j < n * m.
Proof.
  intros Hi Hj. apply (Nat.lt_le_trans _ (S i * m)); [lia|].
  apply Nat.mul_le_mono_r. lia.
Qed.

Ltac bind_lengths :=
  intros;
  repeat first [apply length_bind_seq_one | apply length_bind_seq; intros].

(** X20: for images of shape [(N, C, H, H)] and a positive [patch_size]
    that divides [H], [patchify] returns a tensor of shape
    [(N, (H / patch_size)², patch_size² · C)].  Patch [h * (H / patch_size)
    + w] of image [n] holds at [(p * patch_size + q) * C + c] the pixel of
    channel [c] at row [h * patch_size + p] and column
    [w * patch_size + q]. *)
Theorem patchify_pixels (images : dense Q) (N C H : nat) (patch_size : Z) :
  sizes images = [N; C; H; H] → well_formed images →
  (1 ≤ patch_size)%Z → (Z.of_nat H `mod` patch_size = 0)%Z →
  let ps := Z.to_nat patch_size in
  let side := H / ps in
  ∃ patches,
    patchify images patch_size = Ok patches ∧
    sizes patches = [N; side * side; ps * ps * C] ∧
    ∀ n h w p q c,
      n < N → h < side → w < side → p < ps → q < ps → c < C →
      entry patches [n; h * side + w; (p * ps + q) * C + c]
        = entry images [n; c; h * ps + p; w * ps + q].
Proof.
  intros Hsizes Hwf Hps Hdiv ps side.
  assert (1 ≤ ps) as Hps' by (subst ps; lia).
  assert (H = side * ps) as HH.
  { subst side. apply Z.mod_divide in Hdiv; [|lia].
    destruct Hdiv as [k Hk].
    assert (H = Z.to_nat k * ps) as -> by (subst ps; nia).
    by rewrite Nat.div_mul by lia. }
  assert (Z.of_nat H `div` patch_size = Z.of_nat side)%Z as Hside.
  { subst side ps. rewrite Nat2Z.inj_div, Z2Nat.id by lia. done. }
  clearbody side. unfold well_formed in Hwf. rewrite Hsizes in Hwf. cbn [numel foldr] in Hwf.
  unfold patchify. rewrite Hsizes.
  rewrite (proj2 (Z.eqb_neq patch_size 0)) by lia.
  rewrite Z.eqb_refl, Hdiv. cbn [andb negb Z.eqb]. rewrite Hside.
  unfold reshape. rewrite Hwf.
  rewrite infer_size_known.
  2:{ repeat constructor; lia. }
  2:{ cbn [fmap list_fmap numel foldr]. rewrite !Nat2Z.id. fold ps. nia. }
  rewrite bind_Ok. cbn [fmap list_fmap]. rewrite !Nat2Z.id. fold ps.
  rewrite bind_Ok. unfold einsum_nchpwq_nhwpqc. cbn [sizes entries].
  rewrite bind_Ok. cbn [sizes entries].
  set (P := n ← seq 0 N; _).
  assert (length P = N * (side * (side * (ps * (ps * C))))) as HP.
  { subst P. bind_lengths. }
  rewrite HP.
  rewrite infer_size_known.
  2:{ repeat constructor; lia. }
  2:{ cbn [fmap list_fmap numel foldr].
      rewrite Z.pow_2_r, !Z2Nat.inj_mul, !Nat2Z.id by lia.
      fold ps. nia. }
  rewrite bind_Ok. cbn [fmap list_fmap].
  rewrite Z.pow_2_r, !Z2Nat.inj_mul, !Nat2Z.id by lia. fold ps.
  eexists. split; [done|]. split; [done|].
  intros n h w p q c Hn Hh Hw Hp Hq Hc.
  unfold entry. cbn [sizes entries offset]. rewrite Hsizes. cbn [offset].
  rewrite (proj2 (Nat.ltb_lt n N)), (proj2 (Nat.ltb_lt c C)) by done.
  assert (h * side + w < side * side) as Hhw by by apply offset_lt.
  assert (p * ps + q < ps * ps) as Hpq by by apply offset_lt.
  assert ((p * ps + q) * C + c < ps * ps * C) as Hpqc by by apply offset_lt.
  assert (h * ps + p < H) as Hhp by (rewrite HH; by apply offset_lt).
  assert (w * ps + q < H) as Hwq by (rewrite HH; by apply offset_lt).
  rewrite (proj2 (Nat.ltb_lt (h * side + w) (side * side))) by done.
  rewrite (proj2 (Nat.ltb_lt ((p * ps + q) * C + c) (ps * ps * C))) by done.
  rewrite (proj2 (Nat.ltb_lt (h * ps + p) H)) by done.
  rewrite (proj2 (Nat.ltb_lt (w * ps + q) H)) by done.
  csimpl.
  replace ((n * (side * side) + (h * side + w)) * (ps * ps * C)
           + ((p * ps + q) * C + c))
    with (n * (side * (side * (ps * (ps * C))))
          + (h * (side * (ps * (ps * C)))
             + (w * (ps * (ps * C)) + (p * (ps * C) + (q * C + c))))) by lia.
  subst P.
  rewrite (lookup_bind_seq (side * (side * (ps * (ps * C)))));
    [|bind_lengths|done|nia].
  rewrite (lookup_bind_seq (side * (ps * (ps * C)))); [|bind_lengths|done|nia].
  rewrite (lookup_bind_seq (ps * (ps * C))); [|bind_lengths|done|nia].
  rewrite (lookup_bind_seq (ps * C)); [|bind_lengths|done|nia].
  rewrite (lookup_bind_seq C); [|bind_lengths|done|done].
  replace c with (c * 1 + 0) at 1 by lia.
  rewrite (lookup_bind_seq 1) by (done || lia).
  cbn [lookup list_lookup]. rewrite !Nat.add_0_l.
  assert (((((n * C + c) * side + h) * ps + p) * side + w) * ps + q
          < length (entries images)) as Hlt.
  { rewrite Hwf.
    replace (N * (C * (H * (H * 1)))) with (N * C * side * ps * side * ps)
      by (rewrite HH; lia).
    by repeat apply offset_lt. }
  apply lookup_lt_is_Some in Hlt. destruct Hlt as [v Hv].
  rewrite (nth_lookup_Some _ _ _ _ Hv). rewrite <- Hv. f_equal. lia.
Qed.

(** X20 for patches of two by two pixels. *)
Lemma patchify_pixels_witness :
  ∃ patches,
    patchify example_images 2 = Ok patches ∧
    sizes patches = [1; 2 * 2; 2 * 2 * 2] ∧
    ∀ n h w p q c,
      n < 1 → h < 2 → w < 2 → p < 2 → q < 2 → c < 2 →
      entry patches [n; h * 2 + w; (p * 2 + q) * 2 + c]
        = entry example_images [n; c; h * 2 + p; w * 2 + q].
Proof.
  apply (patchify_pixels example_images 1 2 4 2).
  - reflexivity.
  - reflexivity.
  - lia.
  - reflexivity.
Defined.

(** ** Multi-crop forward pass *)

Lemma runs_cons {A : Type} (key : A → nat) (a : A) (l : list A) :
  runs key (a :: l) =
  match head l, runs key l with
  | Some b, g :: gs => if key a =? key b then (a :: g) :: gs else [a] :: g :: gs
  | _, _ => [[a]]
  end.
Proof. done. Qed.

Lemma runs_head {A : Type} (key : A → nat) (b : A) (l : list A) :
  ∃ g gs, runs key (b :: l) = (b :: g) :: gs.
Proof.
  rewrite runs_cons. destruct (head l) as [c|]; [|by eauto].
  destruct (runs key l) as [|g gs]; [by eauto|].
  destruct (key b =? key c); eauto.
Qed.

Lemma runs_counts {A : Type} (key : A → nat) (l : list A) :
  map length (runs key l) = unique_consecutive_counts (map key l).
Proof.
  induction l as [|a l IH]; [done|].
  rewrite runs_cons. rewrite fmap_cons. cbn [unique_consecutive_counts].
  rewrite <- IH. destruct l as [|b l]; [done|].
  cbn [head fmap list_fmap].
  destruct (runs key (b :: l)) as [|g gs]; [done|].
  csimpl. by destruct (key a =? key b).
Qed.

Lemma runs_concat {A : Type} (key : A → nat) (l : list A) :
  concat (runs key l) = l.
Proof.
  induction l as [|a l IH]; [done|].
  rewrite runs_cons. destruct l as [|b l]; [done|].
  cbn [head]. destruct (runs key (b :: l)) as [|g gs] eqn:E.
  { by destruct (runs_head key b l) as (? & ? & ?). }
  destruct (key a =? key b); csimpl in *; by rewrite IH.
Qed.

Lemma runs_constant {A : Type} (key : A → nat) (l : list A) :
  Forall (λ g, g ≠ [] ∧ ∃ k, Forall (λ t, key t = k) g) (runs key l).
Proof.
  induction l as [|a l IH]; [by constructor|].
  rewrite runs_cons. destruct l as [|b l].
  { repeat constructor; [done|]. exists (key a). by repeat constructor. }
  cbn [head]. destruct (runs_head key b l) as (g & gs & E).
  rewrite E in IH |- *. inversion IH as [|? ? [_ [k Hk]] Hgs]; subst.
  destruct (key a =? key b) eqn:Hab.
  - apply Nat.eqb_eq in Hab. constructor; [|done]. split; [done|].
    exists k. constructor; [|done]. inversion Hk; subst. done.
  - constructor; [|by constructor; eauto].
    split; [done|]. exists (key a). by repeat constructor.
Qed.

Lemma runs_maximal {A : Type} (key : A → nat) (l : list A) i g g' t t' :
  runs key l !! i = Some g → runs key l !! S i = Some g' →
  t ∈ g → t' ∈ g' → key t ≠ key t'.
Proof.
  revert i g g' t t'. induction l as [|a l IH]; [done|].
  intros i g g' t t'. rewrite runs_cons. destruct l as [|b l].
  { by destruct i. }
  cbn [head]. destruct (runs_head key b l) as (g0 & gs & E).
  pose proof (runs_constant key (b :: l)) as Hconst.
  rewrite E in IH, Hconst |- *.
  inversion Hconst as [|? ? [_ [k Hk]] _]; subst.
  rewrite Forall_forall in Hk.
  assert (key b = k) as Hb by (apply Hk; left).
  destruct (key a =? key b) eqn:Hab.
  - apply Nat.eqb_eq in Hab. destruct i as [|i].
    + cbn [lookup list_lookup]. intros [= <-] Hg' Ht Ht'.
      assert (key t = k) as Hkt.
      { apply elem_of_cons in Ht as [->|Ht]; [congruence|by apply Hk]. }
      assert (b ∈ b :: g0) as Hbin by left.
      pose proof (IH 0 (b :: g0) g' b t' eq_refl Hg' Hbin Ht'). congruence.
    + cbn [lookup list_lookup]. intros Hg Hg'. by apply (IH (S i)).
  - apply Nat.eqb_neq in Hab. destruct i as [|i].
    + cbn [lookup list_lookup]. intros [= <-] [= <-] Ht Ht'.
      apply list_elem_of_singleton in Ht as ->.
      rewrite (Hk t' Ht'). congruence.
    + cbn [lookup list_lookup]. intros Hg Hg'. by apply (IH i).
Qed.

Lemma elem_of_concat {A : Type} (t : A) (g : list A) (gs : list (list A)) :
  g ∈ gs → t ∈ g → t ∈ concat gs.
Proof.
  intros Hg Ht. induction gs as [|g' gs IH].
  - by apply elem_of_nil in Hg.
  - cbn [concat]. apply elem_of_app.
    apply elem_of_cons in Hg as [->|Hg]; [by left|right; by apply IH].
Qed.

Lemma slice_middle {A : Type} (pre g post : list A) :
  slice (pre ++ g ++ post) (length pre) (length pre + length g) = g.
Proof.
  unfold slice. rewrite drop_app_length.
  replace (length pre + length g - length pre) with (length g) by lia.
  by rewrite take_app_length.
Qed.

Lemma cat_group {A : Type} (t : batch A) (rest : list (batch A)) :
  Forall (λ t', inner t' ≠ []) (t :: rest) →
  Forall (λ t', inner t' = inner t) rest →
  cat (t :: rest) = Ok (Batch (inner t) (concat (map slices (t :: rest)))).
Proof.
  intros Hrank Hsame. unfold cat.
  assert (∀ l : list (batch A), Forall (λ t', inner t' ≠ []) l →
            filter (λ t' : batch A, is_empty0 t' = false) l = l) as Hkeep.
  { intros l Hl. induction Hl as [|t' l Ht' _ IH]; [done|].
    rewrite filter_cons. case_decide as E; [by rewrite IH|].
    exfalso. apply E. unfold is_empty0. by destruct (inner t'). }
  rewrite Hkeep by done. clear Hkeep Hrank.
  assert (forallb (λ t', bool_decide (inner t' = inner t)) rest = true) as ->.
  { induction Hsame as [|t' l Ht' _ IH]; [done|]. cbn [forallb].
    rewrite bool_decide_eq_true_2 by done. by rewrite IH. }
  done.
Qed.

Lemma cat_output {F : Type} (fs : list nat) (output out : batch F) :
  fs ≠ [] → output = empty0 ∨ inner output = fs → inner out = fs →
  cat [output; out] = Ok (Batch fs (slices output ++ slices out)).
Proof.
  intros Hfs [->|Ho] Hout.
  - unfold cat. rewrite !filter_cons, filter_nil.
    case_decide as E1; [done|]. case_decide as E2.
    + cbn [forallb]. csimpl. by rewrite Hout, app_nil_r.
    + exfalso. apply E2. unfold is_empty0. rewrite Hout. by destruct fs.
  - rewrite cat_group.
    + csimpl. by rewrite Ho, app_nil_r.
    + repeat constructor; congruence.
    + repeat constructor. congruence.
Qed.

Lemma forward_crops_eq {Im F : Type} (backbone : batch Im → forwarded F)
    (x : list (batch Im)) (start_idx end_idx : nat) (output : batch F) :
  forward_crops backbone x (start_idx, output) end_idx =
  (input ← cat (slice x start_idx end_idx);
   _out ← first_output (backbone input);
   output ← cat [output; _out];
   Ok (end_idx, output)).
Proof. done. Qed.

Lemma forward_loop {Im F : Type} (backbone : batch Im → forwarded F)
    (features : batch Im → batch F) (fs : list nat)
    (gs : list (list (batch Im))) (inputs : list (batch Im)) :
  fs ≠ [] →
  (∀ input, first_output (backbone input) = Ok (features input) ∧
            inner (features input) = fs) →
  Forall2 (λ g input, cat g = Ok input) gs inputs →
  ∀ pre output, output = empty0 ∨ inner output = fs →
    for_each (forward_crops backbone (pre ++ concat gs)) (length pre, output)
      (cumsum (length pre) (map length gs))
    = Ok (length pre + length (concat gs),
          match inputs with
          | [] => output
          | _ :: _ =>
              Batch fs (slices output
                        ++ concat (map (λ input, slices (features input))
                                       inputs))
          end).
Proof.
  intros Hfs Hback Hcat.
  induction Hcat as [|g input gs inputs Hg _ IH]; intros pre output Hout.
  - csimpl. by rewrite Nat.add_0_r.
  - cbn [fmap list_fmap cumsum for_each concat]. rewrite forward_crops_eq.
    rewrite slice_middle, Hg, bind_Ok.
    destruct (Hback input) as [-> Hin]. rewrite bind_Ok.
    rewrite (cat_output fs) by done. rewrite !bind_Ok.
    rewrite app_assoc, <- length_app.
    rewrite IH by (by right). f_equal.
    rewrite !length_app. f_equal; [lia|].
    destruct inputs as [|input' inputs]; csimpl.
    + by rewrite app_nil_r.
    + by rewrite <- !app_assoc.
Qed.

(** X21: [multicropwrapper] splits the crops into the runs of consecutive
    crops with the same last dimension, in order and leaving none out: a
    run is never empty, its crops agree in the last dimension, and the
    crops of two runs that follow each other do not.  The backbone is run
    once for each run, on the crops of the run put together, and the head
    on what the backbone returned, put together in the same order. *)
Theorem multicropwrapper_groups {Im F R : Type}
    (backbone : batch Im → forwarded F) (features : batch Im → batch F)
    (head : batch F → R) (x : list (batch Im)) (prediction : option (R → R))
    (fs : list nat) :
  x ≠ [] →
  Forall (λ t, inner t ≠ []) x →
  (∀ t t', t ∈ x → t' ∈ x → last_dim t = last_dim t' → inner t = inner t') →
  fs ≠ [] →
  (∀ input, first_output (backbone input) = Ok (features input) ∧
            inner (features input) = fs) →
  ∃ groups inputs,
    concat groups = x ∧
    Forall (λ g, g ≠ [] ∧ ∃ d, Forall (λ t, last_dim t = d) g) groups ∧
    (∀ i g g' t t',
       groups !! i = Some g → groups !! S i = Some g' →
       t ∈ g → t' ∈ g' → last_dim t ≠ last_dim t') ∧
    Forall2 (λ g input, cat g = Ok input ∧
                        slices input = concat (map slices g)) groups inputs ∧
    multicropwrapper backbone head (Several x) prediction
      = Ok (default id prediction
              (head (Batch fs (concat (map (λ input, slices (features input))
                                           inputs))))).
Proof.
  intros Hx Hrank Hsame Hfs Hback.
  pose proof (runs_concat last_dim x) as Hconcat.
  pose proof (runs_constant last_dim x) as Hconst.
  assert (∃ inputs,
            Forall2 (λ g input, cat g = Ok input ∧
                                slices input = concat (map slices g))
                    (runs last_dim x) inputs) as [inputs Hinputs].
  { assert (Forall (λ g, Forall (λ t, t ∈ x) g) (runs last_dim x)) as Hin.
    { apply Forall_forall. intros g Hg. apply Forall_forall. intros t Ht.
      rewrite <- Hconcat. by apply (elem_of_concat t g). }
    revert Hconst Hin. generalize (runs last_dim x). intros gs.
    induction gs as [|g gs IH]; intros Hconst Hin.
    { exists []. constructor. }
    inversion Hconst as [|? ? [Hne [d Hd]] Hconst']; subst.
    inversion Hin as [|? ? Hg Hin']; subst.
    destruct (IH Hconst' Hin') as [inputs Hinputs].
    destruct g as [|t rest]; [done|].
    exists (Batch (inner t) (concat (map slices (t :: rest))) :: inputs).
    constructor; [|done]. split; [|done].
    rewrite Forall_forall in Hrank, Hg, Hd.
    apply cat_group.
    - apply Forall_forall. intros t' Ht'. apply Hrank, Hg, Ht'.
    - apply Forall_forall. intros t' Ht'.
      assert (t ∈ t :: rest) as Ht by left.
      assert (t' ∈ t :: rest) as Ht'' by (by right).
      apply Hsame; [by apply Hg|by apply Hg|].
      by rewrite (Hd t Ht), (Hd t' Ht''). }
  exists (runs last_dim x), inputs.
  split; [done|]. split; [done|].
  split; [intros i g g' t t'; apply runs_maximal|].
  split; [done|].
  unfold multicropwrapper.
  destruct x as [|t0 x0] eqn:Ex; [done|]. rewrite <- Ex in *.
  assert (row_at x 0 = Ok t0) as -> by by rewrite Ex.
  rewrite bind_Ok.
  assert (Forall2 (λ g input, cat g = Ok input) (runs last_dim x) inputs)
    as Hcat.
  { eapply Forall2_impl; [exact Hinputs|]. by intros ? ? [? _]. }
  pose proof (forward_loop backbone features fs _ _ Hfs Hback Hcat [] empty0
                (or_introl eq_refl)) as Hloop.
  rewrite Hconcat, runs_counts in Hloop. cbn [length app] in Hloop.
  rewrite Hloop, bind_Ok.
  destruct inputs as [|input inputs].
  { apply Forall2_nil_inv_r in Hinputs. rewrite Hinputs in Hconcat.
    rewrite Ex in Hconcat. done. }
  cbn [slices empty0 app]. by destruct prediction.
Qed.

(** X21 for three crops of two resolutions. *)
Lemma multicropwrapper_groups_witness :
  ∃ groups inputs,
    concat groups = example_crops ∧
    Forall (λ g, g ≠ [] ∧ ∃ d, Forall (λ t, last_dim t = d) g) groups ∧
    (∀ i g g' t t',
       groups !! i = Some g → groups !! S i = Some g' →
       t ∈ g → t' ∈ g' → last_dim t ≠ last_dim t') ∧
    Forall2 (λ g input, cat g = Ok input ∧
                        slices input = concat (map slices g)) groups inputs ∧
    multicropwrapper example_backbone slices (Several example_crops) None
      = Ok (default id None
              (slices (Batch [4]
                 (concat (map (λ input, slices (example_features input))
                              inputs))))).
Proof.
  apply (multicropwrapper_groups example_backbone example_features slices
           example_crops None [4]).
  - done.
  - repeat constructor; done.
  - intros t t' Ht Ht'. unfold example_crops in Ht, Ht'.
    repeat (apply elem_of_cons in Ht as [->|Ht]);
      repeat (apply elem_of_cons in Ht' as [->|Ht']);
      try (by apply elem_of_nil in Ht); try (by apply elem_of_nil in Ht');
      done.
  - done.
  - done.
Defined.
